(** * BrailleAutoCorrect: the fuzzy-match engine of [braille_autocorrect.py]

    A shallow embedding of the class [BrailleAutoCorrect]: the braille
    encoder, the length-bucketed dictionary index, the budgeted
    Levenshtein distance, the candidate search with its ranking and its
    fallback, and the learned-correction store.

    Modelling conventions.
    - Python [str] is [string], a sequence of characters with code points
      below 256; [str.lower] and [str.strip] are modelled on these code
      points, where they map one character to one character.  Outside
      this range [str.lower] can change the number of characters (U+0130
      becomes two), which the model does not cover.  [int] is [Z];
      [None]-able arguments are [option].
    - A Python [float] is written as the rational number it holds.  The
      arithmetic on confidences is binary64 arithmetic: [d / n],
      [1.0 - _] and [_ + 0.1] return the exact result rounded to the
      nearest number with a 53-bit significand, ties to even
      ([binary64]), and [round (_, 3)] rounds the exact value of its
      argument at the third decimal, ties to even, as CPython does.  The
      result of [round (_, 3)] is written as that decimal (it stands for
      the float nearest to it, which prints as that decimal), and the
      exponent range is not bounded: no quantity of this program comes
      near overflow or the subnormal numbers.
    - [dict] with string keys and no dependence on order is a [gmap];
      [braille_words], whose [items ()] order is observable, is an
      insertion-ordered association list; [defaultdict (list)] is a
      [gmap] whose indexing inserts the default.
    - Exceptions are an explicit result; the engine is threaded through a
      small state-and-error monad. *)

From Stdlib Require Import ZArith QArith Qabs Qpower Lia Lqa Ascii String List Sorted.
From stdpp Require Import gmap strings list.

Local Open Scope Z_scope.

(* ===================================================================== *)
(** * Python built-ins used by the engine *)
(* ===================================================================== *)

(** [len (s)] for a [str]. *)
Definition len (s : string) : Z := Z.of_nat (String.length s).

(** [l[i]] on a list of integers; every index the engine uses is in range
    (see [row_cell_length] and [next_row_ok]). *)
Definition getZ (l : list Z) (i : nat) : Z := default 0 (l !! i).

(** [min (l)] on a non-empty list of integers. *)
Definition py_min (l : list Z) : Z :=
  match l with
  | [] => 0
  | x :: l' => fold_left Z.min l' x
  end.

(** [min (a, b, c)]. *)
Definition min3 (a b c : Z) : Z := Z.min a (Z.min b c).

(** Truth value of an optional integer: [None] and [0] are falsy. *)
Definition truthy (max_distance : option Z) : bool :=
  match max_distance with
  | Some d => negb (d =? 0)
  | None => false
  end.

(** [x > (max_distance or float ('inf'))]. *)
Definition exceeds_or_inf (x : Z) (max_distance : option Z) : bool :=
  match max_distance with
  | Some d => if d =? 0 then false else x >? d
  | None => false
  end.

(** [s1[i] != s2[j]] for characters of two strings. *)
Definition char_ne (s1 : string) (i : nat) (s2 : string) (j : nat) : bool :=
  negb (bool_decide (String.get i s1 = String.get j s2)).

(* ===================================================================== *)
(** * Distance engine: [levenshtein_optimized] *)
(* ===================================================================== *)

(** Body of the inner loop [for j in range (1, n + 1)]: one assignment
    [current_row[j] = min (add, delete, change)]. *)
Definition row_cell (s1 s2 : string) (i : nat) (previous_row : list Z)
    (current_row : list Z) (j : nat) : list Z :=
  let add := getZ previous_row j + 1 in
  let delete := getZ current_row (j - 1) + 1 in
  let change := getZ previous_row (j - 1) in
  let change := if char_ne s1 (j - 1) s2 (i - 1) then change + 1 else change in
  <[j := min3 add delete change]> current_row.

(** One iteration of the outer loop: the new [current_row] for row [i]. *)
Definition next_row (s1 s2 : string) (n : nat) (i : nat)
    (previous_row : list Z) : list Z :=
  fold_left (row_cell s1 s2 i previous_row) (seq 1 n)
            (Z.of_nat i :: repeat 0 n).

(** The outer loop [for i in range (1, m + 1)] with its early return, then
    the final [return current_row[n]]. *)
Fixpoint lev_loop (s1 s2 : string) (n : nat) (max_distance : option Z)
    (rows : list nat) (current_row : list Z) : Z :=
  match rows with
  | [] => getZ current_row n
  | i :: rows' =>
      let current_row := next_row s1 s2 n i current_row in
      match max_distance with
      | Some d =>
          if truthy max_distance && (py_min current_row >? d) then d + 1
          else lev_loop s1 s2 n max_distance rows' current_row
      | None => lev_loop s1 s2 n max_distance rows' current_row
      end
  end.

Definition levenshtein_optimized (s1 s2 : string) (max_distance : option Z) : Z :=
  if exceeds_or_inf (Z.abs (len s1 - len s2)) max_distance then
    match max_distance with
    | Some d => if truthy max_distance then d + 1 else Z.abs (len s1 - len s2)
    | None => Z.abs (len s1 - len s2)
    end
  else
    let n := String.length s1 in
    let m := String.length s2 in
    let '(s1, s2, n, m) := if (m <? n)%nat then (s2, s1, m, n) else (s1, s2, n, m) in
    lev_loop s1 s2 n max_distance (seq 1 m) (Z.of_nat <$> seq 0 (n + 1)).

(** [current_row] after [i] passes of the outer loop that run to their
    end. *)
Fixpoint matrix_row (s1 s2 : string) (n i : nat) : list Z :=
  match i with
  | O => Z.of_nat <$> seq 0 (n + 1)
  | S i' => next_row s1 s2 n i (matrix_row s1 s2 n i')
  end.

(** The test of line 59 succeeds: the lengths differ by more than a
    non-zero budget. *)
Definition length_check_stops (s1 s2 : string) (d : Z) : bool :=
  exceeds_or_inf (Z.abs (len s1 - len s2)) (Some d).

(** The test of line 76 succeeds in some pass: a completed row has its
    minimum above a non-zero budget. *)
Definition row_minimum_stops (s1 s2 : string) (d : Z) : bool :=
  let n := String.length s1 in
  let m := String.length s2 in
  let '(s1, s2, n, m) := if (m <? n)%nat then (s2, s1, m, n) else (s1, s2, n, m) in
  truthy (Some d) &&
  existsb (λ i, py_min (matrix_row s1 s2 n i) >? d) (seq 1 m).


(* ===================================================================== *)
(** * Reference edit distance *)
(* ===================================================================== *)

(** The glossary's definition: the minimum number of single-character
    insertions, deletions and substitutions that transform one string into
    the other.  [edit_op a b] is one such operation anywhere in [a];
    [edits k a b] is a chain of [k] of them. *)
Section EditDistance.
Context {A : Type} `{EqDecision A}.

Inductive edit_op : list A → list A → Prop :=
| op_insert pre x post : edit_op (pre ++ post) (pre ++ x :: post)
| op_delete pre x post : edit_op (pre ++ x :: post) (pre ++ post)
| op_subst pre x y post : edit_op (pre ++ x :: post) (pre ++ y :: post).

Inductive edits : nat → list A → list A → Prop :=
| edits_O a : edits O a a
| edits_S k a b c : edit_op a b → edits k b c → edits (S k) a c.

Definition is_edit_distance (a b : list A) (d : nat) : Prop :=
  edits d a b ∧ ∀ k, edits k a b → (d ≤ k)%nat.

(** The textbook recurrence, used as the bridge between the row-by-row
    computation and [is_edit_distance]. *)
Fixpoint lev (a b : list A) : nat :=
  match a with
  | [] => length b
  | x :: a' =>
      (fix lev_a (b : list A) : nat :=
         match b with
         | [] => S (length a')
         | y :: b' =>
             Nat.min (S (lev a' b))
               (Nat.min (S (lev_a b'))
                  (lev a' b' + if decide (x = y) then 0 else 1))
         end) b
  end.

End EditDistance.

(** Characters of a string, and the reference distance between strings. *)
Definition chars (s : string) : list ascii := list_ascii_of_string s.

Definition distance (a b : string) : nat := lev (chars a) (chars b).

(* ===================================================================== *)
(** * Encoder: [word_to_braille] *)
(* ===================================================================== *)

(** [str.lower ()] on the 256 code points the model covers: the ASCII
    capitals and the Latin-1 capitals (all but the multiplication sign)
    move up by 32.  Every one of these characters has a one-character
    lowercase form; beyond them that is not so (the lowercase of U+0130
    is two characters long), and the statements that depend on it say
    which words they are about. *)
Definition lower_char (c : ascii) : ascii :=
  let k := N_of_ascii c in
  if ((65 <=? k) && (k <=? 90) || (192 <=? k) && (k <=? 222) && negb (k =? 215))%N
  then ascii_of_N (k + 32) else c.

Fixpoint lower (s : string) : string :=
  match s with
  | EmptyString => EmptyString
  | String c s' => String (lower_char c) (lower s')
  end.

(** A word of ASCII characters. *)
Definition is_ascii (s : string) : Prop :=
  Forall (λ c, (N_of_ascii c < 128)%N) (list_ascii_of_string s).

(** [self.braille_map], in the order of the source. *)
Definition braille_map : list (ascii * string) :=
  [ ("a"%char, "100000"); ("b"%char, "110000"); ("c"%char, "100100");
    ("d"%char, "100110"); ("e"%char, "100010");
    ("f"%char, "110100"); ("g"%char, "110110"); ("h"%char, "110010");
    ("i"%char, "010100"); ("j"%char, "010110");
    ("k"%char, "101000"); ("l"%char, "111000"); ("m"%char, "101100");
    ("n"%char, "101110"); ("o"%char, "101010");
    ("p"%char, "111100"); ("q"%char, "111110"); ("r"%char, "111010");
    ("s"%char, "011100"); ("t"%char, "011110");
    ("u"%char, "101001"); ("v"%char, "111001"); ("w"%char, "010111");
    ("x"%char, "101101"); ("y"%char, "101111"); ("z"%char, "101011") ].

(** [d.get (k, dflt)] on a dictionary kept as an association list. *)
Fixpoint dict_get {K V} `{EqDecision K} (k : K) (d : list (K * V)) : option V :=
  match d with
  | [] => None
  | (k', v) :: d' => if decide (k = k') then Some v else dict_get k d'
  end.

(** [''.join (self.braille_map.get (c.lower (), '000000') for c in word)]. *)
Fixpoint word_to_braille (word : string) : string :=
  match word with
  | EmptyString => EmptyString
  | String c word' =>
      default "000000" (dict_get (lower_char c) braille_map) +:+ word_to_braille word'
  end.

(* ===================================================================== *)
(** * Engine state and construction *)
(* ===================================================================== *)

Record Engine := mkEngine {
  dictionary : list string;
  memory_file : string;
  user_corrections : gmap string string;
  (** a [dict]: insertion-ordered, keys unique *)
  braille_words : list (string * string);
  (** a [defaultdict (list)] keyed by code length *)
  words_by_length : gmap Z (list string);
}.

(** [str.isspace] on the model's code points. *)
Definition is_space (c : ascii) : bool :=
  let k := N_of_ascii c in
  ((9 <=? k) && (k <=? 13) || (28 <=? k) && (k <=? 32) || (k =? 133) || (k =? 160))%N.

Fixpoint lstrip (s : string) : string :=
  match s with
  | EmptyString => EmptyString
  | String c s' => if is_space c then lstrip s' else s
  end.

(** [str.strip ()]. *)
Definition strip (s : string) : string :=
  String.rev (lstrip (String.rev (lstrip s))).

Definition default_words : list string :=
  ["cat"; "cap"; "bat"; "rat"; "car"; "dog"; "can"; "help"; "hello"].

(** [load_dictionary]: [file] is [Some lines] with the result of
    [f.readlines ()], or [None] when opening raises [FileNotFoundError]. *)
Definition load_dictionary (file : option (list string)) : list string :=
  match file with
  | Some lines =>
      (λ line, lower (strip line)) <$>
        filter (λ line, strip line ≠ EmptyString) lines
  | None => default_words
  end.

(** [load_memory]: [stored] is [Some d] when the memory file exists and
    parses to the mapping [d], and [None] otherwise. *)
Definition load_memory (stored : option (gmap string string)) : gmap string string :=
  default ∅ stored.

(** [d[k] = v] on an insertion-ordered [dict]: an existing key keeps its
    position. *)
Fixpoint dict_set {K V} `{EqDecision K} (k : K) (v : V) (d : list (K * V)) : list (K * V) :=
  match d with
  | [] => [(k, v)]
  | (k', v') :: d' =>
      if decide (k = k') then (k, v) :: d' else (k', v') :: dict_set k v d'
  end.

(** [d[k]] on a [defaultdict (list)]: an absent key is created with the
    empty list. *)
Definition defaultdict_getitem (k : Z) (d : gmap Z (list string)) :
    list string * gmap Z (list string) :=
  match d !! k with
  | Some l => (l, d)
  | None => ([], <[k := []]> d)
  end.

(** One iteration of the loop of [_preprocess_dictionary]. *)
Definition preprocess_word (self : Engine) (word : string) : Engine :=
  let braille_pattern := word_to_braille word in
  let bw := dict_set word braille_pattern (braille_words self) in
  let '(bucket, wbl) := defaultdict_getitem (len braille_pattern) (words_by_length self) in
  mkEngine (dictionary self) (memory_file self) (user_corrections self) bw
           (<[len braille_pattern := bucket ++ [word]]> wbl).

Definition _preprocess_dictionary (self : Engine) : Engine :=
  fold_left preprocess_word (dictionary self) self.

(** [BrailleAutoCorrect.__init__], given what the two files hold. *)
Definition init (file : option (list string)) (memory_file : string)
    (stored : option (gmap string string)) : Engine :=
  _preprocess_dictionary
    (mkEngine (load_dictionary file) memory_file (load_memory stored) [] ∅).

(* ===================================================================== *)
(** * Learning store: [remember_choice] *)
(* ===================================================================== *)

(** The in-memory update of [remember_choice]; the write of the memory
    file that follows is wrapped in [try/except] and does not touch the
    engine. *)
Definition remember_choice (typed corrected : string) (self : Engine) : Engine :=
  mkEngine (dictionary self) (memory_file self)
           (<[lower typed := lower corrected]> (user_corrections self))
           (braille_words self) (words_by_length self).

(* ===================================================================== *)
(** * Effects: exceptions and the engine as state *)
(* ===================================================================== *)

Inductive exn := ZeroDivisionError | KeyError.

Inductive result (A : Type) :=
| Ok (a : A)
| Raise (e : exn).
Arguments Ok {A} a.
Arguments Raise {A} e.

(** A method of the engine: it reads and may write [self], and returns or
    raises. *)
Definition M (A : Type) : Type := Engine → result A * Engine.

Definition ret {A} (a : A) : M A := λ self, (Ok a, self).
Definition raise {A} (e : exn) : M A := λ self, (Raise e, self).
Definition bind {A B} (m : M A) (f : A → M B) : M B :=
  λ self, match m self with
          | (Ok a, self') => f a self'
          | (Raise e, self') => (Raise e, self')
          end.
Definition get_self : M Engine := λ self, (Ok self, self).

Notation "'let*' x ':=' m 'in' f" := (bind m (λ x, f))
  (at level 10, x name, m at level 100, f at level 200).

(** [for x in l: acc = body (acc, x)], stopping at the first exception. *)
Fixpoint foldM {A B} (body : A → B → M A) (acc : A) (l : list B) : M A :=
  match l with
  | [] => ret acc
  | x :: l' => let* acc' := body acc x in foldM body acc' l'
  end.

(** [self.words_by_length[length]]: indexing a [defaultdict] writes the
    default into the engine when the key is absent. *)
Definition words_by_length_getitem (length : Z) : M (list string) :=
  λ self,
    let '(bucket, wbl) := defaultdict_getitem length (words_by_length self) in
    (Ok bucket,
     mkEngine (dictionary self) (memory_file self) (user_corrections self)
              (braille_words self) wbl).

(** [d[k]] on a plain [dict]. *)
Definition dict_getitem (k : string) (d : list (string * string)) : M string :=
  match dict_get k d with
  | Some v => ret v
  | None => raise KeyError
  end.

(** ** Floating point *)

(** Round to the nearest integer, ties to even. *)
Definition round_half_even (q : Q) : Z :=
  let a := Qnum q in
  let b := Z.pos (Qden q) in
  let f := a / b in
  let r := a mod b in
  if 2 * r <? b then f
  else if b <? 2 * r then f + 1
  else if Z.even f then f else f + 1.

(** The binary exponent of a positive number [a]: the [e] with
    [2 ^ e <= a < 2 ^ (e + 1)]. *)
Definition binary_exponent (a : Q) : Z :=
  let e0 := Z.log2 (Qnum a) - Z.log2 (Z.pos (Qden a)) in
  if Qle_bool (Qpower 2 e0) a then e0 else e0 - 1.

(** Rounding to binary64: the nearest number with a significand of 53
    bits, ties to even. *)
Definition binary64 (x : Q) : Q :=
  if Qeq_bool x 0 then 0%Q
  else
    let a := Qabs x in
    let s := Qpower 2 (52 - binary_exponent a) in
    let r := (inject_Z (round_half_even (a * s)) / s)%Q in
    if Qle_bool 0 x then r else (- r)%Q.

(** [x - y] and [x + y] on floats, and a decimal literal such as [0.1]. *)
Definition float_sub (x y : Q) : Q := binary64 (x - y).
Definition float_add (x y : Q) : Q := binary64 (x + y).
Definition float_literal (q : Q) : Q := binary64 q.

(** [a / b] on integers: the quotient, correctly rounded, as a float. *)
Definition true_div (a b : Z) : M Q :=
  if b =? 0 then raise ZeroDivisionError
  else ret (binary64 (inject_Z a / inject_Z b)).

(* ===================================================================== *)
(** * Candidate search: [suggest_words] *)
(* ===================================================================== *)

(** A suggestion [(word, distance, confidence)]. *)
Definition Suggestion : Type := string * Z * Q.
Definition sg_word (x : Suggestion) : string := x.1.1.
Definition sg_distance (x : Suggestion) : Z := x.1.2.
Definition sg_confidence (x : Suggestion) : Q := x.2.

(** [round (q, 3)] for the float holding [q], written as a decimal. *)
Definition round3 (q : Q) : Q := (round_half_even (q * 1000) # 1000)%Q.

(** [range (lo, hi)]. *)
Definition range (lo hi : Z) : list Z :=
  (λ k, lo + Z.of_nat k) <$> seq 0 (Z.to_nat (hi - lo)).

(** [l[:k]], for any integer [k]. *)
Definition slice_to {A} (l : list A) (k : Z) : list A :=
  if 0 <=? k then take (Z.to_nat k) l
  else take (length l - Z.to_nat (- k)) l.

(** [list.sort] with a key compared by [lt].  The sort of Python is
    stable, and two stable sorts of one list by one key agree, so a stable
    insertion sort stands for it: [sort_insert] puts [x] in front of the
    first element that is not strictly before it. *)
Fixpoint sort_insert {A} (lt : A → A → bool) (x : A) (l : list A) : list A :=
  match l with
  | [] => [x]
  | y :: l' => if lt y x then y :: sort_insert lt x l' else x :: y :: l'
  end.

Definition py_sort {A} (lt : A → A → bool) (l : list A) : list A :=
  foldr (sort_insert lt) [] l.

(** Order of the keys [(x[1], -x[2])] as tuples. *)
Definition rank_lt (x y : Suggestion) : bool :=
  (sg_distance x <? sg_distance y) ||
  ((sg_distance x =? sg_distance y) &&
   negb (Qle_bool (- sg_confidence y) (- sg_confidence x))).

(** Order of the keys [x[1]]. *)
Definition distance_lt (x y : Suggestion) : bool :=
  sg_distance x <? sg_distance y.

(** The adaptive budget of lines 99-105. *)
Definition adaptive_max_distance (input_word : string) : Z :=
  if len input_word <=? 3 then 6
  else if len input_word <=? 5 then 5
  else 4.

(** Lines 108-112. *)
Definition search_lengths (input_len max_distance : Z) : list Z :=
  input_len ::
  flat_map (λ i, (if input_len - i >? 0 then [input_len - i] else [])
                 ++ [input_len + i])
           (range 1 (max_distance + 1)).

(** [word in self.user_corrections.values ()]. *)
Definition is_learned_value (self : Engine) (word : string) : bool :=
  bool_decide (word ∈ (map_to_list (user_corrections self)).*2).

(** Lines 117-128: the body of the loop over the words of a bucket. *)
Definition score_word (input_braille : string) (max_distance : Z)
    (suggestions : list Suggestion) (word : string) : M (list Suggestion) :=
  let* self := get_self in
  let* word_braille := dict_getitem word (braille_words self) in
  let distance := levenshtein_optimized input_braille word_braille (Some max_distance) in
  if distance <=? max_distance then
    let* ratio := true_div distance (len input_braille + len word_braille) in
    let confidence := float_sub 1 ratio in
    let confidence :=
      if is_learned_value self word
      then float_add confidence (float_literal (1 # 10)) else confidence in
    ret (suggestions ++ [(word, distance, round3 confidence)])
  else ret suggestions.

(** Lines 115-116: the body of the loop over [search_lengths]. *)
Definition scan_length (input_braille : string) (max_distance : Z)
    (suggestions : list Suggestion) (length : Z) : M (list Suggestion) :=
  let* self := get_self in
  if bool_decide (is_Some (words_by_length self !! length)) then
    let* bucket := words_by_length_getitem length in
    foldM (score_word input_braille max_distance) suggestions bucket
  else ret suggestions.

(** Lines 107-128: the list [suggestions] before it is sorted. *)
Definition search_candidates (input_braille : string) (max_distance : Z) :
    M (list Suggestion) :=
  foldM (scan_length input_braille max_distance) []
        (search_lengths (len input_braille) max_distance).

(** Lines 135-138. *)
Definition fallback (self : Engine) (input_braille : string) : list Suggestion :=
  let fallback :=
    (λ '(word, braille),
       (word, levenshtein_optimized input_braille braille None, 0%Q))
      <$> braille_words self in
  slice_to (py_sort distance_lt fallback) 1.

(** The [return] statement that produced the result. *)
Inductive exit := LearnedHit | Ranked | Fallback.

(** [suggest_words], with the [return] it left by. *)
Definition suggest_words_exit (input_word : string) (max_suggestions : Z)
    (max_distance : option Z) : M (exit * list Suggestion) :=
  let input_word := lower input_word in
  let* self := get_self in
  match
    match user_corrections self !! input_word with
    | Some learned_word =>
        if bool_decide (learned_word ∈ dictionary self)
        then Some learned_word else None
    | None => None
    end
  with
  | Some learned_word => ret (LearnedHit, [(learned_word, 0, 1%Q)])
  | None =>
      let input_braille := word_to_braille input_word in
      let max_distance :=
        match max_distance with
        | Some d => d
        | None => adaptive_max_distance input_word
        end in
      let* suggestions := search_candidates input_braille max_distance in
      let suggestions := py_sort rank_lt suggestions in
      let* self := get_self in
      match suggestions with
      | [] => ret (Fallback, fallback self input_braille)
      | _ => ret (Ranked, slice_to suggestions max_suggestions)
      end
  end.

Definition suggest_words (input_word : string) (max_suggestions : Z)
    (max_distance : option Z) : M (list Suggestion) :=
  let* r := suggest_words_exit input_word max_suggestions max_distance in ret r.2.

(* ===================================================================== *)
(** * Specification-side definitions *)
(* ===================================================================== *)

(** The bucket of a code length, empty when the length is absent. *)
Definition bucket (self : Engine) (length : Z) : list string :=
  default [] (words_by_length self !! length).

(** Engines that exist at run time: built by [__init__], then updated by
    [remember_choice] only.  (The module-level compatibility helper
    [suggest_word], which overwrites [dictionary] and indexes a second
    time, is outside this development.) *)
Inductive reachable : Engine → Prop :=
| reachable_init file memory_file stored :
    reachable (init file memory_file stored)
| reachable_remember typed corrected self :
    reachable self → reachable (remember_choice typed corrected self).

(** The index invariant of the data model: every dictionary word is a
    non-empty lowercase string, has its code cached, and sits in the
    bucket of its code length; the caches hold nothing else. *)
Record indexed (self : Engine) : Prop := {
  indexed_words : ∀ w, w ∈ dictionary self → w ≠ EmptyString ∧ lower w = w;
  indexed_code : ∀ w, w ∈ dictionary self →
    dict_get w (braille_words self) = Some (word_to_braille w);
  indexed_items : ∀ w c, (w, c) ∈ braille_words self →
    w ∈ dictionary self ∧ c = word_to_braille w;
  indexed_bucket : ∀ L w, w ∈ bucket self L →
    w ∈ dictionary self ∧ len (word_to_braille w) = L;
  indexed_in_bucket : ∀ w, w ∈ dictionary self →
    w ∈ bucket self (len (word_to_braille w));
}.

(** The value of [1.0 - distance / total], with [+ 0.1] when [bonus]
    holds, as binary64 arithmetic computes it (lines 122-126). *)
Definition float_confidence (distance total : Z) (bonus : bool) : Q :=
  let ratio := binary64 (inject_Z distance / inject_Z total) in
  let confidence := float_sub 1 ratio in
  if bonus then float_add confidence (float_literal (1 # 10)) else confidence.

(** What lines 117-128 append for one word whose cached code is
    [word_to_braille word]. *)
Definition candidate (self : Engine) (input_braille : string) (max_distance : Z)
    (word : string) : list Suggestion :=
  let word_braille := word_to_braille word in
  let distance := levenshtein_optimized input_braille word_braille (Some max_distance) in
  if distance <=? max_distance then
    [(word, distance,
      round3 (float_confidence distance (len input_braille + len word_braille)
                (is_learned_value self word)))]
  else [].

(** The list [suggestions] of an indexed engine, before sorting. *)
Definition candidates (self : Engine) (input_braille : string) (max_distance : Z) :
    list Suggestion :=
  flat_map (λ L, flat_map (candidate self input_braille max_distance) (bucket self L))
           (search_lengths (len input_braille) max_distance).

(** The learned correction that answers [input_word], if any
    (lines 90-93). *)
Definition learned_hit (self : Engine) (input_word : string) : option string :=
  match user_corrections self !! lower input_word with
  | Some learned_word =>
      if bool_decide (learned_word ∈ dictionary self) then Some learned_word else None
  | None => None
  end.

(** The budget in force (lines 99-105). *)
Definition budget_of (input_word : string) (max_distance : option Z) : Z :=
  match max_distance with
  | Some d => d
  | None => adaptive_max_distance (lower input_word)
  end.

(** State of the caches after the loop has handled the words [seen]. *)
Record indexed_upto (seen : list string) (self : Engine) : Prop := {
  upto_code : ∀ w, w ∈ seen →
    dict_get w (braille_words self) = Some (word_to_braille w);
  upto_items : ∀ w c, (w, c) ∈ braille_words self →
    w ∈ seen ∧ c = word_to_braille w;
  upto_bucket : ∀ L w, w ∈ bucket self L →
    w ∈ seen ∧ len (word_to_braille w) = L;
  upto_in_bucket : ∀ w, w ∈ seen → w ∈ bucket self (len (word_to_braille w));
}.

(** The confidence the specification describes for a kept candidate:
    [1 - distance / (len (inputCode) + len (candidateCode))], plus 0.1
    for a learned value, with no rounding. *)
Definition described_confidence (self : Engine) (input_braille : string)
    (x : Suggestion) : Q :=
  let raw :=
    (1 - inject_Z (sg_distance x)
         / inject_Z (len input_braille + len (word_to_braille (sg_word x))))%Q in
  if is_learned_value self (sg_word x) then (raw + (1 # 10))%Q else raw.

(** [q] is not within [10 ^ -15] of a point halfway between two multiples
    of [0.001]. *)
Definition clear_of_ties (q : Q) : Prop :=
  (Qabs (q * 1000 - inject_Z (round_half_even (q * 1000)))
   < (1 # 2) - (1 # 1000000000000))%Q.

(** The order of a returned list: ascending distance, and descending
    confidence among equal distances. *)
Definition ranked (l : list Suggestion) : Prop :=
  ∀ i j x y, (i < j)%nat → l !! i = Some x → l !! j = Some y →
    sg_distance x <= sg_distance y ∧
    (sg_distance x = sg_distance y → (sg_confidence y <= sg_confidence x)%Q).

(** The engine of the test scripts: default word list, no memory file. *)
Definition default_engine : Engine := init None "memory.json" None.

(** [x] does not come after [y] in the order of the keys. *)
Definition not_after {A} (lt : A → A → bool) (x y : A) : Prop := lt y x = false.

(** A computation that never changes the engine. *)
Definition read_only {A} (m : M A) : Prop := ∀ self, (m self).2 = self.

(** Entry [(i, j)] of the edit matrix that [levenshtein_optimized] fills
    row by row: the distance between the first [i] characters of [s2] and
    the first [j] characters of [s1]. *)
Definition cell (s1 s2 : string) (i j : nat) : Z :=
  Z.of_nat (lev (reverse (take i (chars s2))) (reverse (take j (chars s1)))).

(** [row] is row [i] of the matrix. *)
Definition row_ok (s1 s2 : string) (i : nat) (row : list Z) : Prop :=
  length row = S (String.length s1) ∧
  ∀ j, (j ≤ String.length s1)%nat → row !! j = Some (cell s1 s2 i j).

(* ===================================================================== *)
(** * The remaining operations of the module *)
(* ===================================================================== *)

(** [get_stats]: the three counters of the snapshot. *)
Record Stats := mkStats {
  dictionary_size : Z;
  learned_corrections : Z;
  braille_patterns_cached : Z;
}.

Definition get_stats (self : Engine) : Stats :=
  mkStats (Z.of_nat (length (dictionary self)))
          (Z.of_nat (size (user_corrections self)))
          (Z.of_nat (length (braille_words self))).

(** What the [try] block of [remember_choice] does to the memory file:
    the write succeeds, or it raises and leaves the file in some state
    ([None]: absent or unreadable). *)
Inductive write_outcome :=
| Written
| WriteFailed (left_behind : option (gmap string string)).

(** [remember_choice] with its effect on the memory file: the new engine,
    what the file holds afterwards, and whether the warning was printed. *)
Definition remember_choice_persist (typed corrected : string)
    (outcome : write_outcome) (self : Engine) :
    Engine * option (gmap string string) * bool :=
  let self := remember_choice typed corrected self in
  match outcome with
  | Written => (self, Some (user_corrections self), false)
  | WriteFailed left_behind => (self, left_behind, true)
  end.

(** The attribute assignment [corrector.dictionary = words]. *)
Definition set_dictionary (words : list string) (self : Engine) : Engine :=
  mkEngine words (memory_file self) (user_corrections self)
           (braille_words self) (words_by_length self).

(** The module-level functions kept for backward compatibility. *)
Module Compat.

(** [load_dictionary (filename)]: builds a corrector and hands back its
    word list. *)
Definition load_dictionary (file : option (list string))
    (stored : option (gmap string string)) : list string :=
  dictionary (init file "memory.json" stored).

(** [suggest_word (input_word, dictionary, memory_file)].  The corrector
    is built on the sample dictionary file [file], then given the caller's
    [dictionary] and indexed a second time.  The result comes with the
    state of the memory file afterwards. *)
Definition suggest_word (input_word : string) (dictionary : list string)
    (file : option (list string)) (memory_file : string)
    (stored : option (gmap string string)) (outcome : write_outcome) :
    result string * option (gmap string string) :=
  let corrector := init file memory_file stored in
  let corrector := set_dictionary dictionary corrector in
  let corrector := _preprocess_dictionary corrector in
  match suggest_words input_word 1 None corrector with
  | (Ok suggestions, corrector) =>
      match suggestions with
      | x :: _ =>
          let best_word := sg_word x in
          (Ok best_word,
           (remember_choice_persist input_word best_word outcome corrector).1.2)
      | [] => (Ok input_word, stored)
      end
  | (Raise e, _) => (Raise e, stored)
  end.

End Compat.

(** What one pass of the loop of [main] comes to. *)
Inductive main_step :=
| MainQuit                                  (* [break] *)
| MainTests                                 (* [run_tests ()], then [continue] *)
| MainSkip                                  (* empty line: [continue] *)
| MainTurn (suggestions : list Suggestion) (saved : bool).

(** One pass of the [while True] loop of [main] (lines 215-241): [line] is
    what [input] reads at the prompt, [answer] what it reads at the
    question, when that is asked.  [run_tests] works on a corrector of
    its own and learns nothing, so the loop's corrector and the memory
    file are as before after it.  Printing is left out. *)
Definition main_pass (line answer : string) (outcome : write_outcome)
    (self : Engine) (disk : option (gmap string string)) :
    result main_step * Engine * option (gmap string string) :=
  let user_input := strip line in
  if bool_decide (lower user_input = "quit") then (Ok MainQuit, self, disk)
  else if bool_decide (lower user_input = "test") then (Ok MainTests, self, disk)
  else if bool_decide (user_input = EmptyString) then (Ok MainSkip, self, disk)
  else
    match suggest_words user_input 3 None self with
    | (Ok suggestions, self) =>
        match suggestions with
        | x :: _ =>
            let choice := lower (strip answer) in
            if bool_decide (choice = "y") then
              let '(self, disk, _) :=
                remember_choice_persist user_input (sg_word x) outcome self in
              (Ok (MainTurn suggestions true), self, disk)
            else (Ok (MainTurn suggestions false), self, disk)
        | [] => (Ok (MainTurn [] false), self, disk)
        end
    | (Raise e, self) => (Raise e, self, disk)
    end.

(** What the encoder keeps of a character: its lowercase letter when the
    alphabet table has it, nothing otherwise. *)
Definition cell_key (c : ascii) : option ascii :=
  match dict_get (lower_char c) braille_map with
  | Some _ => Some (lower_char c)
  | None => None
  end.

(** The keys of a Python [dict] filled by assigning the words of [words]
    in order: each word at the place of its first occurrence. *)
Definition note_key (keys : list string) (word : string) : list string :=
  if decide (word ∈ keys) then keys else keys ++ [word].

Definition first_occurrences (words : list string) : list string :=
  fold_left note_key words [].

(** Engines built on the dictionary file [file] with the memory file
    named [mf], whatever that file held, and updated since. *)
Inductive built_from (file : option (list string)) (mf : string) : Engine → Prop :=
| built_init stored : built_from file mf (init file mf stored)
| built_remember typed corrected self :
    built_from file mf self →
    built_from file mf (remember_choice typed corrected self).

(** A string that neither begins nor ends with white space. *)
Definition unpadded (l : list ascii) : Prop :=
  (∀ c, head l = Some c → is_space c = false) ∧
  (∀ c, last l = Some c → is_space c = false).

(* ===================================================================== *)
(** * The web handlers of [web_app.py] *)
(* ===================================================================== *)

(** The handlers share one [corrector], the engine threaded here.  The
    wall-clock field [processing_time] of the answers is left out. *)
Module WebApp.

(** The JSON body of [/api/suggest], with the two keys the handler reads;
    an absent body is [None]. *)
Record SuggestRequest := mkSuggestRequest {
  req_word : option string;
  req_max_suggestions : option Z;
}.

Inductive SuggestResponse :=
| SuggestMissingWord                       (* status 400 *)
| SuggestOk (input : string) (suggestions : list Suggestion) (stats : Stats).

(** [api_suggest]. *)
Definition api_suggest (data : option SuggestRequest) : M SuggestResponse :=
  match data with
  | Some (mkSuggestRequest (Some word) max_suggestions) =>
      let input_word := strip word in
      let max_suggestions := default 5 max_suggestions in
      let* suggestions := suggest_words input_word max_suggestions None in
      let* self := get_self in
      ret (SuggestOk input_word
             ((λ x, (sg_word x, sg_distance x, round3 (sg_confidence x)))
                <$> suggestions)
             (get_stats self))
  | _ => ret SuggestMissingWord
  end.

(** The JSON body of [/api/learn]. *)
Record LearnRequest := mkLearnRequest {
  req_typed : option string;
  req_corrected : option string;
}.

Inductive LearnResponse :=
| LearnMissingField                        (* status 400 *)
| LearnOk.

(** [api_learn], with the memory file before and after. *)
Definition api_learn (data : option LearnRequest) (outcome : write_outcome)
    (self : Engine) (disk : option (gmap string string)) :
    LearnResponse * Engine * option (gmap string string) :=
  match data with
  | Some (mkLearnRequest (Some typed) (Some corrected)) =>
      let '(self, disk, _) := remember_choice_persist typed corrected outcome self in
      (LearnOk, self, disk)
  | _ => (LearnMissingField, self, disk)
  end.

(** A request to [/]: a [GET], or a [POST] with its form fields. *)
Inductive PageRequest :=
| GET
| POST (form : gmap string string).

(** What [home] hands to the template. *)
Record Page := mkPage {
  page_suggestions : option (list Suggestion);
  page_input_word : option string;
  page_stats : Stats;
}.

(** [home], with the memory file before and after. *)
Definition home (request : PageRequest) (outcome : write_outcome)
    (self : Engine) (disk : option (gmap string string)) :
    result Page * Engine * option (gmap string string) :=
  match request with
  | GET => (Ok (mkPage None None (get_stats self)), self, disk)
  | POST form =>
      let input_word := strip (default EmptyString (form !! "word")) in
      let '(self, disk) :=
        if bool_decide (form !! "learn" = Some "true") then
          match form !! "confirm_word" with
          | Some confirm_word =>
              if bool_decide (input_word ≠ EmptyString ∧ confirm_word ≠ EmptyString)
              then (remember_choice_persist input_word confirm_word outcome self).1
              else (self, disk)
          | None => (self, disk)
          end
        else (self, disk) in
      if bool_decide (input_word ≠ EmptyString) then
        match suggest_words input_word 5 None self with
        | (Ok suggestion_results, self) =>
            (Ok (mkPage (match suggestion_results with
                         | [] => None
                         | _ => Some suggestion_results
                         end)
                        (Some input_word) (get_stats self)), self, disk)
        | (Raise e, self) => (Raise e, self, disk)
        end
      else (Ok (mkPage None (Some input_word) (get_stats self)), self, disk)
  end.

End WebApp.

(** What a request may change of the shared corrector: nothing but the
    learned corrections, and of these no key is dropped. *)
Definition only_learns (self self' : Engine) : Prop :=
  dictionary self' = dictionary self ∧
  memory_file self' = memory_file self ∧
  braille_words self' = braille_words self ∧
  words_by_length self' = words_by_length self ∧
  ∀ typed, is_Some (user_corrections self !! typed) →
           is_Some (user_corrections self' !! typed).

(* ===================================================================== *)
(** * Theorems *)
(* ===================================================================== *)

(** ** The recurrence [lev] computes the edit distance *)
Section EditDistanceFacts.
Context {A : Type} `{EqDecision A}.
Implicit Types a b c : list A.

Local Open Scope nat_scope.

Lemma lev_nil_r a : lev a [] = length a.
Proof. by destruct a. Qed.

Lemma lev_cons_cons x y a b :
  lev (x :: a) (y :: b) =
  Nat.min (S (lev a (y :: b)))
    (Nat.min (S (lev (x :: a) b)) (lev a b + if decide (x = y) then 0 else 1)).
Proof. reflexivity. Qed.

Lemma lev_refl a : lev a a = 0.
Proof.
  induction a as [|x a IH]; [done|].
  rewrite lev_cons_cons, IH. rewrite decide_True by done. lia.
Qed.

(** Dropping or adding one character on either side moves [lev] by at
    most one. *)
Lemma lev_cons_l_le x a b : lev (x :: a) b ≤ S (lev a b).
Proof.
  destruct b as [|y b]; [by rewrite !lev_nil_r|].
  rewrite lev_cons_cons. lia.
Qed.

Lemma lev_cons_r_le y a b : lev a (y :: b) ≤ S (lev a b).
Proof.
  destruct a as [|x a]; [done|].
  rewrite lev_cons_cons. lia.
Qed.

Lemma lev_uncons_l_le x a b : lev a b ≤ S (lev (x :: a) b).
Proof.
  induction b as [|y b IH]; [rewrite !lev_nil_r; simpl; lia|].
  rewrite lev_cons_cons.
  pose proof (lev_cons_r_le y a b). case_decide; lia.
Qed.

Lemma lev_subst_l_le x y a b : lev (x :: a) b ≤ S (lev (y :: a) b).
Proof.
  induction b as [|z b IH]; [by rewrite !lev_nil_r; simpl; lia|].
  rewrite !lev_cons_cons. repeat case_decide; lia.
Qed.

(** One edit operation on the left argument moves [lev] by at most one. *)
Lemma lev_edit_op a a' b : edit_op a a' → lev a b ≤ S (lev a' b).
Proof.
  intros Hop. revert b.
  assert (Hlen : ∀ u v : list A, edit_op u v → length u ≤ S (length v)).
  { intros u v []; rewrite !length_app; simpl; lia. }
  assert (Hcons : ∀ (z : A) u v,
    edit_op u v → (∀ b, lev u b ≤ S (lev v b)) → ∀ b, lev (z :: u) b ≤ S (lev (z :: v) b)).
  { intros z u v Huv IH b. induction b as [|y b IHb].
    - rewrite !lev_nil_r. simpl. apply Hlen in Huv. lia.
    - rewrite !lev_cons_cons.
      pose proof (IH (y :: b)). pose proof (IH b). case_decide; lia. }
  destruct Hop as [pre x post|pre x post|pre x y post];
    induction pre as [|z pre IH]; simpl.
  - apply lev_uncons_l_le.
  - apply Hcons; [apply op_insert|done].
  - apply lev_cons_l_le.
  - apply Hcons; [apply op_delete|done].
  - apply lev_subst_l_le.
  - apply Hcons; [apply op_subst|done].
Qed.

Lemma edits_lower_bound k a b : edits k a b → lev a b ≤ k.
Proof.
  induction 1 as [a|k a b c Hop _ IH]; [by rewrite lev_refl|].
  pose proof (lev_edit_op a b c Hop). lia.
Qed.

(** Chains of operations compose and lift under a common first
    character. *)
Lemma edits_trans k1 k2 a b c : edits k1 a b → edits k2 b c → edits (k1 + k2) a c.
Proof. induction 1; simpl; eauto using edits. Qed.

Lemma edit_op_cons z a b : edit_op a b → edit_op (z :: a) (z :: b).
Proof.
  intros [pre x post|pre x post|pre x y post].
  - apply (op_insert (z :: pre)).
  - apply (op_delete (z :: pre)).
  - apply (op_subst (z :: pre)).
Qed.

Lemma edits_cons z k a b : edits k a b → edits k (z :: a) (z :: b).
Proof. induction 1; eauto using edits, edit_op_cons. Qed.

Lemma edits_weaken_nil_l b : edits (length b) [] b.
Proof.
  induction b as [|y b IH]; [constructor|]. simpl.
  eapply edits_S; [apply (op_insert [] y [])|]. by apply edits_cons.
Qed.

Lemma edits_weaken_nil_r a : edits (length a) a [].
Proof.
  induction a as [|x a IH]; [constructor|]. simpl.
  eapply edits_S; [apply (op_delete [] x a)|]. done.
Qed.

Lemma edits_upper_bound a b : edits (lev a b) a b.
Proof.
  revert b. induction a as [|x a IHa]; intros b.
  { apply edits_weaken_nil_l. }
  induction b as [|y b IHb].
  { rewrite lev_nil_r. apply edits_weaken_nil_r. }
  rewrite lev_cons_cons.
  destruct (Nat.min_spec (S (lev a (y :: b)))
    (Nat.min (S (lev (x :: a) b)) (lev a b + if decide (x = y) then 0 else 1)))
    as [[_ ->]|[_ ->]].
  { eapply edits_S; [apply (op_delete [] x a)|apply IHa]. }
  destruct (Nat.min_spec (S (lev (x :: a) b))
    (lev a b + if decide (x = y) then 0 else 1)) as [[_ ->]|[_ ->]].
  { replace (S (lev (x :: a) b)) with (lev (x :: a) b + 1) by lia.
    eapply edits_trans; [apply IHb|].
    eapply edits_S; [apply (op_insert [] y b)|constructor]. }
  case_decide as Hxy.
  - subst y. rewrite Nat.add_0_r. apply edits_cons, IHa.
  - replace (lev a b + 1) with (S (lev a b)) by lia.
    eapply edits_S; [apply (op_subst [] x y a)|]. apply edits_cons, IHa.
Qed.

Theorem lev_is_edit_distance a b : is_edit_distance a b (lev a b).
Proof. split; [apply edits_upper_bound|intros k; apply edits_lower_bound]. Qed.

Lemma is_edit_distance_unique a b d1 d2 :
  is_edit_distance a b d1 → is_edit_distance a b d2 → d1 = d2.
Proof. intros [H1 L1] [H2 L2]. apply L1 in H2. apply L2 in H1. lia. Qed.

(** Edit chains can be run backwards and mirrored, so the distance is
    symmetric and invariant under reversal of both strings. *)
Lemma edit_op_sym a b : edit_op a b → edit_op b a.
Proof. intros []; constructor. Qed.

Lemma edits_sym k a b : edits k a b → edits k b a.
Proof.
  induction 1 as [a|k a b c Hop _ IH]; [constructor|].
  replace (S k) with (k + 1) by lia.
  eapply edits_trans; [apply IH|].
  eapply edits_S; [by apply edit_op_sym|constructor].
Qed.

Lemma edit_op_reverse a b : edit_op a b → edit_op (reverse a) (reverse b).
Proof.
  intros [pre x post|pre x post|pre x y post];
    rewrite ?reverse_app, ?reverse_cons, <-?(assoc_L (++)); simpl; constructor.
Qed.

Lemma edits_reverse k a b : edits k a b → edits k (reverse a) (reverse b).
Proof. induction 1; eauto using edits, edit_op_reverse. Qed.

Lemma lev_sym a b : lev a b = lev b a.
Proof.
  apply (is_edit_distance_unique a b); [apply lev_is_edit_distance|].
  destruct (lev_is_edit_distance b a) as [Hup Hlow].
  split; [by apply edits_sym|]. intros k Hk. by apply Hlow, edits_sym.
Qed.

Lemma lev_reverse a b : lev (reverse a) (reverse b) = lev a b.
Proof.
  apply (is_edit_distance_unique a b); [|apply lev_is_edit_distance].
  destruct (lev_is_edit_distance (reverse a) (reverse b)) as [Hup Hlow].
  split.
  - apply edits_reverse in Hup. by rewrite !reverse_involutive in Hup.
  - intros k Hk. by apply Hlow, edits_reverse.
Qed.

(** Elementary bounds. *)
Lemma lev_length_l a b : length a ≤ lev a b + length b.
Proof.
  revert b. induction a as [|x a IHa]; intros b; [simpl; lia|].
  induction b as [|y b IHb]; [rewrite lev_nil_r; simpl; lia|].
  rewrite lev_cons_cons.
  pose proof (IHa (y :: b)) as H1. pose proof (IHa b) as H2.
  cbn [length] in *. case_decide; lia.
Qed.

Lemma lev_length_r a b : length b ≤ lev a b + length a.
Proof. rewrite lev_sym. apply lev_length_l. Qed.

Lemma lev_le_sum a b : lev a b ≤ length a + length b.
Proof.
  induction a as [|x a IH]; [simpl; lia|].
  pose proof (lev_cons_l_le x a b). cbn [length]. lia.
Qed.

Lemma lev_zero a b : lev a b = 0 → a = b.
Proof.
  revert b. induction a as [|x a IHa]; intros b.
  { simpl. by destruct b. }
  destruct b as [|y b]; [done|].
  rewrite lev_cons_cons. intros Hz.
  case_decide as Hxy; [|lia]. subst y. f_equal. apply IHa. lia.
Qed.

(** Prepending characters to the left argument cannot bring it closer
    than it already is to the best suffix of the right argument: the
    minimum of a row of the matrix never decreases from row to row. *)
Lemma lev_prepend_suffix pre a b :
  ∃ b', b' `suffix_of` b ∧ lev a b' ≤ lev (pre ++ a) b.
Proof.
  revert b. induction pre as [|x pre IH]; intros b.
  { exists b. split; [reflexivity|done]. }
  assert (Hone : ∀ (u v : list A), ∃ v', v' `suffix_of` v ∧ lev u v' ≤ lev (x :: u) v).
  { intros u v. induction v as [|y v IHv].
    - exists []. split; [reflexivity|]. rewrite !lev_nil_r. simpl. lia.
    - rewrite lev_cons_cons. destruct IHv as (v' & Hsuf & Hle).
      destruct (decide (S (lev u (y :: v)) ≤ S (lev (x :: u) v))) as [H1|H1];
        [destruct (decide (S (lev u (y :: v)) ≤
            lev u v + if decide (x = y) then 0 else 1))|
         destruct (decide (S (lev (x :: u) v) ≤
            lev u v + if decide (x = y) then 0 else 1))].
      + exists (y :: v). split; [reflexivity|lia].
      + exists v. split; [by apply suffix_cons_r|lia].
      + exists v'. split; [by apply suffix_cons_r|lia].
      + exists v. split; [by apply suffix_cons_r|lia]. }
  rewrite <-app_comm_cons. destruct (Hone (pre ++ a) b) as (b1 & Hs1 & Hl1).
  destruct (IH b1) as (b2 & Hs2 & Hl2).
  exists b2. split; [by etrans|lia].
Qed.

End EditDistanceFacts.

(** ** Strings as character lists *)

Lemma length_chars s : length (chars s) = String.length s.
Proof. induction s; simpl; congruence. Qed.

Lemma get_chars i s : String.get i s = chars s !! i.
Proof.
  revert i. induction s as [|c s IH]; intros [|i]; simpl; auto.
Qed.

Lemma chars_inj a b : chars a = chars b → a = b.
Proof.
  revert b. induction a as [|x a IH]; intros [|y b]; simpl; try done.
  intros [= -> Hab]. f_equal. by apply IH.
Qed.

(** ** [min] of a row *)

Lemma fold_min_le (l : list Z) (x : Z) :
  fold_left Z.min l x <= x ∧ ∀ y, y ∈ l → fold_left Z.min l x <= y.
Proof.
  revert x. induction l as [|z l IH]; intros x; simpl.
  { split; [lia|]. intros y Hy. by apply elem_of_nil in Hy. }
  destruct (IH (Z.min x z)) as [H1 H2]. split; [lia|].
  intros y [->|Hy]%elem_of_cons; [lia|by apply H2].
Qed.

Lemma py_min_le (l : list Z) (y : Z) : y ∈ l → py_min l <= y.
Proof.
  destruct l as [|x l]; [by intros ?%elem_of_nil|]. simpl.
  destruct (fold_min_le l x) as [H1 H2].
  intros [->|Hy]%elem_of_cons; [done|by apply H2].
Qed.

(** ** The rows computed by the loops are the rows of the edit matrix *)
Section Rows.
Variables s1 s2 : string.
Let n := String.length s1.
Let m := String.length s2.

Lemma cell_0_r i : (i ≤ m)%nat → cell s1 s2 i 0 = Z.of_nat i.
Proof.
  intros Hi. unfold cell. rewrite take_0, reverse_nil, lev_nil_r.
  rewrite length_reverse, length_take, length_chars. f_equal. fold m. lia.
Qed.

Lemma cell_0_l j : (j ≤ n)%nat → cell s1 s2 0 j = Z.of_nat j.
Proof.
  intros Hj. unfold cell. rewrite take_0, reverse_nil. simpl.
  rewrite length_reverse, length_take, length_chars. f_equal. fold n. lia.
Qed.

Lemma cell_S_S i j :
  (i < m)%nat → (j < n)%nat →
  cell s1 s2 (S i) (S j) =
  min3 (cell s1 s2 i (S j) + 1) (cell s1 s2 (S i) j + 1)
       (if char_ne s1 j s2 i then cell s1 s2 i j + 1 else cell s1 s2 i j).
Proof.
  intros Hi Hj. unfold cell, char_ne, min3.
  destruct (lookup_lt_is_Some_2 (chars s2) i) as [x Hx];
    [rewrite length_chars; done|].
  destruct (lookup_lt_is_Some_2 (chars s1) j) as [y Hy];
    [rewrite length_chars; done|].
  rewrite !get_chars, Hx, Hy.
  rewrite (take_S_r _ _ _ Hx), (take_S_r (chars s1) _ _ Hy).
  rewrite !reverse_snoc, lev_cons_cons.
  rewrite <-(reverse_snoc (take j (chars s1)) y).
  rewrite <-(reverse_snoc (take i (chars s2)) x).
  rewrite !Nat2Z.inj_min, !Nat2Z.inj_succ, Nat2Z.inj_add.
  destruct (decide (x = y)) as [->|Hxy].
  - rewrite bool_decide_true by done. simpl. lia.
  - rewrite bool_decide_false by congruence. simpl. lia.
Qed.

Lemma row_ok_init : row_ok s1 s2 0 (Z.of_nat <$> seq 0 (n + 1)).
Proof.
  split; [rewrite length_fmap, length_seq; fold n; lia|].
  intros j Hj. rewrite list_lookup_fmap, lookup_seq_lt by (fold n in Hj; lia).
  simpl. by rewrite cell_0_l.
Qed.

Lemma row_cell_length i prev cur j : length (row_cell s1 s2 i prev cur j) = length cur.
Proof. unfold row_cell. apply length_insert. Qed.

(** Invariant of the inner loop: the cells up to column [k] are final. *)
Lemma inner_loop_spec i prev r k cur :
  (i < m)%nat → row_ok s1 s2 i prev → (k + r = n)%nat →
  length cur = S n →
  (∀ j, (j ≤ k)%nat → cur !! j = Some (cell s1 s2 (S i) j)) →
  row_ok s1 s2 (S i) (fold_left (row_cell s1 s2 (S i) prev) (seq (S k) r) cur).
Proof.
  intros Hi [Hplen Hprev]. revert k cur.
  induction r as [|r IH]; intros k cur Hk Hlen Hcur; simpl.
  { split; [done|]. intros j Hj. apply Hcur. fold n in Hj. lia. }
  apply IH; [lia|by rewrite row_cell_length|].
  intros j Hj. unfold row_cell.
  destruct (decide (j = S k)) as [->|Hne].
  - rewrite list_lookup_insert_eq by lia. f_equal.
    rewrite cell_S_S by lia. unfold getZ.
    replace (S k - 1)%nat with k by lia. replace (S i - 1)%nat with i by lia.
    rewrite (Hprev (S k)), (Hprev k), (Hcur k) by (fold n; lia). simpl.
    by destruct (char_ne s1 k s2 i).
  - rewrite list_lookup_insert_ne by done. apply Hcur. lia.
Qed.

Lemma next_row_ok i prev :
  (i < m)%nat → row_ok s1 s2 i prev →
  row_ok s1 s2 (S i) (next_row s1 s2 n (S i) prev).
Proof.
  intros Hi Hprev. unfold next_row.
  apply (inner_loop_spec i prev n 0); [done..|lia| |].
  - simpl. by rewrite repeat_length.
  - intros j Hj. assert (j = 0%nat) as -> by lia. simpl.
    rewrite cell_0_r by lia. done.
Qed.

Lemma cell_final : cell s1 s2 m n = Z.of_nat (distance s1 s2).
Proof.
  unfold cell, distance, m, n. rewrite <-!length_chars, !firstn_all.
  by rewrite lev_reverse, lev_sym.
Qed.

(** The minimum of any row is a lower bound of the final distance. *)
Lemma row_min_le_final i row :
  (i ≤ m)%nat → row_ok s1 s2 i row → py_min row <= cell s1 s2 m n.
Proof.
  intros Hi [Hlen Hrow].
  destruct (lev_prepend_suffix (reverse (drop i (chars s2)))
    (reverse (take i (chars s2))) (reverse (take n (chars s1))))
    as (b' & [k Hk] & Hle).
  rewrite <-reverse_app, take_drop in Hle.
  assert (Hb' : b' = reverse (take (length b') (chars s1))).
  { apply (f_equal reverse) in Hk.
    rewrite reverse_involutive, reverse_app in Hk.
    apply (f_equal (take (length b'))) in Hk.
    rewrite take_take, take_app_length' in Hk by (by rewrite length_reverse).
    assert (length b' ≤ n)%nat as Hbn.
    { apply (f_equal length) in Hk.
      rewrite length_take, length_reverse in Hk. lia. }
    rewrite Nat.min_l in Hk by done.
    by rewrite Hk, reverse_involutive. }
  assert (length b' ≤ n)%nat as Hbn.
  { apply (f_equal length) in Hb'.
    rewrite length_reverse, length_take, length_chars in Hb'. fold n in Hb'. lia. }
  trans (cell s1 s2 i (length b')).
  - apply py_min_le, list_elem_of_lookup. exists (length b'). by apply Hrow.
  - unfold cell at 1. rewrite <-Hb'. unfold cell.
    replace (take m (chars s2)) with (chars s2)
      by (unfold m; by rewrite <-length_chars, firstn_all).
    lia.
Qed.

(** The outer loop, started at row [i], returns either the last cell of
    the matrix or, on a non-zero budget, the sentinel; it returns the
    last cell whenever that cell is within the budget. *)
Lemma lev_loop_spec max_distance r i cur :
  (i + r = m)%nat → row_ok s1 s2 i cur →
  let res := lev_loop s1 s2 n max_distance (seq (S i) r) cur in
  (res = cell s1 s2 m n ∨
   ∃ d, max_distance = Some d ∧ d ≠ 0 ∧ cell s1 s2 m n ≠ res ∧ res = d + 1) ∧
  (∀ d, max_distance = Some d → cell s1 s2 m n <= d → res = cell s1 s2 m n).
Proof.
  revert i cur. induction r as [|r IH]; intros i cur Hir Hok; simpl.
  { assert (i = m) as -> by lia. destruct Hok as [_ Hrow].
    unfold getZ. rewrite (Hrow n) by (fold n; lia). simpl. eauto. }
  assert (Hnext : row_ok s1 s2 (S i) (next_row s1 s2 n (S i) cur))
    by (apply next_row_ok; [fold m; lia|done]).
  specialize (IH (S i) _ ltac:(lia) Hnext). simpl in IH.
  destruct max_distance as [d|]; [|done].
  destruct (truthy (Some d) && (py_min (next_row s1 s2 n (S i) cur) >? d))
    eqn:Hstop; [|done].
  apply andb_true_iff in Hstop as [Htr Hmin].
  apply Z.gtb_lt in Hmin. simpl in Htr. apply negb_true_iff, Z.eqb_neq in Htr.
  pose proof (row_min_le_final (S i) _ ltac:(lia) Hnext).
  split.
  - destruct (decide (d + 1 = cell s1 s2 m n)); [by left|].
    right. exists d. eauto.
  - intros d' [= <-] Hle. lia.
Qed.

End Rows.

(** ** What [levenshtein_optimized] returns *)

(** Either the true distance or, on a non-zero budget, the sentinel
    [max_distance + 1]; and always the true distance when that is within
    the budget. *)
Lemma levenshtein_optimized_spec s1 s2 max_distance :
  let res := levenshtein_optimized s1 s2 max_distance in
  (res = Z.of_nat (distance s1 s2) ∨
   ∃ d, max_distance = Some d ∧ d ≠ 0 ∧ res = d + 1) ∧
  (∀ d, max_distance = Some d → Z.of_nat (distance s1 s2) <= d →
        res = Z.of_nat (distance s1 s2)).
Proof.
  unfold levenshtein_optimized.
  pose proof (lev_length_l (chars s1) (chars s2)) as Hl.
  pose proof (lev_length_r (chars s1) (chars s2)) as Hr.
  rewrite !length_chars in Hl, Hr. fold (distance s1 s2) in Hl, Hr.
  destruct (exceeds_or_inf _ _) eqn:Hfast.
  { destruct max_distance as [d|]; [|done]. simpl in Hfast |- *.
    destruct (Z.eqb_spec d 0) as [->|Hd]; [done|]. simpl.
    apply Z.gtb_lt in Hfast. split; [right; eauto|].
    intros d' [= <-] Hle. unfold len in Hfast. lia. }
  assert (Hsym : distance s2 s1 = distance s1 s2) by apply lev_sym.
  destruct (Nat.ltb_spec (String.length s2) (String.length s1)).
  - pose proof (lev_loop_spec s2 s1 max_distance (String.length s1) 0
      (Z.of_nat <$> seq 0 (String.length s2 + 1)) ltac:(lia)
      (row_ok_init s2 s1)) as [H1 H2].
    rewrite cell_final, Hsym in H1, H2. split; [|done].
    destruct H1 as [|(d & ? & ? & _ & ?)]; eauto.
  - pose proof (lev_loop_spec s1 s2 max_distance (String.length s2) 0
      (Z.of_nat <$> seq 0 (String.length s1 + 1)) ltac:(lia)
      (row_ok_init s1 s2)) as [H1 H2].
    rewrite cell_final in H1, H2. split; [|done].
    destruct H1 as [|(d & ? & ? & _ & ?)]; eauto.
Qed.

(** The outer loop under a budget, pass by pass: it stops at the first
    completed row whose minimum exceeds a non-zero budget, and otherwise
    returns the last cell of the last row. *)
Lemma lev_loop_rows s1 s2 n d r i :
  lev_loop s1 s2 n (Some d) (seq (S i) r) (matrix_row s1 s2 n i) =
  if truthy (Some d) &&
     existsb (λ j, py_min (matrix_row s1 s2 n j) >? d) (seq (S i) r)
  then d + 1 else getZ (matrix_row s1 s2 n (i + r)) n.
Proof.
  revert i. induction r as [|r IH]; intros i.
  { cbn [seq existsb lev_loop]. rewrite andb_false_r. by rewrite Nat.add_0_r. }
  cbn [seq existsb lev_loop].
  change (next_row s1 s2 n (S i) (matrix_row s1 s2 n i))
    with (matrix_row s1 s2 n (S i)).
  rewrite IH. replace (S i + r)%nat with (i + S r)%nat by lia.
  destruct (truthy (Some d)); [|done]. cbn [andb].
  by destruct (py_min (matrix_row s1 s2 n (S i)) >? d).
Qed.

Lemma matrix_row_ok s1 s2 i :
  (i ≤ String.length s2)%nat →
  row_ok s1 s2 i (matrix_row s1 s2 (String.length s1) i).
Proof.
  induction i as [|i IH]; intros Hi; [apply row_ok_init|].
  cbn [matrix_row]. apply next_row_ok; [lia|]. apply IH. lia.
Qed.

Lemma matrix_row_final s1 s2 :
  getZ (matrix_row s1 s2 (String.length s1) (String.length s2)) (String.length s1)
  = Z.of_nat (distance s1 s2).
Proof.
  destruct (matrix_row_ok s1 s2 (String.length s2)) as [_ Hrow]; [done|].
  unfold getZ. rewrite (Hrow (String.length s1)) by done. simpl.
  apply cell_final.
Qed.

(** What [levenshtein_optimized] returns under a budget. *)
Lemma levenshtein_optimized_budget a b d :
  levenshtein_optimized a b (Some d) =
  if length_check_stops a b d || row_minimum_stops a b d
  then d + 1 else Z.of_nat (distance a b).
Proof.
  unfold levenshtein_optimized, length_check_stops, row_minimum_stops.
  destruct (exceeds_or_inf _ _) eqn:Hfast.
  { cbn [orb]. simpl in Hfast |- *. by destruct (d =? 0). }
  cbn [orb].
  destruct (Nat.ltb_spec (String.length b) (String.length a)).
  - change (Z.of_nat <$> seq 0 (String.length b + 1))
      with (matrix_row b a (String.length b) 0).
    rewrite (lev_loop_rows b a (String.length b) d (String.length a) 0).
    cbn [Nat.add]. rewrite matrix_row_final.
    unfold distance. by rewrite (lev_sym (chars b) (chars a)).
  - change (Z.of_nat <$> seq 0 (String.length a + 1))
      with (matrix_row a b (String.length a) 0).
    rewrite (lev_loop_rows a b (String.length a) d (String.length b) 0).
    cbn [Nat.add]. by rewrite matrix_row_final.
Qed.


(** ** [suggest_words] leaves the engine as it found it *)

Lemma read_only_ret {A} (a : A) : read_only (ret a).
Proof. done. Qed.

Lemma read_only_raise {A} (e : exn) : read_only (@raise A e).
Proof. done. Qed.

Lemma read_only_get_self : read_only get_self.
Proof. done. Qed.

Lemma read_only_bind {A B} (m : M A) (f : A → M B) :
  read_only m → (∀ a, read_only (f a)) → read_only (bind m f).
Proof.
  intros Hm Hf self. unfold bind. specialize (Hm self).
  destruct (m self) as [[a|e] self']; simpl in *; subst; [apply Hf|done].
Qed.

Lemma read_only_foldM {A B} (body : A → B → M A) acc l :
  (∀ acc x, read_only (body acc x)) → read_only (foldM body acc l).
Proof.
  intros Hbody. revert acc. induction l as [|x l IH]; intros acc; simpl.
  - apply read_only_ret.
  - apply read_only_bind; [apply Hbody|intros; apply IH].
Qed.

Lemma read_only_dict_getitem k d : read_only (dict_getitem k d).
Proof. unfold dict_getitem. destruct (dict_get k d); done. Qed.

Lemma read_only_true_div a b : read_only (true_div a b).
Proof. unfold true_div. destruct (b =? 0); done. Qed.

Lemma read_only_score_word ib md acc w : read_only (score_word ib md acc w).
Proof.
  unfold score_word. apply read_only_bind; [apply read_only_get_self|].
  intros self. apply read_only_bind; [apply read_only_dict_getitem|].
  intros c. destruct (_ <=? _); [|apply read_only_ret].
  apply read_only_bind; [apply read_only_true_div|]. intros; apply read_only_ret.
Qed.

(** Indexing the [defaultdict] at a key that is present writes nothing. *)
Lemma words_by_length_getitem_present length self bucket :
  words_by_length self !! length = Some bucket →
  words_by_length_getitem length self = (Ok bucket, self).
Proof.
  intros Hl. unfold words_by_length_getitem, defaultdict_getitem.
  rewrite Hl. by destruct self.
Qed.

(** The membership test of line 115 guards the indexing of line 116. *)
Lemma read_only_scan_length ib md acc length : read_only (scan_length ib md acc length).
Proof.
  intros self. unfold scan_length, bind, get_self.
  case_bool_decide as Hin; [|done].
  destruct Hin as [bucket Hb].
  rewrite (words_by_length_getitem_present _ _ _ Hb).
  apply read_only_foldM. intros; apply read_only_score_word.
Qed.

Lemma read_only_search_candidates ib md : read_only (search_candidates ib md).
Proof. apply read_only_foldM. intros; apply read_only_scan_length. Qed.

Lemma read_only_suggest_words_exit w k md : read_only (suggest_words_exit w k md).
Proof.
  unfold suggest_words_exit. apply read_only_bind; [apply read_only_get_self|].
  intros self. destruct (match user_corrections self !! lower w with
                         | Some _ => _ | None => _ end); [apply read_only_ret|].
  apply read_only_bind; [apply read_only_search_candidates|].
  intros cands. apply read_only_bind; [apply read_only_get_self|].
  intros self'. destruct (py_sort rank_lt cands); apply read_only_ret.
Qed.

Lemma read_only_suggest_words w k md : read_only (suggest_words w k md).
Proof.
  apply read_only_bind; [apply read_only_suggest_words_exit|].
  intros; apply read_only_ret.
Qed.

(** ** Sorting and slicing *)
Section Sorting.
Context {A : Type} (lt : A → A → bool).

Lemma sort_insert_perm x l : sort_insert lt x l ≡ₚ x :: l.
Proof.
  induction l as [|y l IH]; simpl; [done|].
  destruct (lt y x); [|done]. rewrite IH. apply Permutation_swap.
Qed.

Lemma py_sort_perm l : py_sort lt l ≡ₚ l.
Proof.
  induction l as [|x l IH]; simpl; [done|].
  unfold py_sort in *. by rewrite sort_insert_perm, IH.
Qed.

Lemma py_sort_elem_of x l : x ∈ py_sort lt l ↔ x ∈ l.
Proof. by rewrite py_sort_perm. Qed.

Lemma py_sort_nil_inv l : py_sort lt l = [] → l = [].
Proof. intros Hs. apply Permutation_nil_r. by rewrite <-Hs, py_sort_perm. Qed.

Hypothesis lt_asym : ∀ a b, lt a b = true → lt b a = false.
Hypothesis not_after_trans : ∀ a b c, not_after lt a b → not_after lt b c → not_after lt a c.

Lemma sort_insert_sorted x l :
  StronglySorted (not_after lt) l → StronglySorted (not_after lt) (sort_insert lt x l).
Proof.
  induction 1 as [|y l Hl IH Hy]; simpl.
  { repeat constructor. }
  destruct (lt y x) eqn:Hyx.
  - constructor; [done|]. rewrite sort_insert_perm.
    constructor; [by apply lt_asym|done].
  - constructor; [by constructor|]. constructor; [done|].
    eapply Forall_impl; [exact Hy|]. intros z Hz. by eapply not_after_trans.
Qed.

Lemma py_sort_sorted l : StronglySorted (not_after lt) (py_sort lt l).
Proof.
  induction l as [|x l IH]; [constructor|]. by apply sort_insert_sorted.
Qed.

Lemma py_sort_head_least x rest l :
  py_sort lt l = x :: rest → ∀ y, y ∈ l → not_after lt x y.
Proof.
  intros Hs y Hy. pose proof (py_sort_sorted l) as Hsorted.
  rewrite Hs in Hsorted. apply StronglySorted_inv in Hsorted as [_ Hall].
  apply py_sort_elem_of in Hy. rewrite Hs in Hy.
  apply elem_of_cons in Hy as [->|Hy].
  - unfold not_after. destruct (lt x x) eqn:Hxx; [|done].
    by rewrite (lt_asym _ _ Hxx) in Hxx.
  - by eapply Forall_forall in Hall.
Qed.

End Sorting.

Lemma StronglySorted_lookup {A} (R : A → A → Prop) (l : list A) i j x y :
  StronglySorted R l → (i < j)%nat → l !! i = Some x → l !! j = Some y → R x y.
Proof.
  intros Hs. revert i j. induction Hs as [|z l Hl IH Hz]; intros i j Hij Hi Hj.
  { by rewrite lookup_nil in Hi. }
  destruct j as [|j]; [lia|]. simpl in Hj. destruct i as [|i]; simpl in Hi.
  - injection Hi as ->. eapply Forall_forall in Hz; [done|].
    by eapply list_elem_of_lookup_2.
  - eapply (IH i j); [lia|done..].
Qed.

Lemma StronglySorted_take {A} (R : A → A → Prop) (l : list A) n :
  StronglySorted R l → StronglySorted R (take n l).
Proof.
  intros Hs. revert n. induction Hs as [|z l Hl IH Hz]; intros [|n]; simpl;
    try constructor; [apply IH|].
  eapply Forall_forall. intros y Hy. eapply Forall_forall in Hz; [done|].
  by apply (subseteq_take n l).
Qed.

Lemma slice_to_take {A} (l : list A) k : ∃ n, slice_to l k = take n l.
Proof. unfold slice_to. destruct (0 <=? k); eauto. Qed.

Lemma slice_to_length {A} (l : list A) k :
  0 <= k → Z.of_nat (length (slice_to l k)) <= k.
Proof.
  intros Hk. unfold slice_to. destruct (Z.leb_spec 0 k); [|lia].
  rewrite length_take. lia.
Qed.

Lemma slice_to_cons {A} (x : A) (l : list A) k :
  1 <= k → ∃ rest, slice_to (x :: l) k = x :: rest.
Proof.
  intros Hk. unfold slice_to. destruct (Z.leb_spec 0 k); [|lia].
  destruct (Z.to_nat k) as [|n] eqn:Hn; [lia|]. simpl. eauto.
Qed.


(** ** The two sort keys *)

Lemma rank_not_after x y :
  not_after rank_lt x y ↔
  sg_distance x <= sg_distance y ∧
  (sg_distance x = sg_distance y → (sg_confidence y <= sg_confidence x)%Q).
Proof.
  unfold not_after, rank_lt.
  rewrite orb_false_iff, andb_false_iff, negb_false_iff, Z.ltb_ge, Z.eqb_neq.
  rewrite Qle_bool_iff.
  assert ((- sg_confidence x <= - sg_confidence y)%Q ↔
          (sg_confidence y <= sg_confidence x)%Q) as ->.
  { unfold Qle. simpl. lia. }
  split.
  - intros [Hd [Hne|Hc]]; (split; [done|]); [intros Heq; congruence|done].
  - intros [Hd Hc]. split; [done|].
    destruct (decide (sg_distance y = sg_distance x)) as [Heq|]; [|by left].
    right. by apply Hc.
Qed.

Lemma rank_lt_asym a b : rank_lt a b = true → rank_lt b a = false.
Proof.
  intros Hab. apply rank_not_after.
  unfold rank_lt in Hab. apply orb_true_iff in Hab as [Hlt|Heq].
  - apply Z.ltb_lt in Hlt. split; lia.
  - apply andb_true_iff in Heq as [Hd Hc]. apply Z.eqb_eq in Hd.
    apply negb_true_iff in Hc. split; [lia|]. intros _.
    destruct (Qlt_le_dec (sg_confidence a) (sg_confidence b)) as [Hlt|]; [|done].
    assert (Qle_bool (- sg_confidence b) (- sg_confidence a) = true); [|congruence].
    apply Qle_bool_iff, Qopp_le_compat. by apply Qlt_le_weak.
Qed.

Lemma rank_not_after_trans a b c :
  not_after rank_lt a b → not_after rank_lt b c → not_after rank_lt a c.
Proof.
  rewrite !rank_not_after. intros [H1 C1] [H2 C2]. split; [lia|].
  intros Heq. eapply Qle_trans; [apply C2|apply C1]; lia.
Qed.

Lemma distance_not_after x y :
  not_after distance_lt x y ↔ sg_distance x <= sg_distance y.
Proof. unfold not_after, distance_lt. apply Z.ltb_ge. Qed.

Lemma distance_lt_asym a b : distance_lt a b = true → distance_lt b a = false.
Proof. unfold distance_lt. rewrite Z.ltb_lt, Z.ltb_ge. lia. Qed.

Lemma distance_not_after_trans a b c :
  not_after distance_lt a b → not_after distance_lt b c → not_after distance_lt a c.
Proof. rewrite !distance_not_after. lia. Qed.

(** ** Rounding to three decimals *)

Lemma round_half_even_lower (z : Z) (q : Q) :
  (inject_Z z <= q)%Q → z <= round_half_even q.
Proof.
  destruct q as [a b]. unfold Qle, round_half_even. simpl. intros Hle.
  assert (z <= a / Z.pos b) by (apply Z.div_le_lower_bound; lia).
  repeat destruct (_ <? _); try destruct (Z.even _); lia.
Qed.

Lemma round_half_even_upper (z : Z) (q : Q) :
  (q <= inject_Z z)%Q → round_half_even q <= z.
Proof.
  destruct q as [a b]. unfold Qle, round_half_even. simpl. intros Hle.
  rewrite Z.mul_1_r in Hle.
  pose proof (Z.div_mod a (Z.pos b) ltac:(lia)) as Hdm.
  pose proof (Z.mod_pos_bound a (Z.pos b) ltac:(lia)) as Hmod.
  destruct (Z.ltb_spec (2 * (a mod Z.pos b)) (Z.pos b)) as [Hs|Hs].
  - apply Z.div_le_upper_bound; lia.
  - assert (a / Z.pos b < z); [|repeat destruct (_ <? _); try destruct (Z.even _); lia].
    assert (Z.pos b * (a / Z.pos b) < Z.pos b * z) by lia.
    apply (Z.mul_lt_mono_pos_l (Z.pos b)); lia.
Qed.

Lemma round3_lower (z : Z) (q : Q) : (z # 1000 <= q)%Q → (z # 1000 <= round3 q)%Q.
Proof.
  intros Hle. unfold round3.
  assert (z <= round_half_even (q * 1000)); [|unfold Qle; simpl; lia].
  apply round_half_even_lower. revert Hle. destruct q as [a b].
  unfold Qle. simpl. lia.
Qed.

Lemma round3_upper (z : Z) (q : Q) : (q <= z # 1000)%Q → (round3 q <= z # 1000)%Q.
Proof.
  intros Hle. unfold round3.
  assert (round_half_even (q * 1000) <= z); [|unfold Qle; simpl; lia].
  apply round_half_even_upper. revert Hle. destruct q as [a b].
  unfold Qle. simpl. lia.
Qed.

Lemma round3_exact (z : Z) (q : Q) : (q == z # 1000)%Q → (round3 q == z # 1000)%Q.
Proof.
  intros Heq. apply Qle_antisym.
  - apply round3_upper. rewrite Heq. apply Qle_refl.
  - apply round3_lower. rewrite Heq. apply Qle_refl.
Qed.

Lemma round_half_even_error (q : Q) :
  (inject_Z (round_half_even q) - (1 # 2) <= q
   <= inject_Z (round_half_even q) + (1 # 2))%Q.
Proof.
  destruct q as [a b].
  assert (H : (2 * round_half_even (a # b) - 1) * Z.pos b <= 2 * a
              <= (2 * round_half_even (a # b) + 1) * Z.pos b).
  { unfold round_half_even. cbn [Qnum Qden].
    pose proof (Z.div_mod a (Z.pos b) ltac:(lia)) as Hdm.
    pose proof (Z.mod_pos_bound a (Z.pos b) ltac:(lia)) as Hmod.
    set (f := a / Z.pos b) in *. set (r := a mod Z.pos b) in *.
    destruct (Z.ltb_spec (2 * r) (Z.pos b)); [|destruct (Z.ltb_spec (Z.pos b) (2 * r));
      [|destruct (Z.even f)]]; nia. }
  revert H. generalize (round_half_even (a # b)). intros z H.
  unfold Qle, Qminus, Qplus, Qopp, inject_Z. cbn [Qnum Qden]. lia.
Qed.

(** A number less than half a unit away from an integer rounds to it. *)
Lemma round_half_even_near (z : Z) (q : Q) :
  ((inject_Z z - (1 # 2) < q)%Q → z <= round_half_even q) ∧
  ((q < inject_Z z + (1 # 2))%Q → round_half_even q <= z).
Proof.
  pose proof (round_half_even_error q) as [Hlo Hhi].
  split; intros Hq.
  - assert (inject_Z z < inject_Z (round_half_even q) + 1)%Q as H by lra.
    rewrite <-(inject_Z_plus _ 1), <-Zlt_Qlt in H. lia.
  - assert (inject_Z (round_half_even q) < inject_Z z + 1)%Q as H by lra.
    rewrite <-(inject_Z_plus _ 1), <-Zlt_Qlt in H. lia.
Qed.

Lemma Qmake_1000 (z : Z) : (z # 1000 == inject_Z z * (1 # 1000))%Q.
Proof. unfold Qeq, inject_Z. simpl. lia. Qed.

Lemma round3_error (q : Q) :
  (round3 q - (1 # 2000) <= q <= round3 q + (1 # 2000))%Q.
Proof.
  unfold round3. rewrite Qmake_1000.
  pose proof (round_half_even_error (q * 1000)). lra.
Qed.

Lemma round3_near (z : Z) (q : Q) :
  (((z # 1000) - (1 # 2000) < q)%Q → (z # 1000 <= round3 q)%Q) ∧
  ((q < (z # 1000) + (1 # 2000))%Q → (round3 q <= z # 1000)%Q).
Proof.
  unfold round3. rewrite (Qmake_1000 z).
  destruct (round_half_even_near z (q * 1000)) as [Hlo Hhi].
  split; intros Hq.
  - assert (z <= round_half_even (q * 1000)) by (apply Hlo; lra).
    rewrite <-Qmake_1000. unfold Qle. simpl. lia.
  - assert (round_half_even (q * 1000) <= z) by (apply Hhi; lra).
    rewrite <-Qmake_1000. unfold Qle. simpl. lia.
Qed.

(** ** Binary64 arithmetic *)

Lemma binary_exponent_le (a : Q) :
  (0 < a)%Q → (Qpower 2 (binary_exponent a) <= a)%Q.
Proof.
  intros Ha. unfold binary_exponent.
  destruct (Qle_bool _ a) eqn:Ht; [by apply Qle_bool_iff|]. clear Ht.
  destruct a as [n d]. cbn [Qnum Qden].
  assert (0 < n) as Hn by (unfold Qlt in Ha; simpl in Ha; lia).
  pose proof (Z.log2_spec n Hn) as [Hn1 _].
  pose proof (Z.log2_spec (Z.pos d) ltac:(lia)) as [_ Hd2].
  pose proof (Z.log2_nonneg n). pose proof (Z.log2_nonneg (Z.pos d)).
  replace (Z.log2 n - Z.log2 (Z.pos d) - 1)
    with (Z.log2 n - Z.succ (Z.log2 (Z.pos d))) by lia.
  rewrite Qpower_minus by discriminate.
  rewrite <-!(Zpower_Qpower 2) by lia.
  set (P := 2 ^ Z.log2 n) in *. set (R := 2 ^ Z.succ (Z.log2 (Z.pos d))) in *.
  apply Qle_shift_div_r; [unfold Qlt; simpl; lia|].
  unfold Qle. simpl. nia.
Qed.

Lemma binary_exponent_lt (a : Q) :
  (0 < a)%Q → (a < Qpower 2 (binary_exponent a + 1))%Q.
Proof.
  intros Ha. unfold binary_exponent.
  destruct (Qle_bool _ a) eqn:Ht.
  - clear Ht. destruct a as [n d]. cbn [Qnum Qden].
    assert (0 < n) as Hn by (unfold Qlt in Ha; simpl in Ha; lia).
    pose proof (Z.log2_spec n Hn) as [_ Hn2].
    pose proof (Z.log2_spec (Z.pos d) ltac:(lia)) as [Hd1 _].
    pose proof (Z.log2_nonneg n). pose proof (Z.log2_nonneg (Z.pos d)).
    replace (Z.log2 n - Z.log2 (Z.pos d) + 1)
      with (Z.succ (Z.log2 n) - Z.log2 (Z.pos d)) by lia.
    rewrite Qpower_minus by discriminate.
    rewrite <-!(Zpower_Qpower 2) by lia.
    set (P := 2 ^ Z.succ (Z.log2 n)) in *. set (R := 2 ^ Z.log2 (Z.pos d)) in *.
    apply Qlt_shift_div_l; [unfold Qlt; simpl; lia|].
    unfold Qlt. simpl. nia.
  - replace (Z.log2 (Qnum a) - Z.log2 (Z.pos (Qden a)) - 1 + 1)
      with (Z.log2 (Qnum a) - Z.log2 (Z.pos (Qden a))) by lia.
    apply Qnot_le_lt. intros H%Qle_bool_iff. congruence.
Qed.

(** The relative error of one rounding is at most [2 ^ -53]. *)
Lemma binary64_error (x : Q) :
  (Qabs (binary64 x - x) <= Qabs x * (1 # 9007199254740992))%Q.
Proof.
  unfold binary64. destruct (Qeq_bool x 0) eqn:Hz.
  { apply Qeq_bool_iff in Hz. rewrite Hz. by vm_compute. }
  assert (¬ x == 0)%Q as Hx by (by apply Qeq_bool_neq).
  assert (0 < Qabs x)%Q as Ha.
  { destruct (Qlt_le_dec 0 (Qabs x)) as [|Hle]; [done|].
    exfalso. apply Hx. apply Qabs_Qle_condition in Hle. lra. }
  pose proof (binary_exponent_le _ Ha) as He.
  set (a := Qabs x) in *. set (e := binary_exponent a) in *.
  set (s := Qpower 2 (52 - e)).
  pose proof (round_half_even_error (a * s)) as Hm.
  set (m := inject_Z (round_half_even (a * s))) in *.
  assert (0 < Qpower 2 e)%Q as Hp by (by apply Qpower_0_lt).
  assert (Hs : (s == Qpower 2 52 / Qpower 2 e)%Q)
    by (unfold s; by rewrite Qpower_minus).
  set (p := Qpower 2 e) in *.
  assert (Hu : (0 < (1 # 9007199254740992)
                ∧ Qpower 2 52 * (2 * (1 # 9007199254740992)) == 1)%Q)
    by (by vm_compute).
  revert Hu Hs. generalize (Qpower 2 52) (1 # 9007199254740992)%Q.
  intros T u [Hu HT] Hs.
  assert (0 < T)%Q as HTpos by nra.
  assert (Hr : (m / s - a == (m - a * s) * (p * (2 * u)))%Q).
  { assert (2 * u == / T)%Q as ->.
    { apply (Qmult_inj_l _ _ T); [lra|]. rewrite HT. field. lra. }
    rewrite Hs. field. split; lra. }
  assert (Hbound : (- (a * u) <= m / s - a <= a * u)%Q).
  { rewrite Hr. set (w := (m - a * s)%Q).
    assert (- (1 # 2) <= w <= 1 # 2)%Q as Hw by (unfold w; lra). clearbody w.
    assert (- (p * (1 # 2)) <= w * p <= p * (1 # 2))%Q as Hv by (split; nra).
    rewrite Qmult_assoc. set (v := (w * p)%Q) in *. clearbody v.
    assert (p * u <= a * u)%Q by nra. split; nra. }
  destruct (Qle_bool 0 x) eqn:Hsgn.
  - apply Qle_bool_iff in Hsgn.
    assert (a == x)%Q as Hax by (unfold a; by apply Qabs_pos).
    apply Qabs_Qle_condition. lra.
  - assert (x < 0)%Q as Hneg.
    { apply Qnot_le_lt. intros H. apply Qle_bool_iff in H. congruence. }
    assert (a == - x)%Q as Hax by (unfold a; apply Qabs_neg; lra).
    apply Qabs_Qle_condition. lra.
Qed.

Lemma binary64_near (x B : Q) :
  (- B <= x <= B)%Q →
  (x - B * (1 # 9007199254740992) <= binary64 x
   <= x + B * (1 # 9007199254740992))%Q.
Proof.
  intros Hx. pose proof (binary64_error x) as He.
  assert (Qabs x <= B)%Q as Ha by (by apply Qabs_Qle_condition).
  apply Qabs_Qle_condition in He.
  assert (Qabs x * (1 # 9007199254740992) <= B * (1 # 9007199254740992))%Q by nra.
  lra.
Qed.

Lemma binary64_zero (x : Q) : (x == 0)%Q → binary64 x = 0%Q.
Proof. intros Hx%Qeq_bool_iff. unfold binary64. by rewrite Hx. Qed.

(** The raw score [1 - d / n] of a distance within [0, n]. *)
Lemma raw_confidence_bounds (d n : Z) :
  0 <= d <= n → 0 < n → (0 <= 1 - inject_Z d / inject_Z n <= 1)%Q.
Proof.
  intros [Hd Hdn] Hn.
  assert (0 < inject_Z n)%Q as Hn' by (by rewrite (Zlt_Qlt 0 n) in Hn).
  assert (0 <= inject_Z d / inject_Z n)%Q as H0.
  { apply Qle_shift_div_l; [done|]. rewrite Qmult_0_l. by rewrite (Zle_Qle 0 d) in Hd. }
  assert (inject_Z d / inject_Z n <= 1)%Q as H1.
  { apply Qle_shift_div_r; [done|]. rewrite Qmult_1_l. by rewrite Zle_Qle in Hdn. }
  split; lra.
Qed.

(** The score that binary64 arithmetic computes is within [10 ^ -15] of
    the exact one. *)
Lemma float_confidence_close (d n : Z) (bonus : bool) :
  0 <= d <= n → 0 < n →
  let exact := (1 - inject_Z d / inject_Z n
                + if bonus then 1 # 10 else 0)%Q in
  (exact - (1 # 1000000000000000) <= float_confidence d n bonus
   <= exact + (1 # 1000000000000000))%Q.
Proof.
  intros Hd Hn exact. unfold exact, float_confidence, float_sub, float_add,
    float_literal.
  pose proof (raw_confidence_bounds d n Hd Hn) as Hraw.
  set (q := (inject_Z d / inject_Z n)%Q) in *.
  pose proof (binary64_near q 1 ltac:(lra)) as Hr.
  set (r := binary64 q) in *.
  pose proof (binary64_near (1 - r) 2 ltac:(lra)) as Hc.
  set (c := binary64 (1 - r)) in *.
  destruct bonus; [|lra].
  pose proof (binary64_near (1 # 10) 1 ltac:(lra)) as Ht.
  set (t := binary64 (1 # 10)) in *.
  pose proof (binary64_near (c + t) 2 ltac:(lra)) as Hb.
  lra.
Qed.

(** ** Encoder facts *)

Lemma length_string_app (a b : string) :
  String.length (a +:+ b) = (String.length a + String.length b)%nat.
Proof. induction a as [|c a IH]; simpl; [done|]. by rewrite IH. Qed.

Lemma braille_map_width c :
  String.length (default "000000" (dict_get c braille_map)) = 6%nat.
Proof.
  assert (Hall : Forall (λ p, String.length p.2 = 6%nat) braille_map)
    by (repeat constructor).
  induction Hall as [|[k v] d Hv _ IH]; simpl; [done|].
  case_decide; [done|apply IH].
Qed.

(** Every character encodes to six cells: [len (code) = 6 * len (word)]. *)
Lemma len_word_to_braille w : len (word_to_braille w) = 6 * len w.
Proof.
  unfold len. induction w as [|c w IH]; [done|].
  cbn [word_to_braille]. rewrite length_string_app, braille_map_width.
  cbn [String.length]. lia.
Qed.

Lemma lower_char_idemp c : lower_char (lower_char c) = lower_char c.
Proof. destruct c as [[] [] [] [] [] [] [] []]; reflexivity. Qed.

Lemma lower_idemp s : lower (lower s) = lower s.
Proof. induction s as [|c s IH]; simpl; [done|]. by rewrite lower_char_idemp, IH. Qed.

Lemma lower_nonempty s : s ≠ EmptyString → lower s ≠ EmptyString.
Proof. by destruct s. Qed.

Lemma len_nonneg s : 0 <= len s.
Proof. unfold len. lia. Qed.

Lemma len_pos s : s ≠ EmptyString → 0 < len s.
Proof. destruct s; [done|]. unfold len. simpl. lia. Qed.

Lemma load_dictionary_words file w :
  w ∈ load_dictionary file → w ≠ EmptyString ∧ lower w = w.
Proof.
  destruct file as [lines|]; simpl.
  - intros (line & -> & [Hne _]%list_elem_of_filter)%list_elem_of_fmap.
    split; [by apply lower_nonempty|apply lower_idemp].
  - unfold default_words. rewrite !elem_of_cons, elem_of_nil.
    intros H. by repeat (destruct H as [->|H]; [done|]).
Qed.

(** ** The index built by [_preprocess_dictionary] *)

Lemma dict_get_set_eq {V} (k : string) (v : V) d : dict_get k (dict_set k v d) = Some v.
Proof.
  induction d as [|[k' v'] d IH]; simpl.
  - by rewrite decide_True.
  - destruct (decide (k = k')) as [->|Hne]; simpl.
    + by rewrite decide_True.
    + by rewrite decide_False.
Qed.

Lemma dict_get_set_ne {V} (k k' : string) (v : V) d :
  k ≠ k' → dict_get k' (dict_set k v d) = dict_get k' d.
Proof.
  intros Hne. induction d as [|[k0 v0] d IH]; simpl.
  - by rewrite decide_False.
  - destruct (decide (k = k0)) as [->|Hne0]; simpl.
    + by rewrite !decide_False.
    + by rewrite IH.
Qed.

Lemma dict_set_elem_of {V} (k k' : string) (v v' : V) d :
  (k', v') ∈ dict_set k v d → (k', v') = (k, v) ∨ (k', v') ∈ d.
Proof.
  induction d as [|[k0 v0] d IH]; simpl.
  - rewrite list_elem_of_singleton. auto.
  - destruct (decide (k = k0)) as [->|Hne0]; rewrite !elem_of_cons.
    + intros [?|?]; auto.
    + intros [?|?]; [auto|]. destruct IH as [?|?]; auto.
Qed.

Lemma dict_get_elem_of {V} (k : string) (v : V) d :
  dict_get k d = Some v → (k, v) ∈ d.
Proof.
  induction d as [|[k0 v0] d IH]; simpl; [done|].
  destruct (decide (k = k0)) as [->|Hne0].
  - intros [= ->]. apply elem_of_cons. by left.
  - intros Hd. apply elem_of_cons. right. by apply IH.
Qed.

(** The bucket that [preprocess_word] extends, and the others. *)
Lemma bucket_preprocess_word self word L :
  bucket (preprocess_word self word) L =
  if decide (L = len (word_to_braille word))
  then bucket self L ++ [word] else bucket self L.
Proof.
  unfold preprocess_word, bucket, defaultdict_getitem.
  destruct (words_by_length self !! len (word_to_braille word)) as [b|] eqn:Hb; simpl.
  - case_decide as HL.
    + subst L. by rewrite lookup_insert_eq, Hb.
    + by rewrite lookup_insert_ne.
  - case_decide as HL.
    + subst L. by rewrite lookup_insert_eq, Hb.
    + by rewrite !lookup_insert_ne.
Qed.

Lemma dictionary_preprocess_word self word :
  dictionary (preprocess_word self word) = dictionary self.
Proof. unfold preprocess_word. by destruct (defaultdict_getitem _ _). Qed.

Lemma user_corrections_preprocess_word self word :
  user_corrections (preprocess_word self word) = user_corrections self.
Proof. unfold preprocess_word. by destruct (defaultdict_getitem _ _). Qed.

Lemma braille_words_preprocess_word self word :
  braille_words (preprocess_word self word) =
  dict_set word (word_to_braille word) (braille_words self).
Proof. unfold preprocess_word. by destruct (defaultdict_getitem _ _). Qed.

Lemma indexed_upto_step seen self word :
  indexed_upto seen self → indexed_upto (seen ++ [word]) (preprocess_word self word).
Proof.
  intros [Hcode Hitems Hbucket Hin].
  assert (Hold : ∀ w, w ∈ seen → w ∈ seen ++ [word])
    by (intros; apply elem_of_app; by left).
  assert (Hnew : word ∈ seen ++ [word])
    by (apply elem_of_app; right; apply list_elem_of_here).
  split.
  - intros w Hw. rewrite braille_words_preprocess_word.
    destruct (decide (word = w)) as [->|Hne]; [apply dict_get_set_eq|].
    rewrite dict_get_set_ne by done. apply Hcode.
    apply elem_of_app in Hw as [Hw|Hw%list_elem_of_singleton]; [done|congruence].
  - intros w c. rewrite braille_words_preprocess_word.
    intros [[= -> ->]|Hwc]%dict_set_elem_of; [done|].
    destruct (Hitems _ _ Hwc). auto.
  - intros L w. rewrite bucket_preprocess_word. case_decide as HL.
    + intros [Hw|Hw%list_elem_of_singleton]%elem_of_app.
      * destruct (Hbucket _ _ Hw). auto.
      * by subst.
    + intros Hw. destruct (Hbucket _ _ Hw). auto.
  - intros w Hw. rewrite bucket_preprocess_word.
    apply elem_of_app in Hw as [Hw|Hw%list_elem_of_singleton].
    + case_decide; [apply elem_of_app; left|]; by apply Hin.
    + subst w. rewrite decide_True by done.
      apply elem_of_app; right; apply list_elem_of_here.
Qed.

Lemma indexed_upto_loop words seen self :
  indexed_upto seen self →
  indexed_upto (seen ++ words) (fold_left preprocess_word words self) ∧
  dictionary (fold_left preprocess_word words self) = dictionary self ∧
  user_corrections (fold_left preprocess_word words self) = user_corrections self.
Proof.
  revert seen self. induction words as [|w words IH]; intros seen self Hinv; simpl.
  { by rewrite app_nil_r. }
  destruct (IH (seen ++ [w]) _ (indexed_upto_step _ _ w Hinv)) as (H1 & H2 & H3).
  rewrite <-(assoc_L (++)) in H1. simpl in H1.
  by rewrite H2, H3, dictionary_preprocess_word, user_corrections_preprocess_word.
Qed.

Lemma indexed_upto_start words mf uc : indexed_upto [] (mkEngine words mf uc [] ∅).
Proof.
  split; simpl.
  - by intros w ?%elem_of_nil.
  - by intros w c ?%elem_of_nil.
  - intros L w. unfold bucket. simpl. rewrite lookup_empty. by intros ?%elem_of_nil.
  - by intros w ?%elem_of_nil.
Qed.

Lemma dictionary_init file mf stored :
  dictionary (init file mf stored) = load_dictionary file.
Proof.
  unfold init, _preprocess_dictionary. simpl.
  by destruct (indexed_upto_loop (load_dictionary file) []
    (mkEngine (load_dictionary file) mf (load_memory stored) [] ∅)) as (_ & -> & _);
    [apply indexed_upto_start|].
Qed.

Lemma indexed_init file mf stored : indexed (init file mf stored).
Proof.
  pose proof (dictionary_init file mf stored) as Hd.
  unfold init, _preprocess_dictionary in *. simpl in *.
  destruct (indexed_upto_loop (load_dictionary file) []
    (mkEngine (load_dictionary file) mf (load_memory stored) [] ∅))
    as ([Hcode Hitems Hbucket Hin] & _ & _).
  { apply indexed_upto_start. }
  simpl in *. split; rewrite Hd; try done.
  intros w Hw. by apply load_dictionary_words in Hw.
Qed.

Lemma indexed_remember_choice typed corrected self :
  indexed self → indexed (remember_choice typed corrected self).
Proof. intros [? ? ? ? ?]. by split. Qed.

Lemma reachable_indexed self : reachable self → indexed self.
Proof.
  induction 1; [apply indexed_init|by apply indexed_remember_choice].
Qed.

(** ** The search on an indexed engine: no exception, no write *)

Lemma score_word_run self ib md acc w :
  indexed self → w ∈ dictionary self →
  score_word ib md acc w self = (Ok (acc ++ candidate self ib md w), self).
Proof.
  intros Hidx Hw. unfold score_word, candidate, bind, get_self, dict_getitem.
  rewrite (indexed_code _ Hidx w Hw). unfold ret at 1.
  destruct (_ <=? _); [|by rewrite app_nil_r].
  unfold true_div.
  pose proof (len_nonneg ib).
  destruct (indexed_words _ Hidx w Hw) as [Hne _].
  pose proof (len_pos w Hne). pose proof (len_word_to_braille w).
  destruct (Z.eqb_spec (len ib + len (word_to_braille w)) 0); [lia|done].
Qed.

Lemma score_bucket_run self ib md acc b :
  indexed self → (∀ w, w ∈ b → w ∈ dictionary self) →
  foldM (score_word ib md) acc b self =
  (Ok (acc ++ flat_map (candidate self ib md) b), self).
Proof.
  intros Hidx. revert acc. induction b as [|w b IH]; intros acc Hb; simpl.
  { by rewrite app_nil_r. }
  unfold bind. rewrite score_word_run by (done || set_solver).
  rewrite IH by set_solver. by rewrite (assoc_L (++)).
Qed.

Lemma scan_length_run self ib md acc L :
  indexed self →
  scan_length ib md acc L self =
  (Ok (acc ++ flat_map (candidate self ib md) (bucket self L)), self).
Proof.
  intros Hidx. unfold scan_length, bind, get_self.
  pose proof (indexed_bucket _ Hidx L) as Hb. unfold bucket in *.
  case_bool_decide as Hin.
  - destruct Hin as [b HL]. rewrite HL in *. simpl in *.
    rewrite (words_by_length_getitem_present _ _ _ HL).
    apply score_bucket_run; [done|]. intros w Hw. by apply Hb.
  - apply eq_None_not_Some in Hin. rewrite Hin. simpl. by rewrite app_nil_r.
Qed.

Lemma scan_lengths_run self ib md acc Ls :
  indexed self →
  foldM (scan_length ib md) acc Ls self =
  (Ok (acc ++ flat_map (λ L, flat_map (candidate self ib md) (bucket self L)) Ls),
   self).
Proof.
  intros Hidx. revert acc. induction Ls as [|L Ls IH]; intros acc; simpl.
  { by rewrite app_nil_r. }
  unfold bind. rewrite scan_length_run by done.
  rewrite IH. by rewrite (assoc_L (++)).
Qed.

Lemma search_candidates_run self ib md :
  indexed self → search_candidates ib md self = (Ok (candidates self ib md), self).
Proof. intros Hidx. unfold search_candidates. by rewrite scan_lengths_run. Qed.

(** [suggest_words] on an indexed engine, one [return] at a time. *)
Lemma suggest_words_exit_run self w k md :
  indexed self →
  suggest_words_exit w k md self =
  (Ok match learned_hit self w with
      | Some learned_word => (LearnedHit, [(learned_word, 0, 1%Q)])
      | None =>
          let ib := word_to_braille (lower w) in
          match py_sort rank_lt (candidates self ib (budget_of w md)) with
          | [] => (Fallback, fallback self ib)
          | x :: rest => (Ranked, slice_to (x :: rest) k)
          end
      end, self).
Proof.
  intros Hidx. unfold suggest_words_exit, learned_hit, bind, get_self.
  destruct (match user_corrections self !! lower w with
            | Some _ => _ | None => _ end); [done|].
  fold (budget_of w md). rewrite search_candidates_run by done.
  by destruct (py_sort rank_lt _).
Qed.

Lemma suggest_words_run self w k md :
  indexed self →
  suggest_words w k md self =
  (Ok match learned_hit self w with
      | Some learned_word => [(learned_word, 0, 1%Q)]
      | None =>
          let ib := word_to_braille (lower w) in
          match py_sort rank_lt (candidates self ib (budget_of w md)) with
          | [] => fallback self ib
          | x :: rest => slice_to (x :: rest) k
          end
      end, self).
Proof.
  intros Hidx. unfold suggest_words, bind.
  rewrite suggest_words_exit_run by done. unfold ret.
  destruct (learned_hit self w); [done|]. simpl. by destruct (py_sort rank_lt _).
Qed.

(** ** Distances and confidences of kept candidates *)

Lemma levenshtein_optimized_None a b :
  levenshtein_optimized a b None = Z.of_nat (distance a b).
Proof.
  pose proof (levenshtein_optimized_spec a b None) as Hs. cbv zeta in Hs.
  destruct Hs as [Hs _]. destruct Hs as [H|(d & Hd & _)]; [done|discriminate].
Qed.

Lemma levenshtein_optimized_kept a b md :
  levenshtein_optimized a b (Some md) <= md →
  levenshtein_optimized a b (Some md) = Z.of_nat (distance a b).
Proof.
  pose proof (levenshtein_optimized_spec a b (Some md)) as Hs. cbv zeta in Hs.
  destruct Hs as [Hs _]. destruct Hs as [H|(d & Hd & _ & H)]; [done|].
  injection Hd as <-. lia.
Qed.

Lemma levenshtein_optimized_within a b md :
  Z.of_nat (distance a b) <= md →
  levenshtein_optimized a b (Some md) = Z.of_nat (distance a b).
Proof.
  intros Hle.
  pose proof (levenshtein_optimized_spec a b (Some md)) as Hs. cbv zeta in Hs.
  destruct Hs as [_ Hs]. by apply (Hs md).
Qed.

Lemma distance_le_len a b : Z.of_nat (distance a b) <= len a + len b.
Proof.
  pose proof (lev_le_sum (chars a) (chars b)) as H.
  rewrite !length_chars in H. unfold distance, len. lia.
Qed.

Lemma distance_refl a : distance a a = 0%nat.
Proof. apply lev_refl. Qed.

Lemma distance_zero a b : distance a b = 0%nat → a = b.
Proof. intros H. by apply chars_inj, lev_zero. Qed.

Lemma candidate_elem_of self ib md w x :
  x ∈ candidate self ib md w →
  let d := Z.of_nat (distance ib (word_to_braille w)) in
  levenshtein_optimized ib (word_to_braille w) (Some md) = d ∧ d <= md ∧
  x = (w, d,
       round3 (float_confidence d (len ib + len (word_to_braille w))
                 (is_learned_value self w))).
Proof.
  unfold candidate. destruct (Z.leb_spec
    (levenshtein_optimized ib (word_to_braille w) (Some md)) md) as [Hle|];
    [|by intros ?%elem_of_nil].
  intros ->%list_elem_of_singleton. simpl.
  pose proof (levenshtein_optimized_kept _ _ _ Hle) as Heq.
  rewrite Heq in *. done.
Qed.

Lemma candidate_within self ib md w :
  Z.of_nat (distance ib (word_to_braille w)) <= md →
  ∃ c, candidate self ib md w = [(w, Z.of_nat (distance ib (word_to_braille w)), c)].
Proof.
  intros Hle. unfold candidate. rewrite levenshtein_optimized_within by done.
  destruct (Z.leb_spec (Z.of_nat (distance ib (word_to_braille w))) md); [|lia].
  eauto.
Qed.

Lemma candidates_elem_of self ib md x :
  indexed self → x ∈ candidates self ib md →
  ∃ w, w ∈ dictionary self ∧ x ∈ candidate self ib md w.
Proof.
  intros Hidx. unfold candidates. rewrite list_elem_of_In, in_flat_map.
  intros (L & _ & Hx). apply in_flat_map in Hx as (w & Hw & Hx).
  apply list_elem_of_In in Hw, Hx. exists w. split; [|done].
  by apply (indexed_bucket _ Hidx L).
Qed.

Lemma candidates_same_length self ib md w x :
  indexed self → w ∈ dictionary self → len (word_to_braille w) = len ib →
  x ∈ candidate self ib md w → x ∈ candidates self ib md.
Proof.
  intros Hidx Hw Hlen Hx. unfold candidates, search_lengths.
  rewrite list_elem_of_In. apply in_flat_map. exists (len ib). split; [by left|].
  apply in_flat_map. exists w. rewrite <-!list_elem_of_In. split; [|done].
  rewrite <-Hlen. by apply indexed_in_bucket.
Qed.

(** Confidence of a kept candidate: within [0, 1] without the bonus,
    within [0.1, 1.1] with it. *)
Lemma candidate_confidence self ib md w x :
  w ≠ EmptyString → x ∈ candidate self ib md w →
  (0 <= sg_confidence x <= 11 # 10)%Q ∧
  (is_learned_value self w = false → (sg_confidence x <= 1)%Q).
Proof.
  intros Hne Hx. apply candidate_elem_of in Hx as (_ & _ & ->).
  unfold sg_confidence. simpl.
  pose proof (len_nonneg ib). pose proof (len_pos _ Hne).
  pose proof (len_word_to_braille w).
  pose proof (distance_le_len ib (word_to_braille w)).
  destruct (raw_confidence_bounds (Z.of_nat (distance ib (word_to_braille w)))
    (len ib + len (word_to_braille w))) as [Hlo Hhi]; [lia..|].
  pose proof (float_confidence_close (Z.of_nat (distance ib (word_to_braille w)))
    (len ib + len (word_to_braille w)) (is_learned_value self w)
    ltac:(lia) ltac:(lia)) as Hclose. cbv zeta in Hclose.
  set (c := float_confidence _ _ _) in *. clearbody c.
  destruct (round3_near 0 c) as [R0 _].
  destruct (round3_near 1000 c) as [_ R1].
  destruct (round3_near 1100 c) as [_ R11].
  assert (0 # 1000 == 0)%Q as E0 by done.
  assert (1000 # 1000 == 1)%Q as E1 by done.
  assert (1100 # 1000 == 11 # 10)%Q as E11 by done.
  destruct (is_learned_value self w).
  - split; [split; [rewrite <-E0; apply R0|rewrite <-E11; apply R11]; lra|done].
  - split; [split; [rewrite <-E0; apply R0; lra|]|intros _; rewrite <-E1; apply R1; lra].
    apply (Qle_trans _ 1); [|done]. rewrite <-E1. apply R1. lra.
Qed.

(* ===================================================================== *)
(** * The distance engine against its contract *)
(* ===================================================================== *)

(** C3. With no budget, [levenshtein_optimized] returns the edit distance
    of its arguments: the least number of single-character insertions,
    deletions and substitutions that turn [a] into [b]. *)
Theorem levenshtein_unbounded_exact (a b : string) :
  ∃ d : nat,
    levenshtein_optimized a b None = Z.of_nat d ∧
    is_edit_distance (chars a) (chars b) d.
Proof.
  exists (distance a b). split; [apply levenshtein_optimized_None|].
  apply lev_is_edit_distance.
Qed.

Lemma distance_xyz_car :
  is_edit_distance (chars (word_to_braille "xyz")) (chars (word_to_braille "car")) 8.
Proof.
  assert (distance (word_to_braille "xyz") (word_to_braille "car") = 8%nat) as <-;
    [|apply lev_is_edit_distance].
  apply Nat2Z.inj. rewrite <-levenshtein_optimized_None. by vm_compute.
Qed.

Lemma is_edit_distance_computed a b (D : nat) :
  levenshtein_optimized a b None = Z.of_nat D →
  is_edit_distance (chars a) (chars b) D.
Proof.
  rewrite levenshtein_optimized_None. intros <-%Nat2Z.inj.
  apply lev_is_edit_distance.
Qed.

(** C2, as stated, fails: for the codes of "xyz" and "car" and the budget
    6 the true distance is 8, no row of the matrix has a minimum above 6,
    and the function returns 8 instead of the sentinel 7. *)
Lemma budget_sentinel_not_returned :
  let a := word_to_braille "xyz" in
  let b := word_to_braille "car" in
  is_edit_distance (chars a) (chars b) 8 ∧
  6 < Z.of_nat 8 ∧
  levenshtein_optimized a b (Some 6) = 8 ∧
  levenshtein_optimized a b (Some 6) ≠ 6 + 1.
Proof.
  intros a b. split; [apply distance_xyz_car|]. split; [lia|]. by vm_compute.
Qed.

(** C2, amended. When the true edit distance [D] exceeds the budget [d],
    the returned value exceeds [d] as well: it is the sentinel [d + 1]
    when the length check or a row minimum stops the computation (the
    lengths differ by more than [d], or some completed row of the matrix
    has its minimum above [d]; neither test is made for [d = 0]), and
    the true distance [D] otherwise. *)
Theorem budget_exceeded_result (a b : string) (d : Z) (D : nat) :
  0 <= d →
  is_edit_distance (chars a) (chars b) D →
  d < Z.of_nat D →
  d < levenshtein_optimized a b (Some d) ∧
  (length_check_stops a b d || row_minimum_stops a b d = true →
   levenshtein_optimized a b (Some d) = d + 1) ∧
  (length_check_stops a b d || row_minimum_stops a b d = false →
   levenshtein_optimized a b (Some d) = Z.of_nat D) ∧
  (length_check_stops a b d = true ↔ d ≠ 0 ∧ d < Z.abs (len a - len b)).
Proof.
  intros Hd HD Hlt.
  assert (D = distance a b) as ->
    by (eapply is_edit_distance_unique; [done|apply lev_is_edit_distance]).
  rewrite levenshtein_optimized_budget.
  split; [destruct (_ || _); lia|].
  split; [by intros ->|]. split; [by intros ->|].
  unfold length_check_stops, exceeds_or_inf.
  destruct (Z.eqb_spec d 0); [intuition congruence|].
  rewrite Z.gtb_ltb, Z.ltb_lt. tauto.
Qed.

(** Three runs: the length check stops ("abcd" against the empty string,
    budget 2: 3 for a distance of 4); the third row stops (six 0 against
    six 1, budget 2: 3 for a distance of 6); nothing stops (the codes of
    "xyz" and "car", budget 6: the distance 8 itself). *)
Lemma budget_exceeded_result_witness :
  (length_check_stops "abcd" "" 2 = true ∧
   levenshtein_optimized "abcd" "" (Some 2) = 2 + 1) ∧
  (length_check_stops "000000" "111111" 2 = false ∧
   row_minimum_stops "000000" "111111" 2 = true ∧
   levenshtein_optimized "000000" "111111" (Some 2) = 2 + 1) ∧
  (length_check_stops (word_to_braille "xyz") (word_to_braille "car") 6
     || row_minimum_stops (word_to_braille "xyz") (word_to_braille "car") 6 = false ∧
   levenshtein_optimized (word_to_braille "xyz") (word_to_braille "car") (Some 6)
     = Z.of_nat 8).
Proof.
  split; [|split].
  - split; [reflexivity|].
    apply (budget_exceeded_result "abcd" "" 2 4); [lia| |lia|reflexivity].
    by apply is_edit_distance_computed.
  - split; [reflexivity|]. split; [reflexivity|].
    apply (budget_exceeded_result "000000" "111111" 2 6); [lia| |lia|reflexivity].
    by apply is_edit_distance_computed.
  - split; [by vm_compute|].
    apply (budget_exceeded_result (word_to_braille "xyz") (word_to_braille "car") 6 8);
      [lia|apply distance_xyz_car|lia|by vm_compute].
Defined.

(* ===================================================================== *)
(** * The candidate search against its contract *)
(* ===================================================================== *)

(** ** Learned corrections *)

Lemma learned_hit_returns self t corrected k md :
  user_corrections self !! lower t = Some corrected →
  corrected ∈ dictionary self →
  suggest_words_exit t k md self = (Ok (LearnedHit, [(corrected, 0, 1%Q)]), self).
Proof.
  intros Hl Hd. unfold suggest_words_exit, bind, get_self.
  rewrite Hl. by rewrite bool_decide_true.
Qed.

Lemma suggest_words_of_exit self t k md ex l self' :
  suggest_words_exit t k md self = (Ok (ex, l), self') →
  suggest_words t k md self = (Ok l, self').
Proof. intros H. unfold suggest_words, bind. by rewrite H. Qed.

(** C4. A typed word whose lowercase form has a learned correction that
    is in the dictionary is answered by the first [return] alone, with the
    single suggestion [(corrected, 0, 1.0)]; in particular this is what
    [suggest_words ("xyz")] returns after [remember_choice ("xyz", "cat")]
    on any engine whose dictionary has "cat". *)
Theorem learned_short_circuit self t corrected k md :
  user_corrections self !! lower t = Some corrected →
  corrected ∈ dictionary self →
  suggest_words_exit t k md self = (Ok (LearnedHit, [(corrected, 0, 1%Q)]), self) ∧
  suggest_words t k md self = (Ok [(corrected, 0, 1%Q)], self) ∧
  (∀ other, "cat" ∈ dictionary other →
     suggest_words "xyz" k md (remember_choice "xyz" "cat" other) =
     (Ok [("cat", 0, 1%Q)], remember_choice "xyz" "cat" other)).
Proof.
  intros Hl Hd. split; [by apply learned_hit_returns|]. split.
  - by apply (suggest_words_of_exit _ _ _ _ LearnedHit), learned_hit_returns.
  - intros other Hcat.
    apply (suggest_words_of_exit _ _ _ _ LearnedHit), learned_hit_returns; [|done].
    simpl. apply lookup_insert_eq.
Qed.

Lemma learned_short_circuit_witness :
  suggest_words "XYZ" 3 None (remember_choice "xyz" "cat" default_engine) =
  (Ok [("cat", 0, 1%Q)], remember_choice "xyz" "cat" default_engine).
Proof.
  refine (proj1 (proj2 (learned_short_circuit
    (remember_choice "xyz" "cat" default_engine) "XYZ" "cat" 3 None _ _))).
  - apply lookup_insert_eq.
  - vm_compute. apply list_elem_of_here.
Defined.

(** ** Frame *)

(** C10. [suggest_words] writes nothing: whatever it returns or raises,
    the engine after the call is the engine before it, so the dictionary,
    the code cache, the buckets with their set of keys and the learned
    corrections are unchanged; and scanning a code length that has no
    bucket leaves the [defaultdict] without one. *)
Theorem suggest_words_frame self w k md :
  let self' := (suggest_words w k md self).2 in
  self' = self ∧
  dictionary self' = dictionary self ∧
  braille_words self' = braille_words self ∧
  words_by_length self' = words_by_length self ∧
  dom (words_by_length self') = dom (words_by_length self) ∧
  user_corrections self' = user_corrections self ∧
  (∀ ib d acc L,
     words_by_length self !! L = None →
     scan_length ib d acc L self = (Ok acc, self)).
Proof.
  intros self'.
  assert (self' = self) as -> by apply read_only_suggest_words.
  repeat split; try done.
  intros ib d acc L HL. unfold scan_length, bind, get_self.
  rewrite bool_decide_false; [done|]. rewrite HL. by intros [? ?].
Qed.

Lemma suggest_words_frame_witness :
  (suggest_words "zzz" 5 None default_engine).2 = default_engine ∧
  scan_length (word_to_braille "zzz") 6 [] 12 default_engine = (Ok [], default_engine).
Proof.
  split.
  - apply (suggest_words_frame default_engine "zzz" 5 None).
  - apply (suggest_words_frame default_engine "zzz" 5 None). reflexivity.
Defined.

(** ** Non-positive [max_suggestions] *)

Lemma suggest_words_exit_ranked self w k md kept :
  learned_hit self w = None →
  (search_candidates (word_to_braille (lower w)) (budget_of w md) self).1 = Ok kept →
  kept ≠ [] →
  suggest_words_exit w k md self =
  (Ok (Ranked, slice_to (py_sort rank_lt kept) k), self).
Proof.
  intros Hl Hk Hne. unfold suggest_words_exit, bind, get_self.
  unfold learned_hit in Hl. rewrite Hl. fold (budget_of w md).
  pose proof (read_only_search_candidates (word_to_braille (lower w))
    (budget_of w md) self) as Hro.
  destruct (search_candidates _ _ self) as [r self']. simpl in *. subst.
  destruct (py_sort rank_lt kept) eqn:Hs; [|done].
  by apply py_sort_nil_inv in Hs.
Qed.

(** C8, as stated, fails: with [max_suggestions = 0] and the empty input
    no bucket is in reach, the fallback is taken and one suggestion comes
    back. *)
Lemma zero_k_takes_fallback :
  suggest_words_exit "" 0 None default_engine =
    (Ok (Fallback, [("cat", 18, 0%Q)]), default_engine) ∧
  suggest_words "" 0 None default_engine ≠ (Ok [], default_engine).
Proof. split; [by vm_compute|]. vm_compute. discriminate. Qed.

(** C8, amended. For [k <= 0], when no learned correction answers and at
    least one candidate is kept within the budget, the fallback is not
    invoked and the result is [suggestions[:k]]: the empty list when
    [k = 0], the ranked list without its last [-k] entries when [k < 0]. *)
Theorem nonpositive_k_ranked self w k md kept :
  k <= 0 →
  learned_hit self w = None →
  (search_candidates (word_to_braille (lower w)) (budget_of w md) self).1 = Ok kept →
  kept ≠ [] →
  suggest_words_exit w k md self =
    (Ok (Ranked,
         if k =? 0 then []
         else take (length kept - Z.to_nat (- k)) (py_sort rank_lt kept)), self) ∧
  (k = 0 → suggest_words w k md self = (Ok [], self)).
Proof.
  intros Hk Hl Hs Hne.
  rewrite (suggest_words_exit_ranked _ _ _ _ kept) by done.
  assert (Hlen : length (py_sort rank_lt kept) = length kept)
    by (by rewrite py_sort_perm).
  split.
  - unfold slice_to. destruct (Z.eqb_spec k 0) as [->|Hk0]; [done|].
    destruct (Z.leb_spec 0 k); [lia|by rewrite Hlen].
  - intros ->. apply (suggest_words_of_exit _ _ _ _ Ranked).
    by rewrite (suggest_words_exit_ranked _ _ _ _ kept).
Qed.

Lemma nonpositive_k_ranked_witness :
  suggest_words_exit "cat" 0 None default_engine =
    (Ok (Ranked, []), default_engine) ∧
  suggest_words "cat" 0 None default_engine = (Ok [], default_engine).
Proof.
  pose proof (nonpositive_k_ranked default_engine "cat" 0 None
    (candidates default_engine (word_to_braille "cat") 6)
    ltac:(lia) ltac:(reflexivity) ltac:(vm_compute; reflexivity)
    ltac:(vm_compute; discriminate)) as [H1 H2].
  split; [exact H1|exact (H2 eq_refl)].
Defined.

(** ** The fallback *)

Lemma slice_to_one {A} (x : A) (l : list A) : slice_to (x :: l) 1 = [x].
Proof. done. Qed.

Lemma fallback_elem_of self ib x :
  x ∈ fallback self ib →
  ∃ w c, (w, c) ∈ braille_words self ∧ x = (w, Z.of_nat (distance ib c), 0%Q).
Proof.
  unfold fallback. destruct (slice_to_take (py_sort distance_lt
    ((λ '(word, braille), (word, levenshtein_optimized ib braille None, 0%Q))
       <$> braille_words self)) 1) as [n ->].
  intros Hx%(subseteq_take n)%py_sort_elem_of.
  apply list_elem_of_fmap in Hx as ([w c] & -> & Hwc).
  exists w, c. by rewrite levenshtein_optimized_None.
Qed.

(** On a non-empty dictionary the fallback is one suggestion: a
    dictionary word at the least unbounded distance, with confidence 0. *)
Lemma fallback_spec self ib :
  indexed self → dictionary self ≠ [] →
  ∃ w, fallback self ib = [(w, Z.of_nat (distance ib (word_to_braille w)), 0%Q)] ∧
       w ∈ dictionary self ∧
       ∀ w', w' ∈ dictionary self →
         (distance ib (word_to_braille w) ≤ distance ib (word_to_braille w'))%nat.
Proof.
  intros Hidx Hne.
  set (items := (λ '(word, braille),
    (word, levenshtein_optimized ib braille None, 0%Q)) <$> braille_words self).
  assert (Hitem : ∀ w', w' ∈ dictionary self →
    (w', Z.of_nat (distance ib (word_to_braille w')), 0%Q) ∈ items).
  { intros w' Hw'. apply list_elem_of_fmap. exists (w', word_to_braille w').
    split; [by rewrite levenshtein_optimized_None|].
    by apply dict_get_elem_of, indexed_code. }
  destruct (py_sort distance_lt items) as [|x rest] eqn:Hs.
  { apply py_sort_nil_inv in Hs. destruct (dictionary self) as [|w0 ws]; [done|].
    specialize (Hitem w0 ltac:(left)). rewrite Hs in Hitem.
    by apply elem_of_nil in Hitem. }
  assert (Hx : x ∈ items) by (apply (py_sort_elem_of distance_lt); rewrite Hs; left).
  apply list_elem_of_fmap in Hx as ([w c] & -> & Hwc).
  destruct (indexed_items _ Hidx _ _ Hwc) as [Hw ->].
  exists w. unfold fallback. fold items. rewrite Hs, slice_to_one.
  rewrite levenshtein_optimized_None. split; [done|]. split; [done|].
  intros w' Hw'.
  pose proof (py_sort_head_least distance_lt distance_lt_asym
    distance_not_after_trans _ _ _ Hs _ (Hitem w' Hw')) as Hle.
  apply distance_not_after in Hle. unfold sg_distance in Hle. simpl in Hle.
  rewrite levenshtein_optimized_None in Hle. lia.
Qed.

(** C5. On a non-empty dictionary [suggest_words] returns, for every
    input word; with [max_suggestions >= 1] the list it returns is not
    empty; and when no candidate is kept within the budget it leaves by
    the fallback with exactly one suggestion: a dictionary word whose
    unbounded distance to the input is the least, with confidence 0.0. *)
Theorem fallback_never_empty self w k md :
  reachable self → dictionary self ≠ [] →
  ∃ l, suggest_words w k md self = (Ok l, self) ∧
       (1 <= k → l ≠ []) ∧
       (learned_hit self w = None →
        (search_candidates (word_to_braille (lower w)) (budget_of w md) self).1
          = Ok [] →
        ∃ best,
          suggest_words_exit w k md self =
            (Ok (Fallback, [(best,
               Z.of_nat (distance (word_to_braille (lower w)) (word_to_braille best)),
               0%Q)]), self) ∧
          l = [(best,
               Z.of_nat (distance (word_to_braille (lower w)) (word_to_braille best)),
               0%Q)] ∧
          best ∈ dictionary self ∧
          ∀ w', w' ∈ dictionary self →
            (distance (word_to_braille (lower w)) (word_to_braille best)
             ≤ distance (word_to_braille (lower w)) (word_to_braille w'))%nat).
Proof.
  intros Hidx%reachable_indexed Hne.
  destruct (fallback_spec self (word_to_braille (lower w)) Hidx Hne)
    as (best & Hfb & Hbest & Hmin).
  rewrite suggest_words_run, suggest_words_exit_run, search_candidates_run by done.
  cbv zeta. eexists. split; [done|]. split.
  - intros Hk. destruct (learned_hit self w); [done|].
    destruct (py_sort rank_lt _) as [|x rest]; [by rewrite Hfb|].
    by destruct (slice_to_cons x rest k Hk) as [rest' ->].
  - intros -> [= ->]. simpl. rewrite Hfb. eauto.
Qed.

Lemma fallback_never_empty_witness :
  ∃ l best,
    suggest_words "" 1 None default_engine = (Ok l, default_engine) ∧
    l ≠ [] ∧
    l = [(best, Z.of_nat (distance (word_to_braille "") (word_to_braille best)), 0%Q)] ∧
    best ∈ dictionary default_engine.
Proof.
  destruct (fallback_never_empty default_engine "" 1 None
    ltac:(apply reachable_init) ltac:(vm_compute; discriminate))
    as (l & Hl & Hne & Hfb).
  destruct (Hfb ltac:(reflexivity) ltac:(vm_compute; reflexivity))
    as (best & _ & Hbest & Hin & _).
  exists l, best. split; [exact Hl|]. split; [apply Hne; lia|]. split; assumption.
Defined.

(** ** Exact matches *)

Lemma budget_of_nonneg w md : (∀ d, md = Some d → 0 <= d) → 0 <= budget_of w md.
Proof.
  intros Hmd. unfold budget_of, adaptive_max_distance.
  destruct md as [d|]; [by apply Hmd|]. repeat destruct (_ <=? _); lia.
Qed.

Lemma zero_distance_confidence (n : Z) (bonus : bool) :
  (round3 (float_confidence 0 n bonus) == if bonus then 11 # 10 else 1)%Q.
Proof.
  unfold float_confidence.
  rewrite (binary64_zero (inject_Z 0 / inject_Z n))
    by (unfold Qdiv; apply Qmult_0_l).
  by destruct bonus.
Qed.

(** C1, as stated, fails: once "cat" has been remembered as the
    correction of some other word, looking up "cat" itself ranks it first
    with distance 0 but confidence 1.1. *)
Lemma exact_match_confidence_not_one :
  let self := remember_choice "xyz" "cat" default_engine in
  "cat" ∈ dictionary self ∧
  user_corrections self !! "cat" = None ∧
  ∃ x rest,
    suggest_words "cat" 5 None self = (Ok (x :: rest), self) ∧
    sg_word x = "cat" ∧ sg_distance x = 0 ∧
    ¬ (sg_confidence x == 1)%Q.
Proof.
  intros self. split; [vm_compute; apply list_elem_of_here|].
  split; [by vm_compute|].
  eexists _, _. split; [vm_compute; reflexivity|]. by vm_compute.
Qed.

(** A second way in which the exact match can miss the first rank: words
    that differ only in unmapped characters share a code, tie on distance
    and confidence, and the stable sort keeps the dictionary order. *)
Example exact_match_same_code_precedes :
  let self := init (Some ["a1"; "a2"]) "memory.json" None in
  (suggest_words "a2" 5 None self).1 =
  Ok [("a1", 0, (1000 # 1000)%Q); ("a2", 0, (1000 # 1000)%Q)].
Proof. by vm_compute. Qed.

(** C1, amended. For a dictionary word [w] that no learned correction
    answers, [suggest_words (w, k)] with [k >= 1] and the default or a
    non-negative budget ranks first a dictionary word with the braille
    code of [w], which is [w] itself when no other dictionary word has
    that code, with distance 0 and confidence 1.0, or 1.1 when the ranked
    word is a value of the learned-correction mapping. *)
Theorem exact_match_first self w k md :
  reachable self →
  w ∈ dictionary self →
  learned_hit self w = None →
  1 <= k →
  (∀ d, md = Some d → 0 <= d) →
  ∃ x rest,
    suggest_words w k md self = (Ok (x :: rest), self) ∧
    sg_distance x = 0 ∧
    sg_word x ∈ dictionary self ∧
    word_to_braille (sg_word x) = word_to_braille w ∧
    (sg_confidence x == if is_learned_value self (sg_word x) then 11 # 10 else 1)%Q ∧
    ((∀ w', w' ∈ dictionary self →
        word_to_braille w' = word_to_braille w → w' = w) →
     sg_word x = w).
Proof.
  intros Hidx%reachable_indexed Hw Hl Hk Hmd.
  destruct (indexed_words _ Hidx w Hw) as [Hne Hlow].
  rewrite suggest_words_run by done. rewrite Hl, Hlow. cbv zeta.
  pose proof (budget_of_nonneg w md Hmd) as HB.
  set (ib := word_to_braille w) in *. set (B := budget_of w md) in *.
  destruct (candidate_within self ib B w) as [c Hc].
  { unfold ib. rewrite distance_refl. lia. }
  assert (Hin : (w, 0, c) ∈ candidates self ib B).
  { apply (candidates_same_length _ _ _ w); [done..|].
    rewrite Hc. unfold ib. rewrite distance_refl. left. }
  destruct (py_sort rank_lt (candidates self ib B)) as [|x rest] eqn:Hs.
  { apply py_sort_nil_inv in Hs. rewrite Hs in Hin. by apply elem_of_nil in Hin. }
  destruct (slice_to_cons x rest k Hk) as [rest' ->]. exists x, rest'.
  split; [done|].
  assert (Hx : x ∈ candidates self ib B)
    by (apply (py_sort_elem_of rank_lt); rewrite Hs; left).
  apply candidates_elem_of in Hx as (w' & Hw' & Hx); [|done].
  apply candidate_elem_of in Hx as (_ & _ & ->).
  pose proof (py_sort_head_least rank_lt rank_lt_asym rank_not_after_trans
    _ _ _ Hs _ Hin) as Hle.
  apply rank_not_after in Hle as [Hle _]. unfold sg_distance in Hle. simpl in Hle.
  assert (Hz : distance ib (word_to_braille w') = 0%nat) by lia.
  unfold sg_distance, sg_word, sg_confidence. simpl. rewrite Hz.
  pose proof (distance_zero _ _ Hz) as Hcode.
  split; [done|]. split; [done|]. split; [done|]. split.
  - apply zero_distance_confidence.
  - intros Huniq. by apply Huniq.
Qed.

Lemma exact_match_first_witness :
  ∃ x rest,
    suggest_words "hello" 1 None default_engine = (Ok (x :: rest), default_engine) ∧
    sg_distance x = 0 ∧
    sg_word x ∈ dictionary default_engine ∧
    word_to_braille (sg_word x) = word_to_braille "hello" ∧
    (sg_confidence x ==
       if is_learned_value default_engine (sg_word x) then 11 # 10 else 1)%Q ∧
    ((∀ w', w' ∈ dictionary default_engine →
        word_to_braille w' = word_to_braille "hello" → w' = "hello") →
     sg_word x = "hello").
Proof.
  apply (exact_match_first default_engine "hello" 1 None).
  - apply reachable_init.
  - vm_compute. do 8 apply list_elem_of_further. apply list_elem_of_here.
  - reflexivity.
  - lia.
  - intros d Hd. discriminate Hd.
Defined.

(** ** Confidence values *)

(** The bonus looks at the values of the whole mapping, whatever the typed
    word they were learned for. *)
Lemma is_learned_value_spec self word :
  is_learned_value self word = true ↔
  ∃ typed, user_corrections self !! typed = Some word.
Proof.
  unfold is_learned_value. rewrite bool_decide_eq_true, list_elem_of_fmap. split.
  - intros ([typed v] & -> & Hin). exists typed. by apply elem_of_map_to_list.
  - intros [typed Hl]. exists (typed, word). split; [done|].
    by apply elem_of_map_to_list.
Qed.

(** C6, as stated, fails: the learned bonus lifts an exact match to 1.1. *)
Lemma confidence_above_one :
  let self := remember_choice "xyz" "cat" default_engine in
  ∃ l x,
    suggest_words "cat" 5 None self = (Ok l, self) ∧
    x ∈ l ∧
    ¬ (0 <= sg_confidence x <= 1)%Q.
Proof.
  intros self. eexists _, ("cat", 0, (1100 # 1000)%Q).
  split; [vm_compute; reflexivity|]. split; [left|].
  intros [_ H]. by vm_compute in H.
Qed.

(** C6, amended. Every suggestion returned has a confidence in
    [0, 1.1]; it is in [0, 1] unless the suggested word is a value of the
    learned-correction mapping. *)
Theorem confidence_range self w k md :
  reachable self →
  ∃ l, suggest_words w k md self = (Ok l, self) ∧
       ∀ x, x ∈ l →
         (0 <= sg_confidence x <= 11 # 10)%Q ∧
         (is_learned_value self (sg_word x) = false → (sg_confidence x <= 1)%Q).
Proof.
  intros Hidx%reachable_indexed.
  rewrite suggest_words_run by done. eexists. split; [done|].
  intros x Hx. destruct (learned_hit self w).
  { apply list_elem_of_singleton in Hx as ->. by vm_compute. }
  cbv zeta in Hx.
  destruct (py_sort rank_lt _) as [|y rest] eqn:Hs.
  { apply fallback_elem_of in Hx as (w' & c & _ & ->). by vm_compute. }
  destruct (slice_to_take (y :: rest) k) as [n Hn]. rewrite Hn in Hx.
  apply (subseteq_take n) in Hx. rewrite <-Hs in Hx.
  apply py_sort_elem_of, candidates_elem_of in Hx as (w' & Hw' & Hx); [|done].
  destruct (indexed_words _ Hidx w' Hw') as [Hne _].
  pose proof (candidate_confidence _ _ _ _ _ Hne Hx) as Hc.
  apply candidate_elem_of in Hx as (_ & _ & ->). exact Hc.
Qed.

Lemma confidence_range_witness :
  ∃ l, suggest_words "cak" 3 None default_engine = (Ok l, default_engine) ∧
       ∀ x, x ∈ l →
         (0 <= sg_confidence x <= 11 # 10)%Q ∧
         (is_learned_value default_engine (sg_word x) = false →
          (sg_confidence x <= 1)%Q).
Proof. apply (confidence_range default_engine "cak" 3 None), reachable_init. Defined.

(** C7, as stated, fails: the stored confidence is rounded to three
    decimals; for "cak" against "cap" it is 0.944, not 1 - 2/36. *)
Lemma reported_confidence_is_rounded :
  let ib := word_to_braille "cak" in
  ∃ kept x,
    search_candidates ib 6 default_engine = (Ok kept, default_engine) ∧
    x ∈ kept ∧
    ¬ (sg_confidence x == described_confidence default_engine ib x)%Q.
Proof.
  intros ib. eexists _, ("cap", 2, (944 # 1000)%Q).
  split; [vm_compute; reflexivity|]. split.
  - apply list_elem_of_further, list_elem_of_here.
  - by vm_compute.
Qed.

(** C7, amended. Every candidate kept during bucket search carries the
    distance returned by [levenshtein_optimized] under the budget, which
    is within the budget, and the confidence [round (c, 3)], where [c] is
    the value that binary64 arithmetic gives to
    [1 - distance / (len (inputCode) + len (candidateCode)) + bonus] and
    [bonus] is 0.1 exactly when the word is a value of the
    learned-correction mapping and 0 otherwise.  The reported confidence
    is a number of three decimals within [0.0005 + 10 ^ -15] of the exact
    value of that expression, and it is the exact value rounded to three
    decimals unless the exact value lies within [10 ^ -15] of a point
    halfway between two multiples of 0.001, where the binary rounding
    error decides. *)
Theorem kept_confidence_formula self ib md :
  reachable self →
  ∃ kept, search_candidates ib md self = (Ok kept, self) ∧
    ∀ x, x ∈ kept →
      sg_word x ∈ dictionary self ∧
      dict_get (sg_word x) (braille_words self) = Some (word_to_braille (sg_word x)) ∧
      sg_distance x =
        levenshtein_optimized ib (word_to_braille (sg_word x)) (Some md) ∧
      sg_distance x <= md ∧
      sg_confidence x =
        round3 (float_confidence (sg_distance x)
                  (len ib + len (word_to_braille (sg_word x)))
                  (is_learned_value self (sg_word x))) ∧
      (Qabs (sg_confidence x - described_confidence self ib x)
       <= (1 # 2000) + (1 # 1000000000000000))%Q ∧
      (clear_of_ties (described_confidence self ib x) →
       sg_confidence x = round3 (described_confidence self ib x)) ∧
      ((∃ typed, user_corrections self !! typed = Some (sg_word x)) →
       is_learned_value self (sg_word x) = true ∧
       described_confidence self ib x =
         (1 - inject_Z (sg_distance x)
              / inject_Z (len ib + len (word_to_braille (sg_word x)))
          + (1 # 10))%Q) ∧
      ((∀ typed, user_corrections self !! typed ≠ Some (sg_word x)) →
       is_learned_value self (sg_word x) = false ∧
       described_confidence self ib x =
         (1 - inject_Z (sg_distance x)
              / inject_Z (len ib + len (word_to_braille (sg_word x))))%Q).
Proof.
  intros Hidx%reachable_indexed. rewrite search_candidates_run by done.
  eexists. split; [done|]. intros x Hx.
  apply candidates_elem_of in Hx as (w & Hw & Hx); [|done].
  apply candidate_elem_of in Hx as (Hd & Hle & ->).
  unfold described_confidence, sg_word, sg_distance, sg_confidence.
  cbn [fst snd]. rewrite Hd.
  split; [done|]. split; [by apply indexed_code|].
  split; [done|]. split; [done|]. split; [done|].
  destruct (indexed_words _ Hidx w Hw) as [Hne _].
  pose proof (len_nonneg ib). pose proof (len_pos _ Hne).
  pose proof (len_word_to_braille w).
  pose proof (distance_le_len ib (word_to_braille w)).
  pose proof (float_confidence_close (Z.of_nat (distance ib (word_to_braille w)))
    (len ib + len (word_to_braille w)) (is_learned_value self w)
    ltac:(lia) ltac:(lia)) as Hclose. cbv zeta in Hclose.
  set (c := float_confidence _ _ _) in *. clearbody c.
  set (raw := (1 - inject_Z (Z.of_nat (distance ib (word_to_braille w)))
                   / inject_Z (len ib + len (word_to_braille w)))%Q) in *.
  assert (Hexact : ((if is_learned_value self w then raw + (1 # 10) else raw)
                    == raw + (if is_learned_value self w then 1 # 10 else 0))%Q)
    by (destruct (is_learned_value self w); lra).
  set (v := if is_learned_value self w then (raw + (1 # 10))%Q else raw) in *.
  rewrite <-Hexact in Hclose. clear Hexact.
  split; [|split].
  - clearbody v. pose proof (round3_error c). apply Qabs_Qle_condition. lra.
  - clearbody v. unfold clear_of_ties, round3. intros Hclear. f_equal.
    set (z := round_half_even (v * 1000)) in *.
    assert (- ((1 # 2) - (1 # 1000000000000)) < v * 1000 - inject_Z z
            < (1 # 2) - (1 # 1000000000000))%Q as Hz.
    { destruct (Qabs_Qlt_condition (v * 1000 - inject_Z z)
        ((1 # 2) - (1 # 1000000000000))) as [Hcond _]. by apply Hcond. }
    destruct (round_half_even_near z (c * 1000)) as [Hlo Hhi].
    apply Z.le_antisymm; [apply Hhi|apply Hlo]; lra.
  - split.
    + intros Hsome%is_learned_value_spec. unfold v. by rewrite Hsome.
    + intros Hnone. destruct (is_learned_value self w) eqn:Hlv; [|done].
      apply is_learned_value_spec in Hlv as [typed Hl]. by destruct (Hnone typed).
Qed.

(** The instance: "joy" against the default word list once "hello" is a
    learned value, with budget 15.  The exact value for "hello" is
    [1 - 15 / 48 + 0.1 = 0.7875], a tie; binary64 arithmetic gives a value
    just below it and the reported confidence is 0.787, not the 0.788 of
    an exact half-even rounding. *)
Lemma kept_confidence_formula_witness :
  let self := remember_choice "helo" "hello" default_engine in
  let ib := word_to_braille "joy" in
  ∃ kept, search_candidates ib 15 self = (Ok kept, self) ∧
    (∀ x, x ∈ kept →
      sg_confidence x =
        round3 (float_confidence (sg_distance x)
                  (len ib + len (word_to_braille (sg_word x)))
                  (is_learned_value self (sg_word x))) ∧
      (Qabs (sg_confidence x - described_confidence self ib x)
       <= (1 # 2000) + (1 # 1000000000000000))%Q ∧
      (clear_of_ties (described_confidence self ib x) →
       sg_confidence x = round3 (described_confidence self ib x))) ∧
    ("hello", 15, (787 # 1000)%Q) ∈ kept ∧
    Qeq (described_confidence self ib ("hello", 15, (787 # 1000)%Q)) (7875 # 10000) ∧
    ("dog", 5, (861 # 1000)%Q) ∈ kept ∧
    clear_of_ties (described_confidence self ib ("dog", 5, (861 # 1000)%Q)).
Proof.
  intros self ib.
  destruct (kept_confidence_formula self ib 15) as (kept & Hrun & Hall);
    [apply reachable_remember, reachable_init|].
  exists kept. split; [exact Hrun|]. split.
  { intros x Hx. destruct (Hall x Hx) as (_ & _ & _ & _ & H1 & H2 & H3 & _).
    split; [exact H1|split; [exact H2|exact H3]]. }
  assert (Hk : (Ok kept : result (list Suggestion)) = (search_candidates ib 15 self).1)
    by (by rewrite Hrun).
  vm_compute in Hk. injection Hk as ->.
  split; [|split; [|split]].
  - do 8 apply list_elem_of_further. apply list_elem_of_here.
  - by vm_compute.
  - do 5 apply list_elem_of_further. apply list_elem_of_here.
  - by vm_compute.
Defined.

(** ** Ranking *)

Lemma py_sort_ranked (l : list Suggestion) : ranked (py_sort rank_lt l).
Proof.
  intros i j x y Hij Hi Hj. apply rank_not_after.
  eapply (StronglySorted_lookup _ (py_sort rank_lt l) i j); [|done..].
  apply py_sort_sorted; [apply rank_lt_asym|apply rank_not_after_trans].
Qed.

Lemma ranked_take (l : list Suggestion) n : ranked l → ranked (take n l).
Proof.
  intros Hl i j x y Hij Hi Hj.
  apply lookup_take_Some in Hi as [Hi _]. apply lookup_take_Some in Hj as [Hj _].
  by apply (Hl i j).
Qed.

Lemma ranked_short (l : list Suggestion) : (length l ≤ 1)%nat → ranked l.
Proof.
  intros Hlen i j x y Hij Hi Hj. apply lookup_lt_Some in Hj. lia.
Qed.

Lemma slice_to_length_exact {A} (l : list A) k :
  Z.of_nat (length (slice_to l k)) =
  if 0 <=? k then Z.min k (Z.of_nat (length l))
  else Z.max 0 (Z.of_nat (length l) + k).
Proof.
  unfold slice_to. destruct (Z.leb_spec 0 k); rewrite length_take; lia.
Qed.

(** C9, as stated, fails: the slice [suggestions[:k]] with a negative [k]
    drops the last [-k] entries; "cak" with [k = -1] on the default word
    list returns five suggestions. *)
Lemma negative_k_exceeds_k :
  ∃ l, suggest_words "cak" (-1) None default_engine = (Ok l, default_engine) ∧
       (2 ≤ length l)%nat ∧
       length l = 5%nat ∧
       ¬ (Z.of_nat (length l) <= -1).
Proof.
  eexists. split; [by vm_compute|]. simpl. lia.
Qed.

(** C9, amended. Every returned list is ordered: an earlier suggestion
    never has a larger distance than a later one, and of two suggestions
    at the same distance the earlier one never has the smaller
    confidence.  When no learned correction answers and a candidate is
    kept, the list is [all[:k]], where [all] holds every kept candidate
    once, in that order; it has [min (k, number kept)] entries for
    [k >= 0] and [max (0, number kept + k)] entries for [k < 0].  In the
    other cases the list has at most one entry.  So the length never
    exceeds [k] for [k >= 1], nor for [k = 0] when two or more suggestions
    are returned. *)
Theorem ranking_order self w k md :
  reachable self →
  ∃ l kept,
    suggest_words w k md self = (Ok l, self) ∧
    search_candidates (word_to_braille (lower w)) (budget_of w md) self
      = (Ok kept, self) ∧
    ranked l ∧
    (learned_hit self w = None → kept ≠ [] →
     ∃ all, all ≡ₚ kept ∧ ranked all ∧ l = slice_to all k ∧
       Z.of_nat (length l) =
         if 0 <=? k then Z.min k (Z.of_nat (length kept))
         else Z.max 0 (Z.of_nat (length kept) + k)) ∧
    (learned_hit self w ≠ None ∨ kept = [] → (length l ≤ 1)%nat) ∧
    (1 <= k → Z.of_nat (length l) <= k) ∧
    (0 <= k → (2 ≤ length l)%nat → Z.of_nat (length l) <= k).
Proof.
  intros Hidx%reachable_indexed.
  rewrite suggest_words_run, search_candidates_run by done.
  eexists _, _. split; [done|]. split; [done|].
  destruct (learned_hit self w) as [c|].
  { split; [by apply ranked_short|]. split; [done|]. simpl. lia. }
  cbv zeta.
  set (kept := candidates self (word_to_braille (lower w)) (budget_of w md)).
  pose proof (py_sort_perm rank_lt kept) as Hperm.
  destruct (py_sort rank_lt kept) as [|z rest] eqn:Hs.
  { assert (Hlen : (length (fallback self (word_to_braille (lower w))) ≤ 1)%nat).
    { unfold fallback, slice_to. simpl. rewrite length_take. lia. }
    apply Permutation_nil_l in Hperm.
    split; [by apply ranked_short|]. split; [by intros _ []|]. lia. }
  assert (Hall : ranked (z :: rest)) by (rewrite <-Hs; apply py_sort_ranked).
  pose proof (slice_to_length_exact (z :: rest) k) as Hlen.
  rewrite (Permutation_length Hperm) in Hlen.
  split; [|split; [|split]].
  - destruct (slice_to_take (z :: rest) k) as [n ->]. by apply ranked_take.
  - intros _ _. by exists (z :: rest).
  - intros [[]|Hnil]; [done|]. rewrite Hnil in Hperm.
    by apply Permutation_nil_r in Hperm.
  - destruct (0 <=? k) eqn:Hk; lia.
Qed.

(** The instance: "cat" with [k = 4] once "car" is a learned value.  Seven
    candidates are kept; the answer starts with the exact match, and
    "car", with its bonus, comes before the other words at distance 2. *)
Lemma ranking_order_witness :
  let self := remember_choice "xyz" "car" default_engine in
  ∃ l kept,
    suggest_words "cat" 4 None self = (Ok l, self) ∧
    search_candidates (word_to_braille "cat") 6 self = (Ok kept, self) ∧
    ranked l ∧
    l = [("cat", 0, (1000 # 1000)%Q); ("car", 2, (1044 # 1000)%Q);
         ("cap", 2, (944 # 1000)%Q); ("bat", 2, (944 # 1000)%Q)] ∧
    length kept = 7%nat ∧
    (∃ all, all ≡ₚ kept ∧ ranked all ∧ l = slice_to all 4 ∧
       Z.of_nat (length l) = Z.min 4 (Z.of_nat (length kept))).
Proof.
  intros self.
  destruct (ranking_order self "cat" 4 None) as
    (l & kept & Hrun & Hsearch & Hranked & Hfull & _);
    [apply reachable_remember, reachable_init|].
  exists l, kept. split; [exact Hrun|]. split; [exact Hsearch|].
  split; [exact Hranked|].
  pose proof (f_equal fst Hrun) as Hl. pose proof (f_equal fst Hsearch) as Hk.
  vm_compute in Hl. vm_compute in Hk. injection Hl as Hl. injection Hk as Hk.
  split; [symmetry; exact Hl|]. split; [by rewrite <-Hk|].
  apply Hfull; [reflexivity|by rewrite <-Hk].
Defined.

(* ===================================================================== *)
(** * Concrete runs *)
(* ===================================================================== *)

(** The inputs of [quick_test.py] and [test_system.py] on the default word
    list. *)

(** The floats [0.1] and [1 / 3], and a decimal tie: [1 - 15 / 48 + 0.1]
    is 0.7875 exactly, the float computed for it lies below, and [round]
    gives 0.787; [1 - 15 / 48] is the float 0.6875 itself, and [round]
    gives 0.688, the even neighbour. *)
Example binary64_one_tenth :
  (binary64 (1 # 10) == 3602879701896397 # 36028797018963968)%Q.
Proof. by vm_compute. Qed.

Example binary64_one_third :
  (binary64 (1 # 3) == 6004799503160661 # 18014398509481984)%Q.
Proof. by vm_compute. Qed.

Example round_tie_below :
  round3 (float_confidence 15 48 true) = (787 # 1000)%Q ∧
  round3 (1 - (15 # 48) + (1 # 10)) = (788 # 1000)%Q ∧
  round3 (float_confidence 15 48 false) = (688 # 1000)%Q.
Proof. by vm_compute. Qed.

Example encode_cat : word_to_braille "cat" = "100100100000011110".
Proof. reflexivity. Qed.

Example encode_unmapped : word_to_braille "a1" = "100000000000".
Proof. reflexivity. Qed.

Example default_buckets :
  (bucket default_engine 18, bucket default_engine 24, bucket default_engine 30) =
  (["cat"; "cap"; "bat"; "rat"; "car"; "dog"; "can"], ["help"], ["hello"]).
Proof. reflexivity. Qed.

Example suggest_cak :
  (suggest_words_exit "cak" 3 None default_engine).1 =
  Ok (Ranked, [("cap", 2, (944 # 1000)%Q); ("car", 2, (944 # 1000)%Q);
               ("can", 2, (944 # 1000)%Q)]).
Proof. by vm_compute. Qed.

Example suggest_dg :
  (suggest_words_exit "dg" 3 None default_engine).1 =
  Ok (Ranked, [("dog", 6, (800 # 1000)%Q)]).
Proof. by vm_compute. Qed.

Example suggest_helllo :
  (suggest_words_exit "helllo" 3 None default_engine).1 =
  Ok (Fallback, [("hello", 6, 0%Q)]).
Proof. by vm_compute. Qed.

Example suggest_empty :
  (suggest_words_exit "" 1 None default_engine).1 =
  Ok (Fallback, [("cat", 18, 0%Q)]).
Proof. by vm_compute. Qed.

Example suggest_xyz_after_learning :
  (suggest_words_exit "xyz" 3 None (remember_choice "xyz" "cat" default_engine)).1 =
  Ok (LearnedHit, [("cat", 0, 1%Q)]).
Proof. by vm_compute. Qed.

Example distance_symmetric_budget_not :
  levenshtein_optimized "xyab" "abcd" (Some 2) = 3 ∧
  levenshtein_optimized "abcd" "xyab" (Some 2) = 4.
Proof. by vm_compute. Qed.

(* ===================================================================== *)
(** * Further properties of the encoder *)
(* ===================================================================== *)

Lemma chars_app (a b : string) : chars (a +:+ b) = chars a ++ chars b.
Proof. induction a as [|c a IH]; simpl; [done|]. by rewrite <-IH. Qed.

Lemma string_app_assoc (a b c : string) : (a +:+ b) +:+ c = a +:+ (b +:+ c).
Proof. induction a as [|x a IH]; simpl; [done|]. unfold String.app in *. simpl. by rewrite IH. Qed.

Lemma string_app_cancel (a1 a2 r1 r2 : string) :
  String.length a1 = String.length a2 →
  a1 +:+ r1 = a2 +:+ r2 → a1 = a2 ∧ r1 = r2.
Proof.
  revert a2. induction a1 as [|x a1 IH]; intros [|y a2] Hlen Heq;
    simpl in *; try done.
  injection Heq as -> Heq. destruct (IH a2) as [-> ->]; [lia|done|done].
Qed.

Lemma dict_get_default_Forall {V} (P : V → Prop) (d : list (ascii * V)) dflt c :
  Forall (λ p, P p.2) d → P dflt → P (default dflt (dict_get c d)).
Proof.
  intros Hall Hd. induction Hall as [|[k v] d' Hv _ IH]; simpl; [done|].
  by case_decide.
Qed.

Lemma braille_map_binary c x :
  x ∈ chars (default "000000" (dict_get c braille_map)) →
  x = "0"%char ∨ x = "1"%char.
Proof.
  intros Hx.
  assert (Hall : Forall (λ x, x = "0"%char ∨ x = "1"%char)
                   (chars (default "000000" (dict_get c braille_map)))).
  { apply (dict_get_default_Forall
      (λ v, Forall (λ x, x = "0"%char ∨ x = "1"%char) (chars v))).
    - apply (bool_decide_unpack _). vm_compute. exact I.
    - apply (bool_decide_unpack _). vm_compute. exact I. }
  by eapply Forall_forall in Hall.
Qed.

(** X1. The code of a word has six cells per character and is written
    with the characters 0 and 1 only. *)
Theorem word_to_braille_shape (word : string) :
  len (word_to_braille word) = 6 * len word ∧
  ∀ x, x ∈ chars (word_to_braille word) → x = "0"%char ∨ x = "1"%char.
Proof.
  split; [apply len_word_to_braille|].
  induction word as [|c word IH]; cbn [word_to_braille].
  { by intros x ?%elem_of_nil. }
  intros x. rewrite chars_app, elem_of_app. intros [Hx|Hx]; [|by apply IH].
  by apply (braille_map_binary (lower_char c)).
Qed.

(** X2. Encoding distributes over concatenation, and it ignores the case
    of a word of ASCII characters: the code of [a.lower ()] is the code
    of [a]. *)
Theorem word_to_braille_compositional (a b : string) :
  word_to_braille (a +:+ b) = word_to_braille a +:+ word_to_braille b ∧
  (is_ascii a → word_to_braille (lower a) = word_to_braille a).
Proof.
  split.
  - induction a as [|c a IH]; [done|].
    change (String c a +:+ b) with (String c (a +:+ b)).
    cbn [word_to_braille]. by rewrite IH, string_app_assoc.
  - unfold is_ascii. induction a as [|c a IH]; [done|].
    cbn [list_ascii_of_string]. intros [Hc Ha]%Forall_cons.
    cbn [lower word_to_braille]. by rewrite lower_char_idemp, IH.
Qed.

Lemma word_to_braille_compositional_witness :
  word_to_braille (lower "CaT") = word_to_braille "CaT".
Proof.
  apply (word_to_braille_compositional "CaT" "").
  unfold is_ascii. apply (bool_decide_unpack _). vm_compute. exact I.
Defined.

Lemma dict_values_inj {K V} `{EqDecision K} (d : list (K * V)) k1 k2 v :
  NoDup d.*2 → (k1, v) ∈ d → (k2, v) ∈ d → k1 = k2.
Proof.
  induction d as [|[k0 v0] d IH]; simpl; [by intros _ ?%elem_of_nil|].
  intros [Hnot Hnd]%NoDup_cons [H1|H1]%elem_of_cons [H2|H2]%elem_of_cons.
  - congruence.
  - injection H1 as -> ->. destruct Hnot.
    apply list_elem_of_fmap. by exists (k2, v0).
  - injection H2 as -> ->. destruct Hnot.
    apply list_elem_of_fmap. by exists (k1, v0).
  - by apply IH.
Qed.

Lemma dict_get_entry {K V} `{EqDecision K} (k : K) (v : V) d :
  dict_get k d = Some v → (k, v) ∈ d.
Proof.
  induction d as [|[k0 v0] d IH]; simpl; [done|].
  destruct (decide (k = k0)) as [->|Hne0].
  - intros [= ->]. apply elem_of_cons. by left.
  - intros Hd. apply elem_of_cons. right. by apply IH.
Qed.

Lemma braille_map_values_distinct : NoDup braille_map.*2 ∧ "000000" ∉ braille_map.*2.
Proof.
  split; apply (bool_decide_unpack _); vm_compute; exact I.
Qed.

(** Two characters get the same six cells exactly when the encoder keeps
    the same thing of them. *)
Lemma char_code_eq (c1 c2 : ascii) :
  default "000000" (dict_get (lower_char c1) braille_map) =
  default "000000" (dict_get (lower_char c2) braille_map) ↔
  cell_key c1 = cell_key c2.
Proof.
  destruct braille_map_values_distinct as [Hnd Hzero]. unfold cell_key.
  destruct (dict_get (lower_char c1) braille_map) as [v1|] eqn:H1;
    destruct (dict_get (lower_char c2) braille_map) as [v2|] eqn:H2; simpl.
  - apply dict_get_entry in H1 as H1', H2 as H2'. split.
    + intros ->. f_equal. by eapply dict_values_inj.
    + intros [= Heq]. rewrite Heq in H1. congruence.
  - apply dict_get_entry in H1. split; [|done]. intros ->. destruct Hzero.
    apply list_elem_of_fmap. by exists (lower_char c1, "000000").
  - apply dict_get_entry in H2. split; [|done]. intros <-. destruct Hzero.
    apply list_elem_of_fmap. by exists (lower_char c2, "000000").
  - done.
Qed.

(** X3. Two words have the same code exactly when they agree, position by
    position, up to case on the letters of the alphabet table and up to
    anything on the other characters: all unmapped characters collide,
    and nothing else does. *)
Theorem word_to_braille_collisions (w1 w2 : string) :
  word_to_braille w1 = word_to_braille w2 ↔
  cell_key <$> chars w1 = cell_key <$> chars w2.
Proof.
  assert (Hnil : ∀ c w, word_to_braille (String c w) ≠ EmptyString).
  { intros c w Heq. apply (f_equal String.length) in Heq.
    cbn [word_to_braille] in Heq.
    rewrite length_string_app, braille_map_width in Heq. done. }
  revert w2. induction w1 as [|c1 w1 IH]; intros [|c2 w2].
  - done.
  - split; [|done]. intros Heq. symmetry in Heq. by apply Hnil in Heq.
  - split; [|done]. intros Heq. by apply Hnil in Heq.
  - change (chars (String c1 w1)) with (c1 :: chars w1).
    change (chars (String c2 w2)) with (c2 :: chars w2).
    cbn [word_to_braille]. rewrite !fmap_cons. split.
    + intros Heq. apply string_app_cancel in Heq as [Hc Hw];
        [|by rewrite !braille_map_width].
      apply char_code_eq in Hc. apply IH in Hw. by rewrite Hc, Hw.
    + intros [= Hc Hw]. apply char_code_eq in Hc. apply IH in Hw.
      by rewrite Hc, Hw.
Qed.

(* ===================================================================== *)
(** * Further properties of the distance engine *)
(* ===================================================================== *)

Lemma distance_sym a b : distance a b = distance b a.
Proof. apply lev_sym. Qed.

Lemma distance_triangle a b c : (distance a c ≤ distance a b + distance b c)%nat.
Proof.
  apply edits_lower_bound.
  eapply edits_trans; apply edits_upper_bound.
Qed.

Lemma lev_le_max {A} `{EqDecision A} (a b : list A) :
  (lev a b ≤ Nat.max (length a) (length b))%nat.
Proof.
  revert b. induction a as [|x a IH]; intros b; [simpl; lia|].
  destruct b as [|y b]; [rewrite lev_nil_r; lia|].
  rewrite lev_cons_cons. specialize (IH b). cbn [length]. case_decide; lia.
Qed.

(** X4. Without a budget the function is a metric on strings: it is zero
    exactly on equal strings, symmetric, and satisfies the triangle
    inequality. *)
Theorem levenshtein_unbounded_metric (a b c : string) :
  (levenshtein_optimized a b None = 0 ↔ a = b) ∧
  levenshtein_optimized a b None = levenshtein_optimized b a None ∧
  levenshtein_optimized a c None <=
    levenshtein_optimized a b None + levenshtein_optimized b c None.
Proof.
  rewrite !levenshtein_optimized_None. split; [|split].
  - split.
    + intros Hz. apply distance_zero. lia.
    + intros ->. by rewrite distance_refl.
  - by rewrite distance_sym.
  - pose proof (distance_triangle a b c). lia.
Qed.

(** X5. Without a budget the result lies between the difference of the
    two lengths and the larger of them. *)
Theorem levenshtein_unbounded_bounds (a b : string) :
  Z.abs (len a - len b) <= levenshtein_optimized a b None <=
  Z.max (len a) (len b).
Proof.
  rewrite levenshtein_optimized_None. unfold distance, len.
  pose proof (lev_length_l (chars a) (chars b)).
  pose proof (lev_length_r (chars a) (chars b)).
  pose proof (lev_le_max (chars a) (chars b)).
  rewrite !length_chars in *. lia.
Qed.

(** X6. The test [distance <= max_distance] made by the caller is exact
    for every integer budget: the budgeted result is within the budget
    exactly when the unbudgeted one is, and then the two are equal. *)
Theorem levenshtein_budget_filter_exact (a b : string) (d : Z) :
  (levenshtein_optimized a b (Some d) <= d ↔ levenshtein_optimized a b None <= d) ∧
  (levenshtein_optimized a b (Some d) <= d →
   levenshtein_optimized a b (Some d) = levenshtein_optimized a b None).
Proof.
  rewrite levenshtein_optimized_None. split; [split|].
  - intros Hle. by rewrite <-(levenshtein_optimized_kept a b d).
  - intros Hle. by rewrite levenshtein_optimized_within.
  - apply levenshtein_optimized_kept.
Qed.

Lemma levenshtein_budget_filter_exact_witness :
  levenshtein_optimized "100000" "110000" (Some 1) =
  levenshtein_optimized "100000" "110000" None.
Proof.
  apply (levenshtein_budget_filter_exact "100000" "110000" 1).
  vm_compute. discriminate.
Defined.

(** X7. A budget of 0 is falsy and behaves as no budget at all, so the
    true distance comes back even when it is positive; a negative budget
    returns [budget + 1] whatever the strings are. *)
Theorem levenshtein_degenerate_budgets (a b : string) (d : Z) :
  levenshtein_optimized a b (Some 0) = levenshtein_optimized a b None ∧
  (d < 0 → levenshtein_optimized a b (Some d) = d + 1).
Proof.
  split.
  - rewrite levenshtein_optimized_None.
    pose proof (levenshtein_optimized_spec a b (Some 0)) as Hs. cbv zeta in Hs.
    destruct Hs as [Hs _]. destruct Hs as [H|(d' & Hd' & Hne & _)]; [done|].
    injection Hd' as <-. done.
  - intros Hd. unfold levenshtein_optimized, exceeds_or_inf, truthy.
    destruct (Z.eqb_spec d 0); [lia|]. simpl.
    destruct (Z.gtb_spec (Z.abs (len a - len b)) d); [done|lia].
Qed.

Lemma levenshtein_degenerate_budgets_witness :
  levenshtein_optimized "00" "11" (Some 0) = levenshtein_optimized "00" "11" None ∧
  levenshtein_optimized "00" "11" (Some (-3)) = -3 + 1.
Proof.
  split.
  - apply (levenshtein_degenerate_budgets "00" "11" (-3)).
  - apply (levenshtein_degenerate_budgets "00" "11" (-3)). lia.
Defined.

(* ===================================================================== *)
(** * Further properties of the index *)
(* ===================================================================== *)

Lemma words_by_length_preprocess_word_ne self word L :
  L ≠ len (word_to_braille word) →
  words_by_length (preprocess_word self word) !! L = words_by_length self !! L.
Proof.
  intros HL. unfold preprocess_word, defaultdict_getitem.
  destruct (words_by_length self !! len (word_to_braille word)); simpl.
  - by rewrite lookup_insert_ne.
  - by rewrite !lookup_insert_ne.
Qed.

Lemma words_by_length_preprocess_word_eq self word :
  words_by_length (preprocess_word self word) !! len (word_to_braille word) =
  Some (bucket self (len (word_to_braille word)) ++ [word]).
Proof.
  unfold preprocess_word, defaultdict_getitem, bucket.
  destruct (words_by_length self !! len (word_to_braille word)); simpl;
    by rewrite lookup_insert_eq.
Qed.

(** The buckets after the loop of [_preprocess_dictionary] has run over
    [words]: each bucket has gained, in order, the words of its length. *)
Lemma bucket_preprocess_loop words self L :
  bucket (fold_left preprocess_word words self) L =
  bucket self L ++ filter (λ w, len (word_to_braille w) = L) words.
Proof.
  revert self. induction words as [|w words IH]; intros self; simpl.
  { by rewrite app_nil_r. }
  rewrite IH, bucket_preprocess_word, filter_cons.
  destruct (decide (L = len (word_to_braille w))) as [->|Hne].
  - rewrite decide_True by done. by rewrite <-(assoc_L (++)).
  - by rewrite decide_False by done.
Qed.

Lemma present_buckets_preprocess_loop words self :
  (∀ L b, words_by_length self !! L = Some b → b ≠ []) →
  ∀ L b, words_by_length (fold_left preprocess_word words self) !! L = Some b →
         b ≠ [].
Proof.
  revert self. induction words as [|w words IH]; intros self Hne; simpl; [done|].
  apply IH. intros L b.
  destruct (decide (L = len (word_to_braille w))) as [->|HL].
  - rewrite words_by_length_preprocess_word_eq. intros [= <-].
    by destruct (bucket self _).
  - rewrite words_by_length_preprocess_word_ne by done. apply Hne.
Qed.

Lemma bucket_remember_choice typed corrected self L :
  bucket (remember_choice typed corrected self) L = bucket self L.
Proof. done. Qed.

Lemma bucket_closed_form self L :
  reachable self →
  bucket self L = filter (λ w, len (word_to_braille w) = L) (dictionary self).
Proof.
  induction 1 as [file mf stored|typed corrected self _ IH]; [|done].
  rewrite dictionary_init. unfold init, _preprocess_dictionary. simpl.
  rewrite bucket_preprocess_loop. unfold bucket at 1. simpl.
  by rewrite lookup_empty.
Qed.

Lemma present_buckets_nonempty self L b :
  reachable self → words_by_length self !! L = Some b → b ≠ [].
Proof.
  induction 1 as [file mf stored|typed corrected self _ IH]; [|done].
  unfold init, _preprocess_dictionary. simpl.
  apply present_buckets_preprocess_loop. intros L' b'. simpl.
  by rewrite lookup_empty.
Qed.

(** X8. After construction each bucket holds exactly the dictionary words
    whose code has that length, in dictionary order and as many times as
    the dictionary repeats them; so every dictionary word sits in the
    bucket of its own code length and in no other. *)
Theorem buckets_partition_dictionary self :
  reachable self →
  (∀ L, bucket self L =
        filter (λ w, len (word_to_braille w) = L) (dictionary self)) ∧
  (∀ w L, w ∈ bucket self L ↔
          w ∈ dictionary self ∧ L = len (word_to_braille w)).
Proof.
  intros Hr. split; [intros L; by apply bucket_closed_form|].
  intros w L. rewrite bucket_closed_form, list_elem_of_filter by done.
  split; intros [? ?]; by split.
Qed.

Lemma buckets_partition_dictionary_witness :
  bucket default_engine 24 =
  filter (λ w, len (word_to_braille w) = 24) (dictionary default_engine).
Proof. apply (buckets_partition_dictionary default_engine), reachable_init. Defined.

(** X9. The keys of the length index are exactly the code lengths of the
    dictionary words: there is no empty bucket, and every key is a
    positive multiple of six. *)
Theorem bucket_keys_are_code_lengths self L :
  reachable self →
  (L ∈ dom (words_by_length self) ↔
   ∃ w, w ∈ dictionary self ∧ len (word_to_braille w) = L) ∧
  (L ∈ dom (words_by_length self) → 0 < L ∧ (6 | L)).
Proof.
  intros Hr.
  assert (Hdom : L ∈ dom (words_by_length self) ↔
    ∃ w, w ∈ dictionary self ∧ len (word_to_braille w) = L).
  { rewrite elem_of_dom. split.
    - intros [b Hb]. pose proof (present_buckets_nonempty _ _ _ Hr Hb) as Hne.
      destruct b as [|w b]; [done|]. exists w.
      apply (indexed_bucket _ (reachable_indexed _ Hr) L).
      unfold bucket. rewrite Hb. simpl. left.
    - intros (w & Hw & <-).
      pose proof (indexed_in_bucket _ (reachable_indexed _ Hr) w Hw) as Hin.
      unfold bucket in Hin.
      destruct (words_by_length self !! len (word_to_braille w)); [done|].
      by apply elem_of_nil in Hin. }
  split; [done|]. intros (w & Hw & <-)%Hdom.
  destruct (indexed_words _ (reachable_indexed _ Hr) w Hw) as [Hne _].
  rewrite len_word_to_braille. pose proof (len_pos w Hne).
  split; [lia|]. exists (len w). lia.
Qed.

Lemma bucket_keys_are_code_lengths_witness :
  (18 ∈ dom (words_by_length default_engine) ↔
   ∃ w, w ∈ dictionary default_engine ∧ len (word_to_braille w) = 18) ∧
  (18 ∈ dom (words_by_length default_engine) → 0 < 18 ∧ (6 | 18)).
Proof. apply (bucket_keys_are_code_lengths default_engine 18), reachable_init. Defined.

Lemma dict_set_canonical (f : string → string) (keys : list string) (k : string) :
  dict_set k (f k) ((λ w, (w, f w)) <$> keys) = (λ w, (w, f w)) <$> note_key keys k.
Proof.
  induction keys as [|a keys IH]; [done|].
  rewrite fmap_cons. cbn [dict_set].
  destruct (decide (k = a)) as [->|Hne].
  - unfold note_key. rewrite decide_True by left. done.
  - rewrite IH. unfold note_key. destruct (decide (k ∈ keys)) as [Hin|Hnin].
    + rewrite decide_True by (by right). done.
    + rewrite decide_False; [done|]. by intros [?|?]%elem_of_cons.
Qed.

Lemma braille_words_preprocess_loop words self keys :
  braille_words self = (λ w, (w, word_to_braille w)) <$> keys →
  braille_words (fold_left preprocess_word words self) =
  (λ w, (w, word_to_braille w)) <$> fold_left note_key words keys.
Proof.
  revert self keys. induction words as [|w words IH]; intros self keys Hk; simpl.
  { done. }
  apply IH. rewrite braille_words_preprocess_word, Hk.
  apply dict_set_canonical.
Qed.

Lemma note_key_loop_spec words keys :
  NoDup keys →
  NoDup (fold_left note_key words keys) ∧
  ∀ w, w ∈ fold_left note_key words keys ↔ w ∈ keys ∨ w ∈ words.
Proof.
  revert keys. induction words as [|x words IH]; intros keys Hnd; simpl.
  { split; [done|]. intros w. rewrite elem_of_nil. tauto. }
  assert (Hnd' : NoDup (note_key keys x)).
  { unfold note_key. case_decide; [done|].
    apply NoDup_app. split; [done|]. split; [|apply NoDup_singleton].
    intros y Hy ->%list_elem_of_singleton. done. }
  destruct (IH _ Hnd') as [H1 H2]. split; [done|].
  intros w. rewrite H2, elem_of_cons. unfold note_key.
  case_decide; [|rewrite elem_of_app, list_elem_of_singleton]; intuition congruence.
Qed.

Lemma braille_words_closed_form self :
  reachable self →
  braille_words self =
  (λ w, (w, word_to_braille w)) <$> first_occurrences (dictionary self).
Proof.
  induction 1 as [file mf stored|typed corrected self _ IH]; [|done].
  rewrite dictionary_init. unfold init, _preprocess_dictionary. simpl.
  by apply braille_words_preprocess_loop.
Qed.

(** X10. The code cache holds each distinct dictionary word once, at the
    place of its first occurrence in the dictionary, with its code; a
    repeated word does not move and is not stored twice. *)
Theorem code_cache_first_occurrences self :
  reachable self →
  braille_words self =
    (λ w, (w, word_to_braille w)) <$> first_occurrences (dictionary self) ∧
  NoDup (braille_words self).*1 ∧
  (∀ w, w ∈ (braille_words self).*1 ↔ w ∈ dictionary self).
Proof.
  intros Hr. rewrite braille_words_closed_form by done.
  split; [done|].
  rewrite <-list_fmap_compose.
  replace (fst ∘ (λ w : string, (w, word_to_braille w))) with (@id string) by done.
  rewrite list_fmap_id.
  destruct (note_key_loop_spec (dictionary self) [] (NoDup_nil_2)) as [Hnd Hel].
  split; [done|]. intros w. unfold first_occurrences. rewrite Hel, elem_of_nil.
  tauto.
Qed.

Lemma code_cache_first_occurrences_witness :
  braille_words (init (Some ["dog"; "cat"; "dog"]) "memory.json" None) =
  (λ w, (w, word_to_braille w)) <$> first_occurrences ["dog"; "cat"; "dog"].
Proof.
  apply (code_cache_first_occurrences
           (init (Some ["dog"; "cat"; "dog"]) "memory.json" None)),
    reachable_init.
Defined.

Lemma first_occurrences_length words :
  (length (first_occurrences words) ≤ length words)%nat ∧
  (length (first_occurrences words) = length words ↔ NoDup words).
Proof.
  destruct (note_key_loop_spec words [] (NoDup_nil_2)) as [Hnd Hel].
  fold (first_occurrences words) in Hnd, Hel.
  assert (Hsub : first_occurrences words ⊆+ words).
  { apply NoDup_submseteq; [done|]. intros w. rewrite Hel, elem_of_nil. tauto. }
  split; [by apply submseteq_length|]. split.
  - intros Hlen. apply submseteq_length_Permutation in Hsub; [|lia].
    by rewrite <-Hsub.
  - intros Hnd'. apply Permutation_length, NoDup_Permutation; [done..|].
    intros w. rewrite Hel, elem_of_nil. tauto.
Qed.

(** X11. In the statistics snapshot the number of cached patterns never
    exceeds the dictionary size, and the two are equal exactly when the
    dictionary has no repeated word. *)
Theorem stats_cached_vs_dictionary self :
  reachable self →
  braille_patterns_cached (get_stats self) <= dictionary_size (get_stats self) ∧
  (braille_patterns_cached (get_stats self) = dictionary_size (get_stats self) ↔
   NoDup (dictionary self)).
Proof.
  intros Hr. unfold get_stats. simpl.
  rewrite braille_words_closed_form, length_fmap by done.
  destruct (first_occurrences_length (dictionary self)) as [Hle Hiff].
  split; [lia|]. rewrite <-Hiff. lia.
Qed.

Lemma stats_cached_vs_dictionary_witness :
  braille_patterns_cached (get_stats default_engine)
    <= dictionary_size (get_stats default_engine).
Proof. apply (stats_cached_vs_dictionary default_engine), reachable_init. Defined.

(* ===================================================================== *)
(** * Further properties of the learning store *)
(* ===================================================================== *)

(** X12. [remember_choice] stores the lowercased correction under the
    lowercased typed word and touches no other key, the dictionary or the
    index; a second correction for the same typed word, in any case,
    replaces the first; the count of learned corrections grows by one
    exactly when the typed word is new. *)
Theorem remember_choice_store typed corrected self :
  let self' := remember_choice typed corrected self in
  user_corrections self' !! lower typed = Some (lower corrected) ∧
  (∀ k, k ≠ lower typed → user_corrections self' !! k = user_corrections self !! k) ∧
  dictionary self' = dictionary self ∧
  braille_words self' = braille_words self ∧
  words_by_length self' = words_by_length self ∧
  (∀ typed2 corrected2, lower typed2 = lower typed →
     remember_choice typed2 corrected2 self' = remember_choice typed2 corrected2 self) ∧
  learned_corrections (get_stats self') =
    (if decide (is_Some (user_corrections self !! lower typed))
     then learned_corrections (get_stats self)
     else learned_corrections (get_stats self) + 1).
Proof.
  intros self'. unfold self', remember_choice. simpl.
  split; [apply lookup_insert_eq|]. split; [intros k Hk; by apply lookup_insert_ne|].
  do 3 (split; [done|]). split.
  - intros typed2 corrected2 ->. by rewrite insert_insert_eq.
  - case_decide as Hk.
    + destruct Hk as [v Hv]. rewrite map_size_insert_Some; [done|eauto].
    + apply eq_None_not_Some in Hk. rewrite map_size_insert_None by done. lia.
Qed.

Lemma remember_choice_store_witness :
  let self' := remember_choice "XyZ" "Cat" default_engine in
  user_corrections self' !! "xyz" = Some "cat" ∧
  remember_choice "xyz" "dog" self' = remember_choice "xyz" "dog" default_engine.
Proof.
  pose proof (remember_choice_store "XyZ" "Cat" default_engine)
    as (H1 & _ & _ & _ & _ & H2 & _).
  split; [exact H1|]. apply H2. reflexivity.
Defined.

(** The index that [_preprocess_dictionary] builds does not depend on the
    learned corrections. *)
Lemma preprocess_word_fields D mf uc bw wbl w :
  preprocess_word (mkEngine D mf uc bw wbl) w =
  mkEngine D mf uc (dict_set w (word_to_braille w) bw)
    (<[len (word_to_braille w) :=
         (defaultdict_getitem (len (word_to_braille w)) wbl).1 ++ [w]]>
       (defaultdict_getitem (len (word_to_braille w)) wbl).2).
Proof.
  unfold preprocess_word. simpl. by destruct (defaultdict_getitem _ wbl).
Qed.

Lemma preprocess_loop_corrections words D mf uc uc' bw wbl :
  let e := fold_left preprocess_word words (mkEngine D mf uc bw wbl) in
  fold_left preprocess_word words (mkEngine D mf uc' bw wbl) =
  mkEngine (dictionary e) (memory_file e) uc' (braille_words e) (words_by_length e).
Proof.
  revert bw wbl. induction words as [|w words IH]; intros bw wbl; [done|].
  cbn [fold_left]. rewrite !preprocess_word_fields. apply IH.
Qed.

Lemma init_corrections file mf stored uc :
  let e := init file mf stored in
  init file mf (Some uc) =
  mkEngine (dictionary e) (memory_file e) uc (braille_words e) (words_by_length e).
Proof.
  unfold init, _preprocess_dictionary. simpl.
  apply preprocess_loop_corrections.
Qed.

Lemma user_corrections_init file mf stored :
  user_corrections (init file mf stored) = load_memory stored.
Proof.
  unfold init, _preprocess_dictionary. simpl.
  by destruct (indexed_upto_loop (load_dictionary file) []
    (mkEngine (load_dictionary file) mf (load_memory stored) [] ∅)) as (_ & _ & ->);
    [apply indexed_upto_start|].
Qed.

Lemma built_from_restart file mf self :
  built_from file mf self → init file mf (Some (user_corrections self)) = self.
Proof.
  induction 1 as [stored|typed corrected self _ IH].
  - rewrite (init_corrections file mf stored).
    rewrite (user_corrections_init file mf stored).
    pose proof (user_corrections_init file mf stored) as Huc.
    destruct (init file mf stored). simpl in *. by subst.
  - rewrite (init_corrections file mf (Some (user_corrections self))), IH.
    done.
Qed.

(** X13. Persistence round trip: when the write of the memory file
    succeeds, an engine constructed afterwards on the same dictionary file
    and that memory file is identical to the running engine, learned
    corrections and index included, and no warning is printed.  When the
    write fails the warning is printed and the running engine keeps the
    correction all the same. *)
Theorem remember_choice_restart file mf self typed corrected left_behind :
  built_from file mf self →
  (let '(self', disk, warned) :=
     remember_choice_persist typed corrected Written self in
   init file mf disk = self' ∧ warned = false ∧
   user_corrections self' !! lower typed = Some (lower corrected)) ∧
  (let '(self', disk, warned) :=
     remember_choice_persist typed corrected (WriteFailed left_behind) self in
   disk = left_behind ∧ warned = true ∧
   user_corrections self' !! lower typed = Some (lower corrected)).
Proof.
  intros Hb. unfold remember_choice_persist. split.
  - split; [|split; [done|apply lookup_insert_eq]].
    apply (built_from_restart file mf). by constructor.
  - split; [done|]. split; [done|apply lookup_insert_eq].
Qed.

Lemma remember_choice_restart_witness :
  init None "memory.json"
    (remember_choice_persist "xyz" "cat" Written default_engine).1.2 =
  (remember_choice_persist "xyz" "cat" Written default_engine).1.1.
Proof.
  apply (remember_choice_restart None "memory.json" default_engine "xyz" "cat" None).
  apply built_init.
Defined.

Lemma bool_eq_of_iff (b1 b2 : bool) : (b1 = true ↔ b2 = true) → b1 = b2.
Proof. destruct b1, b2; intros [H1 H2]; auto; by (symmetry; auto) || (exfalso; auto using eq_sym). Qed.

Lemma candidates_ext self self' ib md :
  indexed self →
  dictionary self' = dictionary self →
  words_by_length self' = words_by_length self →
  (∀ w, w ∈ dictionary self → is_learned_value self' w = is_learned_value self w) →
  candidates self' ib md = candidates self ib md.
Proof.
  intros Hidx Hd Hw Hlv. unfold candidates.
  induction (search_lengths (len ib) md) as [|L Ls IH]; simpl; [done|].
  rewrite IH. f_equal. unfold bucket. rewrite Hw.
  pose proof (indexed_bucket _ Hidx L) as Hb. unfold bucket in Hb.
  induction (default [] (words_by_length self !! L)) as [|w b IHb]; simpl; [done|].
  rewrite IHb by (intros w' Hw'; apply Hb; by right).
  f_equal. unfold candidate. rewrite Hlv; [done|].
  apply Hb. left.
Qed.

(** X14. Learning a correction that is not a dictionary word, for a typed
    word that had none, changes no answer: every later call of
    [suggest_words] returns what it returned before. *)
Theorem remember_unknown_word_inert self typed corrected w k md :
  reachable self →
  user_corrections self !! lower typed = None →
  lower corrected ∉ dictionary self →
  (suggest_words_exit w k md (remember_choice typed corrected self)).1 =
  (suggest_words_exit w k md self).1.
Proof.
  intros Hr Hfresh Hout.
  pose proof (reachable_indexed _ Hr) as Hidx.
  pose proof (reachable_indexed _ (reachable_remember typed corrected _ Hr)) as Hidx'.
  rewrite !suggest_words_exit_run by done. simpl. f_equal.
  assert (Hhit : learned_hit (remember_choice typed corrected self) w =
                 learned_hit self w).
  { unfold learned_hit, remember_choice. simpl.
    destruct (decide (lower typed = lower w)) as [Heq|Hne].
    - rewrite <-Heq, lookup_insert_eq, Hfresh. by rewrite bool_decide_false.
    - by rewrite lookup_insert_ne. }
  rewrite Hhit. destruct (learned_hit self w); [done|].
  rewrite (candidates_ext self); [done..|].
  intros w' Hw'. apply bool_eq_of_iff. rewrite !is_learned_value_spec. simpl.
  split.
  - intros [t Ht]. destruct (decide (lower typed = t)) as [<-|Hne].
    + rewrite lookup_insert_eq in Ht. injection Ht as <-. done.
    + rewrite lookup_insert_ne in Ht by done. eauto.
  - intros [t Ht]. exists t. rewrite lookup_insert_ne; [done|]. congruence.
Qed.

Lemma remember_unknown_word_inert_witness :
  (suggest_words_exit "cak" 3 None (remember_choice "qqq" "zebra" default_engine)).1 =
  (suggest_words_exit "cak" 3 None default_engine).1.
Proof.
  apply (remember_unknown_word_inert default_engine "qqq" "zebra" "cak" 3 None).
  - apply reachable_init.
  - reflexivity.
  - apply (bool_decide_unpack _). vm_compute. exact I.
Defined.

(* ===================================================================== *)
(** * Further properties of the candidate search *)
(* ===================================================================== *)

Lemma elem_of_range lo hi x : x ∈ range lo hi ↔ lo <= x < hi.
Proof.
  unfold range. rewrite list_elem_of_fmap. split.
  - intros (k & -> & Hk%elem_of_seq). lia.
  - intros Hx. exists (Z.to_nat (x - lo)). split; [lia|].
    apply elem_of_seq. lia.
Qed.

(** The lengths scanned cover every positive length within the budget of
    the input length. *)
Lemma search_lengths_cover L md x :
  0 < x → Z.abs (x - L) <= md → x ∈ search_lengths L md.
Proof.
  intros Hx Habs. unfold search_lengths.
  destruct (decide (x = L)) as [->|Hne]; [left|]. right.
  apply list_elem_of_In, in_flat_map. exists (Z.abs (x - L)). split.
  - apply list_elem_of_In, elem_of_range. lia.
  - apply list_elem_of_In, elem_of_app.
    destruct (Z.lt_ge_cases x L).
    + left. replace (L - Z.abs (x - L)) with x by lia.
      destruct (Z.gtb_spec x 0); [left|lia].
    + right. replace (L + Z.abs (x - L)) with x by lia. left.
Qed.

Lemma candidates_complete self ib md w :
  indexed self → w ∈ dictionary self →
  Z.of_nat (distance ib (word_to_braille w)) <= md →
  ∃ c, (w, Z.of_nat (distance ib (word_to_braille w)), c) ∈ candidates self ib md.
Proof.
  intros Hidx Hw Hle. destruct (candidate_within self ib md w Hle) as [c Hc].
  exists c. unfold candidates. apply list_elem_of_In, in_flat_map.
  exists (len (word_to_braille w)). split.
  - apply list_elem_of_In, search_lengths_cover.
    + destruct (indexed_words _ Hidx w Hw) as [Hne _].
      rewrite len_word_to_braille. pose proof (len_pos w Hne). lia.
    + pose proof (lev_length_l (chars ib) (chars (word_to_braille w))).
      pose proof (lev_length_r (chars ib) (chars (word_to_braille w))).
      rewrite !length_chars in *. unfold distance, len in *. lia.
  - apply in_flat_map. exists w. split.
    + by apply list_elem_of_In, indexed_in_bucket.
    + apply list_elem_of_In. rewrite Hc. left.
Qed.

(** X15. Scanning only the buckets within the budget of the input length
    loses nothing: the words kept by the bucket search are exactly the
    dictionary words whose code is within the budget of the input code in
    true edit distance, each with that distance. *)
Theorem bucket_search_complete self ib md :
  reachable self →
  ∃ kept, search_candidates ib md self = (Ok kept, self) ∧
    (∀ w, (∃ x, x ∈ kept ∧ sg_word x = w) ↔
          (w ∈ dictionary self ∧
           levenshtein_optimized ib (word_to_braille w) None <= md)) ∧
    (∀ x, x ∈ kept →
          sg_distance x =
          levenshtein_optimized ib (word_to_braille (sg_word x)) None).
Proof.
  intros Hidx%reachable_indexed. rewrite search_candidates_run by done.
  eexists. split; [done|]. split.
  - intros w. rewrite levenshtein_optimized_None. split.
    + intros (x & Hx & <-).
      apply candidates_elem_of in Hx as (w & Hw & Hx); [|done].
      apply candidate_elem_of in Hx as (_ & Hle & ->). done.
    + intros [Hw Hle]. destruct (candidates_complete _ _ _ _ Hidx Hw Hle) as [c Hc].
      eauto.
  - intros x Hx. apply candidates_elem_of in Hx as (w & Hw & Hx); [|done].
    apply candidate_elem_of in Hx as (_ & _ & ->).
    by rewrite levenshtein_optimized_None.
Qed.

Lemma bucket_search_complete_witness :
  ∃ kept,
    search_candidates (word_to_braille "dg") 6 default_engine
      = (Ok kept, default_engine) ∧
    (∀ w, (∃ x, x ∈ kept ∧ sg_word x = w) ↔
          (w ∈ dictionary default_engine ∧
           levenshtein_optimized (word_to_braille "dg") (word_to_braille w) None <= 6)) ∧
    (∀ x, x ∈ kept →
          sg_distance x =
          levenshtein_optimized (word_to_braille "dg")
            (word_to_braille (sg_word x)) None).
Proof.
  apply (bucket_search_complete default_engine (word_to_braille "dg") 6),
    reachable_init.
Defined.

Lemma learned_hit_in_dictionary self w c :
  learned_hit self w = Some c → c ∈ dictionary self.
Proof.
  unfold learned_hit. destruct (user_corrections self !! lower w); [|done].
  case_bool_decide; [|done]. by intros [= <-].
Qed.

(** X16. Every suggestion is a dictionary word.  On the ranked and the
    fallback return its distance is the true edit distance between the
    two codes, never the sentinel: within the budget on the ranked
    return, beyond it on the fallback return, which is therefore taken
    only when no dictionary word is within the budget. *)
Theorem suggestions_are_dictionary_words self w k md :
  reachable self →
  ∃ ex l, suggest_words_exit w k md self = (Ok (ex, l), self) ∧
    ∀ x, x ∈ l →
      sg_word x ∈ dictionary self ∧
      (ex ≠ LearnedHit →
       sg_distance x =
       levenshtein_optimized (word_to_braille (lower w))
         (word_to_braille (sg_word x)) None) ∧
      (ex = Ranked → sg_distance x <= budget_of w md) ∧
      (ex = Fallback →
       ∀ w', w' ∈ dictionary self →
         budget_of w md <
         levenshtein_optimized (word_to_braille (lower w)) (word_to_braille w') None).
Proof.
  intros Hidx%reachable_indexed. rewrite suggest_words_exit_run by done.
  destruct (learned_hit self w) as [c|] eqn:Hhit.
  { eexists _, _. split; [done|]. intros x ->%list_elem_of_singleton.
    split; [by eapply learned_hit_in_dictionary|]. by repeat split. }
  cbv zeta.
  destruct (py_sort rank_lt _) as [|y rest] eqn:Hs.
  - eexists _, _. split; [done|]. intros x Hx.
    apply fallback_elem_of in Hx as (w0 & c & Hwc & ->).
    destruct (indexed_items _ Hidx _ _ Hwc) as [Hw0 ->].
    unfold sg_word, sg_distance. simpl. rewrite levenshtein_optimized_None.
    split; [done|]. split; [done|]. split; [done|]. intros _ w' Hw'.
    rewrite levenshtein_optimized_None.
    destruct (Z.lt_ge_cases (budget_of w md)
      (Z.of_nat (distance (word_to_braille (lower w)) (word_to_braille w'))))
      as [|Hle]; [done|].
    destruct (candidates_complete _ _ _ _ Hidx Hw' Hle) as [c Hc].
    apply py_sort_nil_inv in Hs. rewrite Hs in Hc. by apply elem_of_nil in Hc.
  - eexists _, _. split; [done|]. intros x Hx.
    destruct (slice_to_take (y :: rest) k) as [n Hn]. rewrite Hn in Hx.
    apply (subseteq_take n) in Hx. rewrite <-Hs in Hx.
    apply py_sort_elem_of, candidates_elem_of in Hx as (w0 & Hw0 & Hx); [|done].
    apply candidate_elem_of in Hx as (_ & Hle & ->).
    unfold sg_word, sg_distance. simpl. rewrite levenshtein_optimized_None.
    by repeat split.
Qed.

Lemma suggestions_are_dictionary_words_witness :
  ∃ ex l, suggest_words_exit "helllo" 3 None default_engine
            = (Ok (ex, l), default_engine) ∧
    ∀ x, x ∈ l → sg_word x ∈ dictionary default_engine.
Proof.
  destruct (suggestions_are_dictionary_words default_engine "helllo" 3 None
    ltac:(apply reachable_init)) as (ex & l & Hrun & Hall).
  exists ex, l. split; [exact Hrun|]. intros x Hx. apply (Hall x Hx).
Defined.

(** X17. Unless a learned correction answers, the first suggestion is a
    nearest dictionary word: no dictionary word has a code closer to the
    input code, in true edit distance, than the distance it reports. *)
Theorem top_suggestion_is_nearest self w k md x rest :
  reachable self →
  learned_hit self w = None →
  (suggest_words w k md self).1 = Ok (x :: rest) →
  sg_word x ∈ dictionary self ∧
  sg_distance x =
    levenshtein_optimized (word_to_braille (lower w)) (word_to_braille (sg_word x)) None ∧
  ∀ w', w' ∈ dictionary self →
    sg_distance x <=
    levenshtein_optimized (word_to_braille (lower w)) (word_to_braille w') None.
Proof.
  intros Hidx%reachable_indexed Hhit.
  rewrite suggest_words_run by done. rewrite Hhit. cbv zeta. simpl.
  set (ib := word_to_braille (lower w)). set (B := budget_of w md).
  destruct (py_sort rank_lt (candidates self ib B)) as [|y ys] eqn:Hs.
  - intros [= Hfb].
    destruct (dictionary self) as [|w0 ws] eqn:Hd.
    { assert (Hx : x ∈ fallback self ib) by (rewrite Hfb; left).
      apply fallback_elem_of in Hx as (w1 & c & Hwc & _).
      apply (indexed_items _ Hidx) in Hwc as [Hw1 _]. rewrite Hd in Hw1.
      by apply elem_of_nil in Hw1. }
    destruct (fallback_spec self ib Hidx) as (best & Hbest & Hin & Hmin);
      [by rewrite Hd|].
    rewrite Hbest in Hfb. injection Hfb as <- <-.
    unfold sg_word, sg_distance. simpl. rewrite Hd in *.
    rewrite levenshtein_optimized_None. split; [done|]. split; [done|].
    intros w' Hw'. rewrite levenshtein_optimized_None.
    specialize (Hmin w' Hw'). lia.
  - intros [= Hsl].
    assert (x = y) as ->.
    { unfold slice_to in Hsl. destruct (0 <=? k).
      - destruct (Z.to_nat k); simpl in Hsl; congruence.
      - destruct (length (y :: ys) - Z.to_nat (- k))%nat; simpl in Hsl; congruence. }
    assert (Hy : y ∈ candidates self ib B)
      by (apply (py_sort_elem_of rank_lt); rewrite Hs; left).
    pose proof Hy as Hy'.
    apply candidates_elem_of in Hy' as (w0 & Hw0 & Hy'); [|done].
    apply candidate_elem_of in Hy' as (_ & Hle & Heq).
    assert (Hd0 : sg_distance y = Z.of_nat (distance ib (word_to_braille w0)))
      by (by rewrite Heq).
    assert (Hwd : sg_word y = w0) by (by rewrite Heq).
    rewrite Hwd, Hd0, levenshtein_optimized_None.
    split; [done|]. split; [done|].
    intros w' Hw'. rewrite levenshtein_optimized_None.
    destruct (Z.lt_ge_cases B (Z.of_nat (distance ib (word_to_braille w'))))
      as [|Hle']; [lia|].
    destruct (candidates_complete _ _ _ _ Hidx Hw' Hle') as [c Hc].
    pose proof (py_sort_head_least rank_lt rank_lt_asym rank_not_after_trans
      _ _ _ Hs _ Hc) as Hmin.
    apply rank_not_after in Hmin as [Hmin _].
    unfold sg_distance in Hmin at 2. simpl in Hmin. lia.
Qed.

Lemma top_suggestion_is_nearest_witness :
  sg_word ("cap", 2, (944 # 1000)%Q) ∈ dictionary default_engine ∧
  sg_distance ("cap", 2, (944 # 1000)%Q) =
    levenshtein_optimized (word_to_braille (lower "cak"))
      (word_to_braille (sg_word ("cap", 2, (944 # 1000)%Q))) None ∧
  ∀ w', w' ∈ dictionary default_engine →
    sg_distance ("cap", 2, (944 # 1000)%Q) <=
    levenshtein_optimized (word_to_braille (lower "cak")) (word_to_braille w') None.
Proof.
  apply (top_suggestion_is_nearest default_engine "cak" 3 None
           ("cap", 2, (944 # 1000)%Q)
           [("car", 2, (944 # 1000)%Q); ("can", 2, (944 # 1000)%Q)]).
  - apply reachable_init.
  - reflexivity.
  - vm_compute. reflexivity.
Defined.

(** X18. Asking for more suggestions only extends the answer: for
    [1 <= k <= k'] the list returned for [k] is the first [k] entries of
    the list returned for [k']. *)
Theorem suggestions_prefix_in_k self w k k' md :
  reachable self →
  1 <= k <= k' →
  ∃ l l',
    suggest_words w k md self = (Ok l, self) ∧
    suggest_words w k' md self = (Ok l', self) ∧
    l = take (Z.to_nat k) l'.
Proof.
  intros Hidx%reachable_indexed [Hk Hkk].
  rewrite !suggest_words_run by done. eexists _, _. split; [done|]. split; [done|].
  destruct (learned_hit self w).
  { destruct (Z.to_nat k) eqn:Hn; [lia|]. simpl. by rewrite take_nil. }
  cbv zeta. destruct (py_sort rank_lt _) as [|y ys].
  - rewrite take_ge; [done|]. unfold fallback, slice_to. simpl.
    rewrite length_take. lia.
  - unfold slice_to. destruct (Z.leb_spec 0 k); [|lia].
    destruct (Z.leb_spec 0 k'); [|lia].
    rewrite take_take. f_equal. lia.
Qed.

Lemma suggestions_prefix_in_k_witness :
  ∃ l l',
    suggest_words "cak" 2 None default_engine = (Ok l, default_engine) ∧
    suggest_words "cak" 5 None default_engine = (Ok l', default_engine) ∧
    l = take (Z.to_nat 2) l'.
Proof.
  apply (suggestions_prefix_in_k default_engine "cak" 2 5 None).
  - apply reachable_init.
  - lia.
Defined.

(** X19. The input is matched without regard to case, on every engine
    state: a word and its lowercase form get the same outcome. *)
Theorem suggest_words_ignores_case self w k md :
  suggest_words_exit w k md self = suggest_words_exit (lower w) k md self ∧
  suggest_words w k md self = suggest_words (lower w) k md self.
Proof.
  assert (H : suggest_words_exit w k md self = suggest_words_exit (lower w) k md self).
  { unfold suggest_words_exit. by rewrite lower_idemp. }
  split; [done|]. unfold suggest_words, bind. by rewrite H.
Qed.

(** X20. With an empty dictionary (an empty or blank dictionary file)
    there is nothing to suggest: the result is the empty list, for every
    input, count, budget and memory content. *)
Theorem empty_dictionary_suggests_nothing self w k md :
  reachable self → dictionary self = [] →
  suggest_words w k md self = (Ok [], self).
Proof.
  intros Hr Hd. pose proof (reachable_indexed _ Hr) as Hidx.
  rewrite suggest_words_run by done.
  destruct (learned_hit self w) as [c|] eqn:Hhit.
  { apply learned_hit_in_dictionary in Hhit. rewrite Hd in Hhit.
    by apply elem_of_nil in Hhit. }
  cbv zeta.
  assert (Hc : candidates self (word_to_braille (lower w)) (budget_of w md) = []).
  { destruct (candidates _ _ _) as [|x xs] eqn:Hx; [done|].
    assert (Hin : x ∈ candidates self (word_to_braille (lower w)) (budget_of w md))
      by (rewrite Hx; left).
    apply candidates_elem_of in Hin as (w0 & Hw0 & _); [|done].
    rewrite Hd in Hw0. by apply elem_of_nil in Hw0. }
  rewrite Hc. simpl.
  destruct (fallback self (word_to_braille (lower w))) as [|x xs] eqn:Hf; [done|].
  assert (Hin : x ∈ fallback self (word_to_braille (lower w))) by (rewrite Hf; left).
  apply fallback_elem_of in Hin as (w0 & c & Hwc & _).
  apply (indexed_items _ Hidx) in Hwc as [Hw0 _]. rewrite Hd in Hw0.
  by apply elem_of_nil in Hw0.
Qed.

Lemma empty_dictionary_suggests_nothing_witness :
  suggest_words "cat" 5 None (init (Some ["  "; ""]) "memory.json" None) =
  (Ok [], init (Some ["  "; ""]) "memory.json" None).
Proof.
  apply empty_dictionary_suggests_nothing.
  - apply reachable_init.
  - reflexivity.
Defined.

(** ** Ties in the fallback *)

(** The head of a stably sorted list is the first of the least elements of
    the list it was sorted from. *)
Lemma py_sort_head_first {A} (lt : A → A → bool) (l : list A) x rest :
  (∀ a b, lt a b = true → lt b a = false) →
  (∀ a b c, not_after lt a b → not_after lt b c → not_after lt a c) →
  py_sort lt l = x :: rest →
  ∃ pre post, l = pre ++ x :: post ∧
    (∀ y, y ∈ pre → lt x y = true) ∧ (∀ y, y ∈ post → lt y x = false).
Proof.
  intros Hasym Htrans. revert x rest.
  induction l as [|a l IH]; intros x rest Hs; [done|].
  change (py_sort lt (a :: l)) with (sort_insert lt a (py_sort lt l)) in Hs.
  destruct (py_sort lt l) as [|h t] eqn:Hl.
  { apply py_sort_nil_inv in Hl as ->. simpl in Hs. injection Hs as <- <-.
    exists [], []. split; [done|]. split; by intros y ?%elem_of_nil. }
  simpl in Hs. destruct (lt h a) eqn:Hha.
  - injection Hs as <- <-.
    destruct (IH h t eq_refl) as (pre & post & -> & Hpre & Hpost).
    exists (a :: pre), post. split; [done|]. split; [|done].
    intros y [->|Hy]%elem_of_cons; [done|by apply Hpre].
  - injection Hs as <- <-. exists [], l. split; [done|].
    split; [by intros y ?%elem_of_nil|]. intros y Hy.
    pose proof (py_sort_head_least lt Hasym Htrans h t l Hl y Hy) as Hhy.
    by apply (Htrans a h y).
Qed.

Lemma note_key_loop_extends words keys :
  ∃ extra, fold_left note_key words keys = keys ++ extra.
Proof.
  revert keys. induction words as [|w words IH]; intros keys; simpl.
  { exists []. by rewrite app_nil_r. }
  unfold note_key at 2. case_decide; [apply IH|].
  destruct (IH (keys ++ [w])) as [extra ->].
  exists (w :: extra). by rewrite <-(assoc_L (++)).
Qed.

Lemma NoDup_split_unique {A} (l1 l2 k1 k2 : list A) x :
  NoDup (l1 ++ x :: l2) → l1 ++ x :: l2 = k1 ++ x :: k2 → l1 = k1 ∧ l2 = k2.
Proof.
  revert k1. induction l1 as [|a l1 IH]; intros [|b k1] Hnd Heq; simpl in *.
  - by injection Heq as ->.
  - injection Heq as Hb Hl. subst b l2. apply NoDup_cons in Hnd as [Hnot _].
    destruct Hnot. apply elem_of_app. right. left.
  - injection Heq as Ha Hl. subst a k2. apply NoDup_cons in Hnd as [Hnot _].
    destruct Hnot. apply elem_of_app. right. left.
  - injection Heq as Ha Heq. subst b. apply NoDup_cons in Hnd as [_ Hnd].
    destruct (IH k1 Hnd Heq) as [-> ->]. done.
Qed.

(** X21. When the fallback is taken, its suggestion is the first
    dictionary word, in dictionary order, among those at the least
    unbounded distance: every word before its first occurrence is
    strictly farther, every word after it at least as far. *)
Theorem fallback_prefers_earliest self w k md best d c :
  reachable self →
  suggest_words_exit w k md self = (Ok (Fallback, [(best, d, c)]), self) →
  ∃ before after,
    dictionary self = before ++ best :: after ∧
    (best ∉ before) ∧
    (∀ w', w' ∈ before →
       d < levenshtein_optimized (word_to_braille (lower w)) (word_to_braille w') None) ∧
    (∀ w', w' ∈ after →
       d <= levenshtein_optimized (word_to_braille (lower w)) (word_to_braille w') None).
Proof.
  intros Hr. pose proof (reachable_indexed _ Hr) as Hidx.
  rewrite suggest_words_exit_run by done.
  destruct (learned_hit self w); [done|]. cbv zeta.
  set (ib := word_to_braille (lower w)).
  destruct (py_sort rank_lt _); [|done]. intros [= Hfb].
  unfold fallback in Hfb. rewrite braille_words_closed_form in Hfb by done.
  rewrite <-list_fmap_compose in Hfb.
  set (G := λ w0 : string, (w0, levenshtein_optimized ib (word_to_braille w0) None, 0%Q))
    in *.
  assert (Hfb' : slice_to (py_sort distance_lt (G <$> first_occurrences (dictionary self))) 1
                 = [(best, d, c)]) by exact Hfb.
  clear Hfb.
  destruct (py_sort distance_lt (G <$> first_occurrences (dictionary self)))
    as [|x xs] eqn:Hs; [done|].
  rewrite slice_to_one in Hfb'. injection Hfb' as ->.
  destruct (py_sort_head_first distance_lt _ _ _ distance_lt_asym
    distance_not_after_trans Hs) as (pre & post & Hsplit & Hpre & Hpost).
  apply fmap_app_inv in Hsplit as (kpre & krest & -> & Hrest & Hkeys).
  symmetry in Hrest. apply fmap_cons_inv in Hrest as (b0 & kpost & Hb0 & -> & ->).
  unfold G in Hb0. injection Hb0 as Hb Hd0 Hc0. subst b0 d c.
  destruct (note_key_loop_spec (dictionary self) [] NoDup_nil_2) as [Hnd Hel].
  fold (first_occurrences (dictionary self)) in Hnd, Hel. rewrite Hkeys in Hnd, Hel.
  assert (Hel' : ∀ w0, w0 ∈ kpre ++ best :: kpost ↔ w0 ∈ dictionary self)
    by (intros w0; rewrite Hel, elem_of_nil; tauto).
  assert (Hbest : best ∈ dictionary self).
  { apply Hel'. apply elem_of_app. right. left. }
  apply list_elem_of_split_l in Hbest as (before & after & Hd & Hnotin).
  exists before, after. split; [done|]. split; [done|].
  assert (Hlt : ∀ w', w' ∈ kpre →
    levenshtein_optimized ib (word_to_braille best) None <
    levenshtein_optimized ib (word_to_braille w') None).
  { intros w' Hw'. specialize (Hpre (G w') (list_elem_of_fmap_2 _ _ _ Hw')).
    unfold distance_lt, G, sg_distance in Hpre. simpl in Hpre. by apply Z.ltb_lt. }
  assert (Hle : ∀ w', w' ∈ kpost →
    levenshtein_optimized ib (word_to_braille best) None <=
    levenshtein_optimized ib (word_to_braille w') None).
  { intros w' Hw'. specialize (Hpost (G w') (list_elem_of_fmap_2 _ _ _ Hw')).
    unfold distance_lt, G, sg_distance in Hpost. simpl in Hpost. by apply Z.ltb_ge. }
  assert (Hk1 : kpre = first_occurrences before).
  { unfold first_occurrences in Hkeys. rewrite Hd, fold_left_app in Hkeys.
    simpl in Hkeys.
    destruct (note_key_loop_spec before [] NoDup_nil_2) as [_ Hel1].
    fold (first_occurrences before) in Hkeys, Hel1.
    unfold note_key in Hkeys at 2. rewrite decide_False in Hkeys.
    2:{ rewrite Hel1, elem_of_nil. tauto. }
    destruct (note_key_loop_extends after (first_occurrences before ++ [best]))
      as [extra Hex].
    rewrite Hex, <-(assoc_L (++)) in Hkeys. simpl in Hkeys.
    symmetry in Hkeys. by destruct (NoDup_split_unique _ _ _ _ _ Hnd Hkeys). }
  split.
  - intros w' Hw'. apply Hlt. rewrite Hk1.
    destruct (note_key_loop_spec before [] NoDup_nil_2) as [_ Hel1].
    fold (first_occurrences before) in Hel1. apply Hel1. by right.
  - intros w' Hw'.
    assert (Hin : w' ∈ kpre ++ best :: kpost).
    { apply Hel'. rewrite Hd. apply elem_of_app. right. by right. }
    apply elem_of_app in Hin as [Hin|[->|Hin]%elem_of_cons].
    + specialize (Hlt w' Hin). lia.
    + lia.
    + by apply Hle.
Qed.

Lemma fallback_prefers_earliest_witness :
  ∃ before after,
    dictionary default_engine = before ++ "hello" :: after ∧
    ("hello" ∉ before) ∧
    (∀ w', w' ∈ before →
       6 < levenshtein_optimized (word_to_braille (lower "helllo"))
             (word_to_braille w') None) ∧
    (∀ w', w' ∈ after →
       6 <= levenshtein_optimized (word_to_braille (lower "helllo"))
              (word_to_braille w') None).
Proof.
  apply (fallback_prefers_earliest default_engine "helllo" 3 None "hello" 6 0%Q).
  - apply reachable_init.
  - vm_compute. reflexivity.
Defined.

(* ===================================================================== *)
(** * The compatibility functions *)
(* ===================================================================== *)

(** The search on an engine whose caches were filled from the words [ws],
    whatever its [dictionary] attribute now holds. *)
Section CachedFrom.
Variable ws : list string.
Variable self : Engine.
Hypothesis Hcache : indexed_upto ws self.
Hypothesis Hwords : ∀ w, w ∈ ws → w ≠ EmptyString.

Lemma score_word_cached ib md acc w :
  w ∈ ws → score_word ib md acc w self = (Ok (acc ++ candidate self ib md w), self).
Proof.
  intros Hw. unfold score_word, candidate, bind, get_self, dict_getitem.
  rewrite (upto_code _ _ Hcache w Hw). unfold ret at 1.
  destruct (_ <=? _); [|by rewrite app_nil_r].
  unfold true_div. pose proof (len_nonneg ib).
  pose proof (len_pos w (Hwords w Hw)). pose proof (len_word_to_braille w).
  destruct (Z.eqb_spec (len ib + len (word_to_braille w)) 0); [lia|done].
Qed.

Lemma score_bucket_cached ib md acc b :
  (∀ w, w ∈ b → w ∈ ws) →
  foldM (score_word ib md) acc b self =
  (Ok (acc ++ flat_map (candidate self ib md) b), self).
Proof.
  revert acc. induction b as [|w b IH]; intros acc Hb; simpl.
  { by rewrite app_nil_r. }
  unfold bind. rewrite score_word_cached by (apply Hb; left).
  rewrite IH by (intros; apply Hb; by right). by rewrite (assoc_L (++)).
Qed.

Lemma scan_length_cached ib md acc L :
  scan_length ib md acc L self =
  (Ok (acc ++ flat_map (candidate self ib md) (bucket self L)), self).
Proof.
  unfold scan_length, bind, get_self.
  pose proof (upto_bucket _ _ Hcache L) as Hb. unfold bucket in *.
  case_bool_decide as Hin.
  - destruct Hin as [b HL]. rewrite HL in *. simpl in *.
    rewrite (words_by_length_getitem_present _ _ _ HL).
    apply score_bucket_cached. intros w Hw. by apply Hb.
  - apply eq_None_not_Some in Hin. rewrite Hin. simpl. by rewrite app_nil_r.
Qed.

Lemma search_candidates_cached ib md :
  search_candidates ib md self = (Ok (candidates self ib md), self).
Proof.
  unfold search_candidates, candidates.
  generalize (search_lengths (len ib) md). intros Ls.
  change (candidates self ib md) with (candidates self ib md).
  assert (H : ∀ acc, foldM (scan_length ib md) acc Ls self =
    (Ok (acc ++ flat_map (λ L, flat_map (candidate self ib md) (bucket self L)) Ls),
     self)); [|apply (H [])].
  induction Ls as [|L Ls IH]; intros acc; simpl.
  { by rewrite app_nil_r. }
  unfold bind. rewrite scan_length_cached, IH. by rewrite (assoc_L (++)).
Qed.

Lemma suggest_words_cached w k md :
  suggest_words w k md self =
  (Ok match learned_hit self w with
      | Some learned_word => [(learned_word, 0, 1%Q)]
      | None =>
          match py_sort rank_lt
                  (candidates self (word_to_braille (lower w)) (budget_of w md)) with
          | [] => fallback self (word_to_braille (lower w))
          | x :: rest => slice_to (x :: rest) k
          end
      end, self).
Proof.
  unfold suggest_words, suggest_words_exit, learned_hit, bind, get_self.
  destruct (match user_corrections self !! lower w with
            | Some _ => _ | None => _ end); [done|].
  fold (budget_of w md). rewrite search_candidates_cached.
  by destruct (py_sort rank_lt _).
Qed.

Lemma candidates_cached_words ib md x :
  x ∈ candidates self ib md → sg_word x ∈ ws.
Proof.
  unfold candidates. rewrite list_elem_of_In, in_flat_map.
  intros (L & _ & Hx). apply in_flat_map in Hx as (w & Hw & Hx).
  apply list_elem_of_In in Hw, Hx.
  apply candidate_elem_of in Hx as (_ & _ & ->).
  by apply (upto_bucket _ _ Hcache L).
Qed.

Lemma fallback_cached_words ib x : x ∈ fallback self ib → sg_word x ∈ ws.
Proof.
  intros (w & c & Hwc & ->)%fallback_elem_of.
  by apply (upto_items _ _ Hcache) in Hwc as [? _].
Qed.

Lemma fallback_cached_nonempty ib : ws ≠ [] → fallback self ib ≠ [].
Proof.
  intros Hne Hfb. destruct ws as [|w0 ws'] eqn:Hws; [done|].
  pose proof (upto_code _ _ Hcache w0 ltac:(left)) as Hc.
  apply dict_get_elem_of in Hc.
  unfold fallback in Hfb.
  destruct (py_sort distance_lt _) as [|y ys] eqn:Hs; [|done].
  apply py_sort_nil_inv, fmap_nil_inv in Hs. rewrite Hs in Hc.
  by apply elem_of_nil in Hc.
Qed.

End CachedFrom.

Lemma indexed_upto_set_dictionary ws words self :
  indexed_upto ws self → indexed_upto ws (set_dictionary words self).
Proof. intros [? ? ? ?]. by split. Qed.

(** The corrector that [suggest_word] searches: its caches were filled
    from the sample file and then from the caller's word list, and only
    the latter is its [dictionary]. *)
Lemma compat_corrector file mf stored words :
  let corrector := _preprocess_dictionary (set_dictionary words (init file mf stored)) in
  indexed_upto (load_dictionary file ++ words) corrector ∧
  dictionary corrector = words ∧
  user_corrections corrector = load_memory stored.
Proof.
  intros corrector. unfold corrector, _preprocess_dictionary.
  change (dictionary (set_dictionary words (init file mf stored))) with words.
  assert (H0 : indexed_upto (load_dictionary file) (init file mf stored)).
  { unfold init, _preprocess_dictionary. simpl.
    by destruct (indexed_upto_loop (load_dictionary file) []
      (mkEngine (load_dictionary file) mf (load_memory stored) [] ∅)
      (indexed_upto_start _ _ _)) as [? _]. }
  destruct (indexed_upto_loop words (load_dictionary file)
    (set_dictionary words (init file mf stored))
    (indexed_upto_set_dictionary _ _ _ H0)) as (H1 & H2 & H3).
  split; [done|]. split; [by rewrite H2|].
  rewrite H3. simpl. apply user_corrections_init.
Qed.

(** X22. [suggest_word], given a word list without the empty word,
    returns without exception.  What it returns is a word of the caller's
    list or of the sample dictionary file, whose words stay in the index
    although they are no longer in the corrector's dictionary, and it
    records that word as the learned correction of the input; only when
    both lists are empty does it hand the input back and record
    nothing. *)
Theorem compat_suggest_word_result input_word words file mf stored outcome :
  (∀ w, w ∈ words → w ≠ EmptyString) →
  ∃ r disk,
    Compat.suggest_word input_word words file mf stored outcome = (Ok r, disk) ∧
    (((r ∈ load_dictionary file ∨ r ∈ words) ∧
      disk = match outcome with
             | Written => Some (<[lower input_word := lower r]> (load_memory stored))
             | WriteFailed left_behind => left_behind
             end) ∨
     (load_dictionary file = [] ∧ words = [] ∧ r = input_word ∧ disk = stored)).
Proof.
  intros Hwords. unfold Compat.suggest_word.
  destruct (compat_corrector file mf stored words) as (Hc & Hd & Hu).
  set (corrector := _preprocess_dictionary
    (set_dictionary words (init file mf stored))) in *.
  assert (Hne : ∀ w, w ∈ load_dictionary file ++ words → w ≠ EmptyString).
  { intros w [Hw|Hw]%elem_of_app; [|by apply Hwords].
    by apply load_dictionary_words in Hw as [? _]. }
  rewrite (suggest_words_cached _ _ Hc Hne).
  assert (Hdisk : ∀ best,
    (remember_choice_persist input_word best outcome corrector).1.2 =
    match outcome with
    | Written => Some (<[lower input_word := lower best]> (load_memory stored))
    | WriteFailed left_behind => left_behind
    end).
  { intros best. unfold remember_choice_persist. destruct outcome; simpl; [|done].
    by rewrite Hu. }
  destruct (learned_hit corrector input_word) as [c|] eqn:Hhit.
  { eexists _, _. split; [done|]. left. split; [|apply Hdisk].
    apply learned_hit_in_dictionary in Hhit. rewrite Hd in Hhit. by right. }
  destruct (py_sort rank_lt _) as [|y ys] eqn:Hs.
  - destruct (fallback corrector (word_to_braille (lower input_word)))
      as [|x xs] eqn:Hfb.
    + eexists _, _. split; [done|]. right.
      destruct (decide (load_dictionary file ++ words = [])) as [Hnil|Hnn].
      * apply app_eq_nil in Hnil as [-> ->]. done.
      * by destruct (fallback_cached_nonempty _ _ Hc Hne
          (word_to_braille (lower input_word)) Hnn).
    + eexists _, _. split; [done|]. left. split; [|apply Hdisk].
      apply elem_of_app, (fallback_cached_words _ _ Hc
        (word_to_braille (lower input_word))). rewrite Hfb. left.
  - rewrite slice_to_one. eexists _, _. split; [done|]. left.
    split; [|apply Hdisk].
    apply elem_of_app, (candidates_cached_words _ _ Hc
      (word_to_braille (lower input_word)) (budget_of input_word None)).
    apply (py_sort_elem_of rank_lt). rewrite Hs. left.
Qed.

Lemma compat_suggest_word_result_witness :
  ∃ r disk,
    Compat.suggest_word "cat" ["dog"] None "memory.json" None Written = (Ok r, disk) ∧
    (((r ∈ load_dictionary None ∨ r ∈ ["dog"]) ∧
      disk = Some (<["cat" := lower r]> (load_memory None))) ∨
     (load_dictionary None = [] ∧ ["dog"] = [] ∧ r = "cat" ∧ disk = None)).
Proof.
  apply (compat_suggest_word_result "cat" ["dog"] None "memory.json" None Written).
  intros w Hw. apply list_elem_of_singleton in Hw. rewrite Hw. discriminate.
Defined.

(** The stale index at work: asked for the best match of "cat" in the
    one-word list "dog", [suggest_word] answers "cat", a word of the
    sample dictionary. *)
Example compat_suggest_word_stale :
  (Compat.suggest_word "cat" ["dog"] None "memory.json" None Written).1 = Ok "cat".
Proof. by vm_compute. Qed.

Lemma len_zero_empty s : len s = 0 → s = EmptyString.
Proof. destruct s; [done|]. unfold len. simpl. lia. Qed.

(** Scoring the empty word against the empty input divides by zero. *)
Lemma score_empty_word_raises self acc :
  dict_get EmptyString (braille_words self) = Some EmptyString →
  score_word EmptyString 6 acc EmptyString self = (Raise ZeroDivisionError, self).
Proof.
  intros Hc. unfold score_word, bind, get_self, dict_getitem. by rewrite Hc.
Qed.

(** X23. [suggest_word] crashes on the empty input once the caller's word
    list contains the empty word: unless a learned correction answers
    first, the search meets that word in the bucket of length 0 at
    distance 0 and the confidence [1 - 0 / (0 + 0)] raises
    [ZeroDivisionError]; nothing is learned. *)
Theorem compat_suggest_word_empty_word words file mf stored outcome :
  EmptyString ∈ words →
  (∀ c, load_memory stored !! EmptyString = Some c → c ∉ words) →
  Compat.suggest_word EmptyString words file mf stored outcome =
  (Raise ZeroDivisionError, stored).
Proof.
  intros Hin Hmem. unfold Compat.suggest_word.
  destruct (compat_corrector file mf stored words) as (Hc & Hd & Hu).
  set (corrector := _preprocess_dictionary
    (set_dictionary words (init file mf stored))) in *.
  assert (Hws : EmptyString ∈ load_dictionary file ++ words)
    by (apply elem_of_app; by right).
  assert (Hscan : ∀ acc, scan_length EmptyString 6 acc 0 corrector =
                         (Raise ZeroDivisionError, corrector)).
  { intros acc. unfold scan_length, bind, get_self.
    pose proof (upto_in_bucket _ _ Hc _ Hws) as Hb.
    pose proof (upto_bucket _ _ Hc 0) as Hsound.
    change (len (word_to_braille EmptyString)) with 0 in Hb.
    unfold bucket in Hb, Hsound.
    destruct (words_by_length corrector !! 0) as [b|] eqn:HL;
      [|by apply elem_of_nil in Hb].
    rewrite bool_decide_true by eauto.
    rewrite (words_by_length_getitem_present _ _ _ HL). simpl in Hb, Hsound.
    destruct b as [|w0 b]; [by apply elem_of_nil in Hb|].
    destruct (Hsound w0 ltac:(left)) as [_ Hlen].
    rewrite len_word_to_braille in Hlen.
    assert (w0 = EmptyString) as -> by (apply len_zero_empty; lia).
    simpl. unfold bind. rewrite score_empty_word_raises; [done|].
    by apply (upto_code _ _ Hc). }
  assert (Hrun : suggest_words EmptyString 1 None corrector =
                 (Raise ZeroDivisionError, corrector)).
  { unfold suggest_words, suggest_words_exit, bind, get_self.
    change (lower EmptyString) with EmptyString. rewrite Hu.
    assert (match load_memory stored !! EmptyString with
            | Some learned_word =>
                if bool_decide (learned_word ∈ dictionary corrector)
                then Some learned_word else None
            | None => None
            end = None) as ->.
    { destruct (load_memory stored !! EmptyString) as [c|] eqn:Hl; [|done].
      rewrite bool_decide_false; [done|]. rewrite Hd. by apply Hmem. }
    change (word_to_braille EmptyString) with EmptyString.
    change (adaptive_max_distance EmptyString) with 6.
    unfold search_candidates.
    change (search_lengths (len EmptyString) 6) with
      (0 :: flat_map (λ i, (if 0 - i >? 0 then [0 - i] else []) ++ [0 + i])
              (range 1 (6 + 1))).
    cbn [foldM]. unfold bind. by rewrite Hscan. }
  by rewrite Hrun.
Qed.

Lemma compat_suggest_word_empty_word_witness :
  Compat.suggest_word "" ["cat"; ""] None "memory.json" None Written =
  (Raise ZeroDivisionError, None).
Proof.
  apply (compat_suggest_word_empty_word ["cat"; ""] None "memory.json" None Written).
  - apply list_elem_of_further, list_elem_of_here.
  - intros c Hc. discriminate Hc.
Defined.

(* ===================================================================== *)
(** * The web handlers *)
(* ===================================================================== *)

Lemma round3_fixed (z : Z) (q : Q) : (q == z # 1000)%Q → (round3 q == q)%Q.
Proof.
  intros Hq. transitivity (z # 1000)%Q; [by apply round3_exact|by symmetry].
Qed.

Lemma round3_idemp q : (round3 (round3 q) == round3 q)%Q.
Proof. by apply (round3_fixed (round_half_even (q * 1000))). Qed.

(** Every confidence that [suggest_words] returns is already a number of
    at most three decimals. *)
Lemma returned_confidence_rounded self w k md l x :
  reachable self →
  suggest_words w k md self = (Ok l, self) → x ∈ l →
  (round3 (sg_confidence x) == sg_confidence x)%Q.
Proof.
  intros Hidx%reachable_indexed. rewrite suggest_words_run by done.
  intros [= <-] Hx. destruct (learned_hit self w).
  { apply list_elem_of_singleton in Hx as ->. by apply (round3_fixed 1000). }
  cbv zeta in Hx. destruct (py_sort rank_lt _) as [|y rest] eqn:Hs.
  { apply fallback_elem_of in Hx as (w' & c & _ & ->). by apply (round3_fixed 0). }
  destruct (slice_to_take (y :: rest) k) as [n Hn]. rewrite Hn in Hx.
  apply (subseteq_take n) in Hx. rewrite <-Hs in Hx.
  apply py_sort_elem_of, candidates_elem_of in Hx as (w' & Hw' & Hx); [|done].
  apply candidate_elem_of in Hx as (_ & _ & ->). apply round3_idemp.
Qed.

Lemma Forall2_fmap_pointwise {A B} (P : A → B → Prop) (f : A → B) (l : list A) :
  (∀ x, x ∈ l → P x (f x)) → Forall2 P l (f <$> l).
Proof.
  induction l as [|a l IH]; intros H; simpl; constructor.
  - apply H. left.
  - apply IH. intros x Hx. apply H. by right.
Qed.

(** X24. [/api/suggest] answers with the suggestions of [suggest_words]
    for the stripped word and the requested count (5 when absent): same
    words, same distances, and confidences that the second rounding of
    the handler leaves as they are; the corrector is unchanged.  A body
    without a word is refused and the corrector is not consulted. *)
Theorem api_suggest_payload self word k :
  reachable self →
  (∃ l l',
     suggest_words (strip word) (default 5 k) None self = (Ok l, self) ∧
     WebApp.api_suggest (Some (WebApp.mkSuggestRequest (Some word) k)) self =
       (Ok (WebApp.SuggestOk (strip word) l' (get_stats self)), self) ∧
     Forall2 (λ x y, sg_word y = sg_word x ∧ sg_distance y = sg_distance x ∧
                     (sg_confidence y == sg_confidence x)%Q) l l') ∧
  WebApp.api_suggest (Some (WebApp.mkSuggestRequest None k)) self =
    (Ok WebApp.SuggestMissingWord, self) ∧
  WebApp.api_suggest None self = (Ok WebApp.SuggestMissingWord, self).
Proof.
  intros Hr. split; [|done].
  pose proof (reachable_indexed _ Hr) as Hidx.
  pose proof (suggest_words_run self (strip word) (default 5 k) None Hidx) as Hrun.
  eexists _, _. split; [exact Hrun|]. unfold WebApp.api_suggest, bind.
  rewrite Hrun. split; [reflexivity|].
  apply Forall2_fmap_pointwise. intros x Hx. split; [done|]. split; [done|].
  by apply (returned_confidence_rounded self (strip word) (default 5 k) None _ x Hr Hrun).
Qed.

Lemma api_suggest_payload_witness :
  WebApp.api_suggest (Some (WebApp.mkSuggestRequest None (Some 3))) default_engine =
  (Ok WebApp.SuggestMissingWord, default_engine).
Proof.
  apply (api_suggest_payload default_engine "cak" (Some 3)), reachable_init.
Defined.

(** X25. Confirming a suggestion on the page: a [POST] to [/] with
    [learn = true], a non-blank word and a non-empty confirmed word whose
    lowercase form is in the dictionary stores the correction under the
    stripped word and renders exactly that one suggestion, with distance 0
    and confidence 1.0, whatever the engine held before. *)
Theorem home_confirm_shows_learned self disk outcome form word confirm :
  form !! "word" = Some word →
  form !! "learn" = Some "true" →
  form !! "confirm_word" = Some confirm →
  strip word ≠ EmptyString →
  confirm ≠ EmptyString →
  lower confirm ∈ dictionary self →
  let self' := remember_choice (strip word) confirm self in
  WebApp.home (WebApp.POST form) outcome self disk =
  (Ok (WebApp.mkPage (Some [(lower confirm, 0, 1%Q)]) (Some (strip word))
         (get_stats self')),
   self',
   (remember_choice_persist (strip word) confirm outcome self).1.2).
Proof.
  intros Hw Hl Hc Hne Hcne Hdict self'. unfold WebApp.home. rewrite Hw, Hl, Hc.
  change (default EmptyString (Some word)) with word.
  rewrite !bool_decide_true by done.
  assert (Hpers : (remember_choice_persist (strip word) confirm outcome self).1
                  = (self', (remember_choice_persist (strip word) confirm outcome self).1.2))
    by (unfold remember_choice_persist; by destruct outcome).
  rewrite Hpers. cbv beta iota zeta.
  assert (Hrun : suggest_words (strip word) 5 None self' =
                 (Ok [(lower confirm, 0, 1%Q)], self')).
  { apply (suggest_words_of_exit _ _ _ _ LearnedHit), learned_hit_returns; [|done].
    apply lookup_insert_eq. }
  by rewrite Hrun.
Qed.

Lemma home_confirm_shows_learned_witness :
  WebApp.home
    (WebApp.POST {[ "word" := " xyz "; "learn" := "true"; "confirm_word" := "Cat" ]})
    Written default_engine None =
  (Ok (WebApp.mkPage (Some [("cat", 0, 1%Q)]) (Some "xyz") (mkStats 9 1 9)),
   remember_choice "xyz" "Cat" default_engine,
   Some {[ "xyz" := "cat" ]}).
Proof.
  apply (home_confirm_shows_learned default_engine None Written
           {[ "word" := " xyz "; "learn" := "true"; "confirm_word" := "Cat" ]}
           " xyz " "Cat").
  - reflexivity.
  - reflexivity.
  - reflexivity.
  - discriminate.
  - discriminate.
  - apply (bool_decide_unpack _). vm_compute. exact I.
Defined.

(** ** Keys with surrounding white space *)

Lemma is_space_lower_char c : is_space (lower_char c) = is_space c.
Proof. by destruct c as [[] [] [] [] [] [] [] []]. Qed.

Lemma chars_lower s : chars (lower s) = lower_char <$> chars s.
Proof.
  induction s as [|c s IH]; [done|]. cbn [lower].
  change (chars (String (lower_char c) (lower s))) with (lower_char c :: chars (lower s)).
  change (chars (String c s)) with (c :: chars s).
  by rewrite IH.
Qed.

Lemma chars_rev_app s t : chars (String.rev_app s t) = reverse (chars s) ++ chars t.
Proof.
  revert t. induction s as [|c s IH]; intros t; [done|].
  cbn [String.rev_app]. rewrite IH.
  change (chars (String c s)) with (c :: chars s).
  change (chars (String c t)) with (c :: chars t).
  by rewrite reverse_cons, <-app_assoc.
Qed.

Lemma chars_rev s : chars (String.rev s) = reverse (chars s).
Proof. unfold String.rev. rewrite chars_rev_app. apply app_nil_r. Qed.

Lemma string_rev_involutive s : String.rev (String.rev s) = s.
Proof. apply chars_inj. by rewrite !chars_rev, reverse_involutive. Qed.

(** [lstrip] removes a prefix and leaves no white space in front. *)
Lemma lstrip_spec s :
  ∃ p, chars s = p ++ chars (lstrip s) ∧
       ∀ c, head (chars (lstrip s)) = Some c → is_space c = false.
Proof.
  induction s as [|c s (p & Hp & Hh)]; [by exists []|].
  cbn [lstrip]. destruct (is_space c) eqn:Hc.
  - exists (c :: p). split; [|done].
    change (chars (String c s)) with (c :: chars s). by rewrite Hp.
  - exists []. split; [done|]. by intros c' [= <-].
Qed.

Lemma lstrip_fixed s :
  (∀ c, head (chars s) = Some c → is_space c = false) → lstrip s = s.
Proof.
  destruct s as [|c s]; [done|]. intros H. cbn [lstrip]. by rewrite (H c).
Qed.

Lemma strip_unpadded s : unpadded (chars (strip s)).
Proof.
  unfold strip.
  destruct (lstrip_spec s) as (p & Hp & Hh).
  destruct (lstrip_spec (String.rev (lstrip s))) as (q & Hq & Hl).
  set (v := lstrip (String.rev (lstrip s))) in *.
  rewrite chars_rev in Hq |- *. split.
  - intros c Hc. apply Hh.
    apply (f_equal reverse) in Hq. rewrite reverse_involutive, reverse_app in Hq.
    rewrite Hq. by destruct (reverse (chars v)).
  - intros c Hc. rewrite last_reverse in Hc. by apply Hl.
Qed.

Lemma strip_fixed s : unpadded (chars s) → strip s = s.
Proof.
  intros [Hh Hl]. unfold strip. rewrite (lstrip_fixed s Hh).
  rewrite lstrip_fixed; [apply string_rev_involutive|].
  intros c. rewrite chars_rev, head_reverse. apply Hl.
Qed.

Lemma unpadded_lower_eq a b :
  lower a = lower b → unpadded (chars a) → unpadded (chars b).
Proof.
  intros Heq%(f_equal chars). rewrite !chars_lower in Heq. intros [Hh Hl]. split.
  - intros c Hc. apply (f_equal head) in Heq.
    destruct (chars a) as [|c' ?], (chars b) as [|c'' ?]; try done.
    simpl in *. injection Hc as ->. injection Heq as Heq.
    rewrite <-is_space_lower_char, <-Heq, is_space_lower_char. by apply Hh.
  - intros c Hc. apply (f_equal last) in Heq. rewrite !fmap_last, Hc in Heq.
    destruct (last (chars a)) as [c'|]; [|done]. injection Heq as Heq.
    rewrite <-is_space_lower_char, <-Heq, is_space_lower_char. by apply Hl.
Qed.

(** No stripped word has the lowercase form of a padded one. *)
Lemma padded_key_never_stripped typed word :
  strip typed ≠ typed → lower (strip word) ≠ lower typed.
Proof.
  intros Hne Heq. apply Hne, strip_fixed.
  apply (unpadded_lower_eq _ _ Heq), strip_unpadded.
Qed.

(** X26. [/api/learn] stores the typed word as it comes, while [/] and
    [/api/suggest] strip the word they look up.  A correction learned
    through [/api/learn] for a typed word with white space in front or
    behind is stored, yet no request to [/] or [/api/suggest] ever finds
    it: the first [return] of [suggest_words] answers a stripped word
    after the call exactly when it did before, and with the same word. *)
Theorem api_learn_padded_key_unreachable self disk outcome typed corrected :
  reachable self →
  strip typed ≠ typed →
  let self' :=
    (WebApp.api_learn (Some (WebApp.mkLearnRequest (Some typed) (Some corrected)))
       outcome self disk).1.2 in
  user_corrections self' !! lower typed = Some (lower corrected) ∧
  ∀ word,
    user_corrections self' !! lower (strip word) =
      user_corrections self !! lower (strip word) ∧
    ∀ k md l,
      (suggest_words_exit (strip word) k md self').1 = Ok (LearnedHit, l) ↔
      (suggest_words_exit (strip word) k md self).1 = Ok (LearnedHit, l).
Proof.
  intros Hr Hpad self'.
  assert (self' = remember_choice typed corrected self) as ->
    by (unfold self', WebApp.api_learn, remember_choice_persist; by destruct outcome).
  split; [apply lookup_insert_eq|]. intros word.
  assert (Hkey : user_corrections (remember_choice typed corrected self)
                   !! lower (strip word) =
                 user_corrections self !! lower (strip word)).
  { apply lookup_insert_ne. intros Heq. by apply (padded_key_never_stripped typed word). }
  split; [done|]. intros k md l.
  pose proof (reachable_indexed _ Hr) as Hidx.
  pose proof (reachable_indexed _ (reachable_remember typed corrected _ Hr)) as Hidx'.
  rewrite !suggest_words_exit_run by done. cbn [fst].
  assert (Hhit : learned_hit (remember_choice typed corrected self) (strip word) =
                 learned_hit self (strip word)).
  { unfold learned_hit. by rewrite Hkey. }
  rewrite Hhit. destruct (learned_hit self (strip word)); [done|]. cbv zeta.
  split; intros Hex.
  - by destruct (py_sort rank_lt _) in Hex.
  - by destruct (py_sort rank_lt _) in Hex.
Qed.

Lemma api_learn_padded_key_unreachable_witness :
  let self' :=
    (WebApp.api_learn (Some (WebApp.mkLearnRequest (Some " cak") (Some "cap")))
       Written default_engine None).1.2 in
  user_corrections self' !! " cak" = Some "cap" ∧
  ∀ word,
    user_corrections self' !! lower (strip word) =
      user_corrections default_engine !! lower (strip word) ∧
    ∀ k md l,
      (suggest_words_exit (strip word) k md self').1 = Ok (LearnedHit, l) ↔
      (suggest_words_exit (strip word) k md default_engine).1 = Ok (LearnedHit, l).
Proof.
  apply (api_learn_padded_key_unreachable default_engine None Written " cak" "cap").
  - apply reachable_init.
  - discriminate.
Defined.

(** ** What the handlers leave alone *)

Lemma only_learns_refl self : only_learns self self.
Proof. by repeat split. Qed.

Lemma only_learns_remember typed corrected self :
  only_learns self (remember_choice typed corrected self).
Proof.
  repeat split; try done. intros t Ht. cbn [remember_choice user_corrections].
  destruct (decide (lower typed = t)) as [<-|Hne].
  - rewrite lookup_insert_eq. eauto.
  - by rewrite lookup_insert_ne.
Qed.

(** X27. The handlers never touch the word list, the code cache, the
    length buckets or the name of the memory file, and never drop a
    learned key.  [/api/suggest] changes nothing at all; so does [/] on a
    [GET] and on a [POST] whose [learn] field is not [true], which also
    leave the memory file as it was. *)
Theorem handlers_only_learn self disk outcome :
  (∀ data, (WebApp.api_suggest data self).2 = self) ∧
  (∀ data, only_learns self (WebApp.api_learn data outcome self disk).1.2) ∧
  (∀ request,
     only_learns self (WebApp.home request outcome self disk).1.2 ∧
     ((∀ form, request = WebApp.POST form → form !! "learn" ≠ Some "true") →
      (WebApp.home request outcome self disk).1.2 = self ∧
      (WebApp.home request outcome self disk).2 = disk)).
Proof.
  split; [|split].
  - intros [[[word|] k]|]; [|done..]. unfold WebApp.api_suggest.
    apply read_only_bind; [apply read_only_suggest_words|].
    intros l. apply read_only_bind; [apply read_only_get_self|].
    intros; apply read_only_ret.
  - intros [[[typed|] [corrected|]]|]; try apply only_learns_refl.
    unfold WebApp.api_learn, remember_choice_persist.
    destruct outcome; apply only_learns_remember.
  - intros [|form].
    { split; [apply only_learns_refl|]. intros _. by split. }
    unfold WebApp.home.
    set (input_word := strip (default EmptyString (form !! "word"))).
    set (st := if bool_decide (form !! "learn" = Some "true") then _ else _).
    assert (Hst : only_learns self st.1 ∧
                  (form !! "learn" ≠ Some "true" → st = (self, disk))).
    { unfold st. case_bool_decide as Hl; [|split; [apply only_learns_refl|done]].
      split; [|done]. destruct (form !! "confirm_word") as [confirm|];
        [|apply only_learns_refl].
      case_bool_decide; [|apply only_learns_refl].
      unfold remember_choice_persist. destruct outcome; apply only_learns_remember. }
    clearbody st. destruct Hst as [Hst1 Hst2]. destruct st as [self1 disk1].
    cbn [fst] in Hst1.
    pose proof (read_only_suggest_words input_word 5 None self1) as Hro.
    assert (Hres : ∀ res : result WebApp.Page * Engine * option (gmap string string),
              res.1.2 = self1 → res.2 = disk1 →
              only_learns self res.1.2 ∧
              ((∀ form0, WebApp.POST form = WebApp.POST form0 →
                         form0 !! "learn" ≠ Some "true") →
               res.1.2 = self ∧ res.2 = disk)).
    { intros res -> ->. split; [done|]. intros Hl.
      specialize (Hst2 (Hl form eq_refl)). by injection Hst2 as -> ->. }
    case_bool_decide; [|by apply Hres].
    destruct (suggest_words input_word 5 None self1) as [[l|e] self2];
      simpl in Hro; subst self2; by apply Hres.
Qed.

(* ===================================================================== *)
(** * Normal form of the words, and the command-line loop *)
(* ===================================================================== *)

Lemma load_dictionary_fixed (l : list string) :
  (∀ w, w ∈ l → w ≠ EmptyString ∧ lower w = w ∧ strip w = w) →
  load_dictionary (Some l) = l.
Proof.
  cbn [load_dictionary]. induction l as [|w l IH]; intros H; [done|].
  destruct (H w) as (Hne & Hlow & Hstrip); [left|].
  rewrite filter_cons_True by (by rewrite Hstrip). rewrite fmap_cons.
  rewrite Hstrip, Hlow. f_equal. apply IH. intros w' Hw'. apply H. by right.
Qed.

(** X28. The words that [load_dictionary] returns are in normal form:
    not empty, lowercase, and without white space around them; so reading
    the returned words as the lines of a file gives the same list again.
    The default word list is in normal form as well. *)
Theorem load_dictionary_normalised file :
  (∀ w, w ∈ load_dictionary file → w ≠ EmptyString ∧ lower w = w ∧ strip w = w) ∧
  load_dictionary (Some (load_dictionary file)) = load_dictionary file.
Proof.
  assert (Hn : ∀ w, w ∈ load_dictionary file →
                    w ≠ EmptyString ∧ lower w = w ∧ strip w = w).
  { intros w Hw. destruct (load_dictionary_words _ _ Hw) as [Hne Hlow].
    split; [done|]. split; [done|]. destruct file as [lines|].
    - cbn [load_dictionary] in Hw.
      apply list_elem_of_fmap in Hw as (line & -> & _).
      apply strip_fixed, (unpadded_lower_eq (strip line)); [|apply strip_unpadded].
      by rewrite lower_idemp.
    - clear Hne Hlow. revert w Hw. apply Forall_forall.
      apply (bool_decide_unpack _). vm_compute. exact I. }
  split; [done|]. by apply load_dictionary_fixed.
Qed.

(** The words of a suggestion list are dictionary words. *)
Lemma returned_word_in_dictionary self w k md l x :
  indexed self →
  suggest_words w k md self = (Ok l, self) → x ∈ l →
  sg_word x ∈ dictionary self.
Proof.
  intros Hidx. rewrite suggest_words_run by done.
  intros [= <-] Hx. destruct (learned_hit self w) as [c|] eqn:Hhit.
  { apply list_elem_of_singleton in Hx as ->. by eapply learned_hit_in_dictionary. }
  cbv zeta in Hx. destruct (py_sort rank_lt _) as [|y rest] eqn:Hs.
  { apply fallback_elem_of in Hx as (w' & c & Hwc & ->).
    by destruct (indexed_items _ Hidx _ _ Hwc). }
  destruct (slice_to_take (y :: rest) k) as [n Hn]. rewrite Hn in Hx.
  apply (subseteq_take n) in Hx. rewrite <-Hs in Hx.
  apply py_sort_elem_of, candidates_elem_of in Hx as (w' & Hw' & Hx); [|done].
  by apply candidate_elem_of in Hx as (_ & _ & ->).
Qed.

(** X29. The loop of [main]: once the user has answered [y] to the first
    suggestion for a word, every later query for that word, in any
    spelling of upper and lower case and with any white space around it,
    is answered by that suggestion alone, with distance 0 and confidence
    1.0. *)
Theorem main_confirm_then_repeat self disk outcome line answer x rest self' disk' :
  reachable self →
  main_pass line answer outcome self disk =
    (Ok (MainTurn (x :: rest) true), self', disk') →
  self' = remember_choice (strip line) (sg_word x) self ∧
  suggest_words (strip line) 3 None self = (Ok (x :: rest), self) ∧
  ∀ line2 k md,
    lower (strip line2) = lower (strip line) →
    suggest_words (strip line2) k md self' = (Ok [(sg_word x, 0, 1%Q)], self').
Proof.
  intros Hr. pose proof (reachable_indexed _ Hr) as Hidx. unfold main_pass.
  repeat (case_bool_decide; [done|]).
  pose proof (read_only_suggest_words (strip line) 3 None self) as Hro.
  destruct (suggest_words (strip line) 3 None self) as [[l|e] self1] eqn:Hrun;
    [|done]. simpl in Hro. subst self1.
  destruct l as [|y l]; [done|]. case_bool_decide; [|done].
  assert (Hpers : remember_choice_persist (strip line) (sg_word y) outcome self =
    (remember_choice (strip line) (sg_word y) self,
     (remember_choice_persist (strip line) (sg_word y) outcome self).1.2,
     (remember_choice_persist (strip line) (sg_word y) outcome self).2))
    by (unfold remember_choice_persist; by destruct outcome).
  rewrite Hpers. intros [= -> -> <- _].
  split; [done|]. split; [done|]. intros line2 k md Hsame.
  assert (Hx : sg_word x ∈ dictionary self).
  { apply (returned_word_in_dictionary self (strip line) 3 None (x :: rest));
      [done..|left]. }
  apply (suggest_words_of_exit _ _ _ _ LearnedHit), learned_hit_returns; [|done].
  rewrite Hsame. cbn [remember_choice user_corrections].
  rewrite lookup_insert_eq. f_equal.
  by destruct (indexed_words _ Hidx _ Hx).
Qed.

Lemma main_confirm_then_repeat_witness :
  let pass := main_pass " Cak " " Y" Written default_engine None in
  pass.1.1 =
    Ok (MainTurn [("cap", 2, (944 # 1000)%Q); ("car", 2, (944 # 1000)%Q);
                  ("can", 2, (944 # 1000)%Q)] true) ∧
  ∀ line2 k md,
    lower (strip line2) = "cak" →
    suggest_words (strip line2) k md pass.1.2 = (Ok [("cap", 0, 1%Q)], pass.1.2).
Proof.
  intros pass. split; [by vm_compute|].
  refine (proj2 (proj2 (main_confirm_then_repeat default_engine None Written
    " Cak " " Y" ("cap", 2, (944 # 1000)%Q)
    [("car", 2, (944 # 1000)%Q); ("can", 2, (944 # 1000)%Q)] pass.1.2 pass.2 _ _))).
  - apply reachable_init.
  - by vm_compute.
Defined.

(** X30. The other passes of the loop: [quit], [test] and an empty line,
    in any case and with any white space around them, and a turn whose
    question is not answered by [y], leave the corrector and the memory
    file as they were. *)
Theorem main_pass_frame self disk outcome line answer :
  lower (strip answer) ≠ "y" ∨ strip line = EmptyString ∨
    lower (strip line) = "quit" ∨ lower (strip line) = "test" →
  (main_pass line answer outcome self disk).1.2 = self ∧
  (main_pass line answer outcome self disk).2 = disk.
Proof.
  intros Hcase. unfold main_pass.
  repeat (case_bool_decide; [done|]).
  pose proof (read_only_suggest_words (strip line) 3 None self) as Hro.
  destruct (suggest_words (strip line) 3 None self) as [[l|e] self1];
    simpl in Hro; subst self1; [|done].
  destruct l as [|y l]; [done|]. case_bool_decide; [|done].
  by destruct Hcase as [?|[?|[?|?]]].
Qed.

Lemma main_pass_frame_witness :
  (main_pass " Cak " "n" Written default_engine None).1.2 = default_engine ∧
  (main_pass " Cak " "n" Written default_engine None).2 = None.
Proof.
  apply (main_pass_frame default_engine None Written " Cak " "n").
  left. discriminate.
Defined.
